(** * kube-batch scheduling core: node accounting, statements, cache

    A shallow embedding of
      - [pkg/scheduler/api/node_info.go]        (NodeInfo and its methods),
      - [pkg/scheduler/framework/statement.go]  (Statement: Evict, Pipeline,
        Allocate, their inverses, Discard and Commit),
      - [pkg/scheduler/cache/cache.go]          (SchedulerCache: Bind, Evict,
        Snapshot, volume binding),
      - [pkg/scheduler/plugins/gang/gang.go]    (the victim filter),
    and of the properties the specification states about them.

    Go objects reached through pointers and mutated in place ([*TaskInfo])
    live in an explicit store; maps are [gmap]s; a method that mutates its
    receiver returns the new receiver. *)

From stdpp Require Import functions gmap strings list fin_maps.

(** ** Identifiers *)

Abbreviation TaskID := string (only parsing).
Abbreviation JobID := string (only parsing).
Abbreviation QueueID := string (only parsing).

(** A reference to a [TaskInfo] object ([*api.TaskInfo]). *)
Abbreviation ptr := positive (only parsing).

(** ** Task status ([api.TaskStatus]) *)

Inductive TaskStatus :=
  | Pending | Allocated | Pipelined | Binding | Bound
  | Running | Releasing | Succeeded | Failed | Unknown.

#[global] Instance TaskStatus_eq_dec : EqDecision TaskStatus.
Proof. solve_decision. Defined.

(** ** Resource vectors

    [resource_info.go] is not among the sources (only its tests are). *)

(** Modelled from the spec: the [Resource] type of [resource_info.go], which
    is missing.  "Resource — {MilliCPU, Memory, Scalars: mapping name→float64}
    ... exact arithmetic ... absent scalars are treated as zero".  Quantities
    are integers here (scalars are kept in milli-units), so that arithmetic is
    exact as the spec requires. *)
Record Resource := mkResource {
  MilliCPU : Z;
  Memory : Z;
  ScalarResources : gmap string Z
}.

(** The quantity of one scalar dimension; an absent one counts as zero. *)
Definition scalar (r : Resource) (n : string) : Z :=
  default 0%Z (ScalarResources r !! n).

(** Modelled from the spec: [EmptyResource()], the zero vector. *)
Definition EmptyResource : Resource := mkResource 0 0 ∅.

(** Modelled from the spec: [r.Clone()], "resource vectors copy the scalar
    map": an independent object holding the same quantities. *)
Definition Clone (r : Resource) : Resource :=
  mkResource (MilliCPU r) (Memory r) (ScalarResources r).

(** Modelled from the spec: [r.Add(rr)], per-dimension sum; "a resource's
    dimensions may grow when added".  The result is the new content of the
    receiver [r]. *)
Definition Add (r rr : Resource) : Resource :=
  mkResource (MilliCPU r + MilliCPU rr) (Memory r + Memory rr)
    (merge (λ a b, match b with
                   | Some q => Some (default 0 a + q)
                   | None => a
                   end%Z)
           (ScalarResources r) (ScalarResources rr)).

(** Modelled from the spec: [r.Sub(rr)], per-dimension difference, exact
    ("saturating at zero ... is not required; ... callers ensure
    non-negative").  The result is the new content of the receiver [r]. *)
Definition Sub (r rr : Resource) : Resource :=
  mkResource (MilliCPU r - MilliCPU rr) (Memory r - Memory rr)
    (merge (λ a b, match b with
                   | Some q => Some (default 0 a - q)
                   | None => a
                   end%Z)
           (ScalarResources r) (ScalarResources rr)).

(** Two vectors are the same when they agree in every dimension, an absent
    scalar counting as zero. *)
#[global] Instance Resource_equiv : Equiv Resource := λ a b,
  MilliCPU a = MilliCPU b ∧ Memory a = Memory b ∧ ∀ n, scalar a n = scalar b n.

(** Modelled from the spec: [r.LessEqual(rr)], "∀ dim: a≤b", "undefined dim
    ... treated as zero".  One admissible comparison; the development is
    parametric in the comparison actually used (see [Env]). *)
Definition LessEqual_exact (r rr : Resource) : bool :=
  bool_decide (MilliCPU r ≤ MilliCPU rr)%Z
  && bool_decide (Memory r ≤ Memory rr)%Z
  && bool_decide (set_Forall (λ n, scalar r n ≤ scalar rr n)%Z
                    (dom (ScalarResources r) ∪ dom (ScalarResources rr))).

(** ** Kubernetes objects

    [v1.Pod] and [v1.Node] belong to the Kubernetes API.  Only what the
    scheduler reads is kept; the resource lists of a node status are
    represented by the vectors [NewResource] builds from them. *)

Record Pod := mkPod {
  pod_Namespace : string;
  pod_Name : string;
  pod_UID : string
}.

Record Node := mkNode {
  node_Name : string;
  node_Allocatable : Resource;   (* NewResource(node.Status.Allocatable) *)
  node_Capacity : Resource       (* NewResource(node.Status.Capacity) *)
}.

(** ** TaskInfo *)

Record TaskInfo := mkTaskInfo {
  ti_UID : TaskID;
  ti_Job : JobID;
  ti_Name : string;
  ti_Namespace : string;
  ti_Resreq : Resource;
  ti_NodeName : string;
  ti_Status : TaskStatus;
  ti_Priority : Z;
  ti_VolumeReady : bool;
  ti_Pod : Pod
}.

#[global] Instance TaskInfo_inhabited : Inhabited TaskInfo :=
  populate (mkTaskInfo "" "" "" "" EmptyResource "" Pending 0 false
              (mkPod "" "" "")).

(** The store of task objects.  A reference always denotes an object:
    [h !!! p] is the object behind [p].  Allocation takes a reference that is
    not in use. *)
Abbreviation theap := (gmap positive TaskInfo) (only parsing).

Definition alloc (h : theap) (t : TaskInfo) : ptr * theap :=
  let c := fresh (dom h) in (c, <[c := t]> h).

Definition set_Status (t : TaskInfo) (s : TaskStatus) : TaskInfo :=
  mkTaskInfo (ti_UID t) (ti_Job t) (ti_Name t) (ti_Namespace t) (ti_Resreq t)
    (ti_NodeName t) s (ti_Priority t) (ti_VolumeReady t) (ti_Pod t).

Definition set_NodeName (t : TaskInfo) (n : string) : TaskInfo :=
  mkTaskInfo (ti_UID t) (ti_Job t) (ti_Name t) (ti_Namespace t) (ti_Resreq t)
    n (ti_Status t) (ti_Priority t) (ti_VolumeReady t) (ti_Pod t).

Definition set_VolumeReady (t : TaskInfo) (b : bool) : TaskInfo :=
  mkTaskInfo (ti_UID t) (ti_Job t) (ti_Name t) (ti_Namespace t) (ti_Resreq t)
    (ti_NodeName t) (ti_Status t) (ti_Priority t) b (ti_Pod t).

(** Modelled from the spec: [ti.Clone()] of [job_info.go], which is missing:
    "each entity provides a Clone() producing an independent instance";
    the request vector is cloned, the backing pod record is shared. *)
Definition TaskInfo_Clone (t : TaskInfo) : TaskInfo :=
  mkTaskInfo (ti_UID t) (ti_Job t) (ti_Name t) (ti_Namespace t)
    (Clone (ti_Resreq t)) (ti_NodeName t) (ti_Status t) (ti_Priority t)
    (ti_VolumeReady t) (ti_Pod t).

(** ** Errors and outcomes

    A Go [error] result is [option error], [None] being [nil]; the text of
    a message is not modelled beyond a short tag.  [glog.Fatalf] ends the
    process, and so does the dereference of a nil pointer: a call that may
    reach either has an [outcome]. *)

Inductive error := mkError (msg : string).

Inductive outcome (A : Type) :=
  | Ret (a : A)
  | Fatal (msg : string).
Arguments Ret {A} a.
Arguments Fatal {A} msg.

(** ** What the sources leave open

    Functions of the repository that the modelled code calls and that are not
    among the sources, and the external effectors, are parameters. *)

Inductive PodGroupVersion := PodGroupVersionV1Alpha1 | PodGroupVersionV1Alpha2 | PodGroupVersionOther (v : string).

Record PodGroup := mkPodGroup {
  pg_Version : PodGroupVersion;
  pg_PriorityClassName : string       (* pg.Spec.PriorityClassName *)
}.

Class Env := {
  (** [api.PodKey(pod)], the key of a task in [NodeInfo.Tasks]. *)
  PodKey : Pod → TaskID;
  (** [r.LessEqual(rr)] of [resource_info.go]. *)
  LessEqual : Resource → Resource → bool;
  (** [validateStatusUpdate(old, new)]: whether a status transition is
      allowed ("allowed transitions, all others are errors"). *)
  validateStatusUpdate : TaskStatus → TaskStatus → bool;
  (** [volumeBinder.Binder.AssumePodVolumes(pod, host)]: (allBound, err). *)
  AssumePodVolumes : Pod → string → bool * option error;
  (** [volumeBinder.Binder.BindPodVolumes(pod)]. *)
  BindPodVolumes : Pod → option error;
  (** [shadowPodGroup(pg)] of the cache's utilities. *)
  shadowPodGroup : option PodGroup → bool;
  (** [api.ConvertPodGroupInfoToV1Alpha(pg)] and [...ToV2Alpha(pg)]: only
      whether the conversion fails matters here. *)
  ConvertPodGroupInfoToV1Alpha : PodGroup → option error;
  ConvertPodGroupInfoToV2Alpha : PodGroup → option error
}.

(** ** NodeInfo ([node_info.go]) *)

Inductive NodePhase := Ready | NotReady.

#[global] Instance NodePhase_eq_dec : EqDecision NodePhase.
Proof. solve_decision. Defined.

Record NodeState := mkNodeState {
  Phase : NodePhase;
  Reason : string
}.

Record NodeInfo := mkNodeInfo {
  ni_Name : string;
  ni_Node : option Node;
  ni_State : NodeState;
  ni_Releasing : Resource;
  ni_Pipelined : Resource;
  ni_Idle : Resource;
  ni_Used : Resource;
  ni_Allocatable : Resource;
  ni_Capability : Resource;
  ni_Tasks : gmap string positive
}.

(** Field assignments. *)
Definition set_State (ni : NodeInfo) (s : NodeState) : NodeInfo :=
  mkNodeInfo (ni_Name ni) (ni_Node ni) s (ni_Releasing ni) (ni_Pipelined ni)
    (ni_Idle ni) (ni_Used ni) (ni_Allocatable ni) (ni_Capability ni) (ni_Tasks ni).

Definition set_Releasing (ni : NodeInfo) (r : Resource) : NodeInfo :=
  mkNodeInfo (ni_Name ni) (ni_Node ni) (ni_State ni) r (ni_Pipelined ni)
    (ni_Idle ni) (ni_Used ni) (ni_Allocatable ni) (ni_Capability ni) (ni_Tasks ni).

Definition set_Pipelined (ni : NodeInfo) (r : Resource) : NodeInfo :=
  mkNodeInfo (ni_Name ni) (ni_Node ni) (ni_State ni) (ni_Releasing ni) r
    (ni_Idle ni) (ni_Used ni) (ni_Allocatable ni) (ni_Capability ni) (ni_Tasks ni).

Definition set_Idle (ni : NodeInfo) (r : Resource) : NodeInfo :=
  mkNodeInfo (ni_Name ni) (ni_Node ni) (ni_State ni) (ni_Releasing ni)
    (ni_Pipelined ni) r (ni_Used ni) (ni_Allocatable ni) (ni_Capability ni)
    (ni_Tasks ni).

Definition set_Used (ni : NodeInfo) (r : Resource) : NodeInfo :=
  mkNodeInfo (ni_Name ni) (ni_Node ni) (ni_State ni) (ni_Releasing ni)
    (ni_Pipelined ni) (ni_Idle ni) r (ni_Allocatable ni) (ni_Capability ni)
    (ni_Tasks ni).

Definition set_Tasks (ni : NodeInfo) (m : gmap string positive) : NodeInfo :=
  mkNodeInfo (ni_Name ni) (ni_Node ni) (ni_State ni) (ni_Releasing ni)
    (ni_Pipelined ni) (ni_Idle ni) (ni_Used ni) (ni_Allocatable ni)
    (ni_Capability ni) m.

(** [FutureIdle]: the in-place [Add] and [Sub] have the clone of [Idle] as
    receiver, not a field of the node. *)
Definition FutureIdle (ni : NodeInfo) : Resource :=
  Sub (Add (Clone (ni_Idle ni)) (ni_Releasing ni)) (ni_Pipelined ni).

(** [ni.Ready()] *)
Definition NodeInfo_Ready (ni : NodeInfo) : bool :=
  bool_decide (Phase (ni_State ni) = Ready).

Section node_info.
Context `{!Env}.

Definition setNodeState (ni : NodeInfo) (node : option Node) : NodeInfo :=
  match node with
  | None => set_State ni (mkNodeState NotReady "UnInitialized")
  | Some n =>
      if negb (LessEqual (ni_Used ni) (node_Allocatable n))
      then set_State ni (mkNodeState NotReady "OutOfSync")
      else set_State ni (mkNodeState Ready "")
  end.

Definition NewNodeInfo (node : option Node) : NodeInfo :=
  let ni :=
    match node with
    | None =>
        mkNodeInfo "" None (mkNodeState NotReady "")
          EmptyResource EmptyResource EmptyResource EmptyResource
          EmptyResource EmptyResource ∅
    | Some n =>
        mkNodeInfo (node_Name n) (Some n) (mkNodeState NotReady "")
          EmptyResource EmptyResource (node_Allocatable n) EmptyResource
          (node_Allocatable n) (node_Capacity n) ∅
    end in
  setNodeState ni node.

(** One round of the loop of [SetNode] over [ni.Tasks]. *)
Definition SetNode_account (h : theap) (ni : NodeInfo) (c : ptr) : NodeInfo :=
  let ti := h !!! c in
  match ti_Status ti with
  | Releasing =>
      let ni := set_Idle ni (Sub (ni_Idle ni) (ti_Resreq ti)) in
      let ni := set_Releasing ni (Add (ni_Releasing ni) (ti_Resreq ti)) in
      set_Used ni (Add (ni_Used ni) (ti_Resreq ti))
  | Pipelined =>
      set_Pipelined ni (Add (ni_Pipelined ni) (ti_Resreq ti))
  | _ =>
      let ni := set_Idle ni (Sub (ni_Idle ni) (ti_Resreq ti)) in
      set_Used ni (Add (ni_Used ni) (ti_Resreq ti))
  end.

(** The tasks of a node in the order the loops visit them.  Go leaves the
    order of a [range] over a map open; the model fixes one. *)
Definition tasks_of (ni : NodeInfo) : list ptr :=
  (map_to_list (ni_Tasks ni)).*2.

Definition SetNode (ni : NodeInfo) (node : option Node) (h : theap) : NodeInfo :=
  let ni := setNodeState ni node in
  if negb (NodeInfo_Ready ni) then ni
  else
    match node with
    | None => ni  (* not reached: a nil node is never Ready *)
    | Some n =>
        let ni :=
          mkNodeInfo (node_Name n) (Some n) (ni_State ni)
            EmptyResource EmptyResource (node_Allocatable n) EmptyResource
            (node_Allocatable n) (node_Capacity n) (ni_Tasks ni) in
        foldl (SetNode_account h) ni (tasks_of ni)
    end.

Definition allocateIdleResource (ni : NodeInfo) (ti : TaskInfo)
  : option error * NodeInfo :=
  if LessEqual (ti_Resreq ti) (ni_Idle ni)
  then (None, set_Idle ni (Sub (ni_Idle ni) (ti_Resreq ti)))
  else (Some (mkError "Selected node NotReady"), ni).

(** [AddTask].  The clone [ti] is a local object until the node refers to
    it; it gets its place in the store when it is entered in [ni.Tasks]. *)
Definition AddTask (ni : NodeInfo) (task : ptr) (h : theap)
  : option error * NodeInfo * theap :=
  let t := h !!! task in
  if bool_decide (0 < String.length (ti_NodeName t))%nat
     && bool_decide (0 < String.length (ni_Name ni))%nat
     && negb (bool_decide (ti_NodeName t = ni_Name ni))
  then (Some (mkError "task already on different node"), ni, h)
  else
    let key := PodKey (ti_Pod t) in
    match ni_Tasks ni !! key with
    | Some _ => (Some (mkError "task already on node"), ni, h)
    | None =>
        let ti := TaskInfo_Clone t in
        let accounted : option error * NodeInfo :=
          match ni_Node ni with
          | None => (None, ni)
          | Some _ =>
              match ti_Status ti with
              | Releasing =>
                  match allocateIdleResource ni ti with
                  | (Some err, _) => (Some err, ni)
                  | (None, ni) =>
                      let ni := set_Releasing ni (Add (ni_Releasing ni) (ti_Resreq ti)) in
                      (None, set_Used ni (Add (ni_Used ni) (ti_Resreq ti)))
                  end
              | Pipelined =>
                  (None, set_Pipelined ni (Add (ni_Pipelined ni) (ti_Resreq ti)))
              | _ =>
                  match allocateIdleResource ni ti with
                  | (Some err, _) => (Some err, ni)
                  | (None, ni) =>
                      (None, set_Used ni (Add (ni_Used ni) (ti_Resreq ti)))
                  end
              end
          end in
        match accounted with
        | (Some err, _) => (Some err, ni, h)
        | (None, ni) =>
            let h := <[task := set_NodeName t (ni_Name ni)]> h in
            let '(c, h) := alloc h (set_NodeName ti (ni_Name ni)) in
            (None, set_Tasks ni (<[key := c]> (ni_Tasks ni)), h)
        end
    end.

(** [RemoveTask] reads the node's own copy, found under the key of [ti]. *)
Definition RemoveTask (ni : NodeInfo) (ti : ptr) (h : theap)
  : option error * NodeInfo :=
  let key := PodKey (ti_Pod (h !!! ti)) in
  match ni_Tasks ni !! key with
  | None => (Some (mkError "failed to find task on host"), ni)
  | Some c =>
      let task := h !!! c in
      let ni :=
        match ni_Node ni with
        | None => ni
        | Some _ =>
            match ti_Status task with
            | Releasing =>
                let ni := set_Releasing ni (Sub (ni_Releasing ni) (ti_Resreq task)) in
                let ni := set_Idle ni (Add (ni_Idle ni) (ti_Resreq task)) in
                set_Used ni (Sub (ni_Used ni) (ti_Resreq task))
            | Pipelined =>
                set_Pipelined ni (Sub (ni_Pipelined ni) (ti_Resreq task))
            | _ =>
                let ni := set_Idle ni (Add (ni_Idle ni) (ti_Resreq task)) in
                set_Used ni (Sub (ni_Used ni) (ti_Resreq task))
            end
        end in
      (None, set_Tasks ni (delete key (ni_Tasks ni)))
  end.

(** [UpdateTask]: [glog.Fatalf] when the task cannot be added back. *)
Definition UpdateTask (ni : NodeInfo) (ti : ptr) (h : theap)
  : outcome (option error * NodeInfo * theap) :=
  match RemoveTask ni ti h with
  | (Some err, _) => Ret (Some err, ni, h)
  | (None, ni1) =>
      match AddTask ni1 ti h with
      | (Some _, _, _) => Fatal "Failed to add Task to Node during task update"
      | (None, ni2, h2) => Ret (None, ni2, h2)
      end
  end.

(** [Clone]: a new node for the same [v1.Node], every task added again;
    the result of each [AddTask] is dropped. *)
Definition NodeInfo_Clone (ni : NodeInfo) (h : theap) : NodeInfo * theap :=
  foldl (λ (acc : NodeInfo * theap) p,
           let '(_, res, h) := AddTask acc.1 p acc.2 in (res, h))
        (NewNodeInfo (ni_Node ni), h) (tasks_of ni).

End node_info.

(** ** FutureIdle over Resource objects

    The vectors of a node are [*Resource] objects.  In every other method of
    [NodeInfo] the receiver of an in-place [Add] or [Sub] is a vector the
    node owns, and the method is embedded as an assignment to that field.
    [FutureIdle] is the one place where the receiver is another object, so
    here the objects are made explicit: [rstore] holds them, a node is given
    by the references to its vectors. *)

Abbreviation rstore := (gmap positive Resource) (only parsing).

#[global] Instance Resource_inhabited : Inhabited Resource := populate EmptyResource.

Record NodeVectors := mkNodeVectors {
  at_Releasing : positive;
  at_Pipelined : positive;
  at_Idle : positive;
  at_Used : positive;
  at_Allocatable : positive;
  at_Capability : positive
}.

(** [r.Clone()]: a new object. *)
Definition Clone_at (r : ptr) (m : rstore) : ptr * rstore :=
  let c := fresh (dom m) in (c, <[c := Clone (m !!! r)]> m).

(** [r.Add(rr)] and [r.Sub(rr)]: the receiver is overwritten and returned. *)
Definition Add_at (r rr : ptr) (m : rstore) : ptr * rstore :=
  (r, <[r := Add (m !!! r) (m !!! rr)]> m).

Definition Sub_at (r rr : ptr) (m : rstore) : ptr * rstore :=
  (r, <[r := Sub (m !!! r) (m !!! rr)]> m).

(** [return ni.Idle.Clone().Add(ni.Releasing).Sub(ni.Pipelined)] *)
Definition FutureIdle_at (ni : NodeVectors) (m : rstore) : ptr * rstore :=
  let '(c, m) := Clone_at (at_Idle ni) m in
  let '(c, m) := Add_at c (at_Releasing ni) m in
  Sub_at c (at_Pipelined ni) m.

(** ** JobInfo, QueueInfo, ClusterInfo

    [job_info.go], [queue_info.go] and [cluster_info.go] are not among the
    sources. *)

Record PDB := mkPDB { pdb_Name : string }.

(** Modelled from the spec: [JobInfo] of [job_info.go], which is missing:
    "identity JobID, Queue, Priority, MinAvailable, PodGroup, optional PDB,
    Tasks".  The status index is derived from [Tasks] (below). *)
Record JobInfo := mkJobInfo {
  ji_UID : JobID;
  ji_Name : string;
  ji_Namespace : string;
  ji_Queue : QueueID;
  ji_Priority : Z;
  ji_MinAvailable : Z;
  ji_PodGroup : option PodGroup;
  ji_PDB : option PDB;
  ji_Tasks : gmap string positive
}.

Definition set_ji_Tasks (ji : JobInfo) (m : gmap string positive) : JobInfo :=
  mkJobInfo (ji_UID ji) (ji_Name ji) (ji_Namespace ji) (ji_Queue ji)
    (ji_Priority ji) (ji_MinAvailable ji) (ji_PodGroup ji) (ji_PDB ji) m.

Definition set_ji_Priority (ji : JobInfo) (p : Z) : JobInfo :=
  mkJobInfo (ji_UID ji) (ji_Name ji) (ji_Namespace ji) (ji_Queue ji)
    p (ji_MinAvailable ji) (ji_PodGroup ji) (ji_PDB ji) (ji_Tasks ji).

(** Modelled from the spec: "a derived TaskStatusIndex: Status →
    set<TaskInfo> ... partitions Tasks exactly": the tasks of the job that
    are in status [s]. *)
Definition TaskStatusIndex (ji : JobInfo) (h : theap) (s : TaskStatus) : list ptr :=
  filter (λ p, ti_Status (h !!! p) = s) (map_to_list (ji_Tasks ji)).*2.

Definition count_in (ji : JobInfo) (h : theap) (ss : list TaskStatus) : Z :=
  Z.of_nat (length (filter (λ p, ti_Status (h !!! p) ∈ ss) (map_to_list (ji_Tasks ji)).*2)).

(** Modelled from the spec: "ValidTaskNum() = count of tasks in statuses
    {Pending, Allocated, Pipelined, Binding, Bound, Running, Succeeded}". *)
Definition ValidTaskNum (ji : JobInfo) (h : theap) : Z :=
  count_in ji h [Pending; Allocated; Pipelined; Binding; Bound; Running; Succeeded].

(** Modelled from the spec: "ReadyTaskNum() = count in {Allocated, Binding,
    Bound, Running, Succeeded}". *)
Definition ReadyTaskNum (ji : JobInfo) (h : theap) : Z :=
  count_in ji h [Allocated; Binding; Bound; Running; Succeeded].

(** Modelled from the spec: "Ready() ⇔ ReadyTaskNum() ≥ MinAvailable". *)
Definition JobInfo_Ready (ji : JobInfo) (h : theap) : bool :=
  bool_decide (ji_MinAvailable ji ≤ ReadyTaskNum ji h)%Z.

(** Modelled from the spec: [ji.Clone()], "an independent instance": the
    same fields, every task cloned. *)
Definition JobInfo_Clone (ji : JobInfo) (h : theap) : JobInfo * theap :=
  foldl (λ (acc : JobInfo * theap) (kp : string * positive),
           let '(c, h) := alloc acc.2 (TaskInfo_Clone (acc.2 !!! kp.2)) in
           (set_ji_Tasks acc.1 (<[ti_UID (h !!! c) := c]> (ji_Tasks acc.1)), h))
        (set_ji_Tasks ji ∅, h) (map_to_list (ji_Tasks ji)).

(** Modelled from the spec: [QueueInfo], "name, weight", and its [Clone()]. *)
Record QueueInfo := mkQueueInfo {
  qi_UID : QueueID;
  qi_Name : string;
  qi_Weight : Z
}.

Definition QueueInfo_Clone (q : QueueInfo) : QueueInfo :=
  mkQueueInfo (qi_UID q) (qi_Name q) (qi_Weight q).

(** [ClusterInfo], as [Snapshot] builds it. *)
Record ClusterInfo := mkClusterInfo {
  ci_Nodes : gmap string NodeInfo;
  ci_Jobs : gmap string JobInfo;
  ci_Queues : gmap string QueueInfo
}.

Section job_info.
Context `{!Env}.

(** Modelled from the spec: [ji.UpdateTaskStatus(task, status)] of
    [job_info.go], which is missing.  A transition that is not allowed is
    an error and changes nothing; otherwise the status of the task object
    is set and the job holds the object under its UID, so that the index
    partitions [Tasks]. *)
Definition UpdateTaskStatus (ji : JobInfo) (task : ptr) (status : TaskStatus)
    (h : theap) : option error * JobInfo * theap :=
  let t := h !!! task in
  if validateStatusUpdate (ti_Status t) status
  then (None,
        set_ji_Tasks ji (<[ti_UID t := task]> (ji_Tasks ji)),
        <[task := set_Status t status]> h)
  else (Some (mkError "invalid status transition"), ji, h).

End job_info.

(** ** SchedulerCache ([cache.go])

    The cache is used under its mutex, one operation at a time; the model is
    sequential.  A goroutine launched by an operation ([go func() {...}()])
    runs after the operation returns: the operation only records that it was
    launched. *)

Record PriorityClass := mkPriorityClass { pc_Value : Z }.

Inductive Detached :=
  | GoBind (p : Pod) (hostname : string) (task : positive)   (* sc.Binder.Bind(p, hostname) *)
  | GoEvict (p : Pod) (task : positive).                     (* sc.Evictor.Evict(p) *)

Record SchedulerCache := mkSchedulerCache {
  sc_Jobs : gmap string JobInfo;
  sc_Nodes : gmap string NodeInfo;
  sc_Queues : gmap string QueueInfo;
  sc_PriorityClasses : gmap string PriorityClass;
  sc_defaultPriority : Z;
  sc_errTasks : list positive;      (* the resync queue *)
  sc_spawned : list Detached;       (* goroutines launched *)
  sc_recorded : list string         (* sc.Recorder.Eventf(...) reasons *)
}.

Definition set_sc_Jobs (sc : SchedulerCache) (m : gmap string JobInfo) :=
  mkSchedulerCache m (sc_Nodes sc) (sc_Queues sc) (sc_PriorityClasses sc)
    (sc_defaultPriority sc) (sc_errTasks sc) (sc_spawned sc) (sc_recorded sc).

Definition set_sc_Nodes (sc : SchedulerCache) (m : gmap string NodeInfo) :=
  mkSchedulerCache (sc_Jobs sc) m (sc_Queues sc) (sc_PriorityClasses sc)
    (sc_defaultPriority sc) (sc_errTasks sc) (sc_spawned sc) (sc_recorded sc).

(** [sc.resyncTask(task)]: [sc.errTasks.AddRateLimited(task)] *)
Definition resyncTask (sc : SchedulerCache) (task : ptr) :=
  mkSchedulerCache (sc_Jobs sc) (sc_Nodes sc) (sc_Queues sc) (sc_PriorityClasses sc)
    (sc_defaultPriority sc) (sc_errTasks sc ++ [task]) (sc_spawned sc) (sc_recorded sc).

Definition spawn (sc : SchedulerCache) (g : Detached) :=
  mkSchedulerCache (sc_Jobs sc) (sc_Nodes sc) (sc_Queues sc) (sc_PriorityClasses sc)
    (sc_defaultPriority sc) (sc_errTasks sc) (sc_spawned sc ++ [g]) (sc_recorded sc).

Definition record_event (sc : SchedulerCache) (reason : string) :=
  mkSchedulerCache (sc_Jobs sc) (sc_Nodes sc) (sc_Queues sc) (sc_PriorityClasses sc)
    (sc_defaultPriority sc) (sc_errTasks sc) (sc_spawned sc) (sc_recorded sc ++ [reason]).

Section cache.
Context `{!Env}.

(** [findJobAndTask]: the job is returned with the key it is stored
    under, since the job object is updated in place. *)
Definition findJobAndTask (sc : SchedulerCache) (taskInfo : ptr) (h : theap)
  : error + JobInfo * ptr :=
  let ti := h !!! taskInfo in
  match sc_Jobs sc !! ti_Job ti with
  | None => inl (mkError "failed to find Job for Task")
  | Some job =>
      match ji_Tasks job !! ti_UID ti with
      | None => inl (mkError "failed to find task")
      | Some task => inr (job, task)
      end
  end.

(** [Bind] *)
Definition Bind (sc : SchedulerCache) (taskInfo : ptr) (hostname : string)
    (h : theap) : option error * SchedulerCache * theap :=
  match findJobAndTask sc taskInfo h with
  | inl err => (Some err, sc, h)
  | inr (job, task) =>
      let jkey := ti_Job (h !!! taskInfo) in
      match sc_Nodes sc !! hostname with
      | None => (Some (mkError "host does not exist"), sc, h)
      | Some node =>
          let originalStatus := ti_Status (h !!! task) in
          match UpdateTaskStatus job task Binding h with
          | (Some err, _, _) => (Some err, sc, h)
          | (None, job, h) =>
              let sc := set_sc_Jobs sc (<[jkey := job]> (sc_Jobs sc)) in
              match AddTask node task h with
              | (Some err, _, _) =>
                  match UpdateTaskStatus job task originalStatus h with
                  | (Some _, _, _) => (Some err, resyncTask sc task, h)
                  | (None, job, h) =>
                      (Some err, set_sc_Jobs sc (<[jkey := job]> (sc_Jobs sc)), h)
                  end
              | (None, node, h) =>
                  let sc := set_sc_Nodes sc (<[hostname := node]> (sc_Nodes sc)) in
                  let p := ti_Pod (h !!! task) in
                  (None, spawn sc (GoBind p hostname task), h)
              end
          end
      end
  end.

(** [Evict] *)
Definition cache_Evict (sc : SchedulerCache) (taskInfo : ptr) (reason : string)
    (h : theap) : outcome (option error * SchedulerCache * theap) :=
  match findJobAndTask sc taskInfo h with
  | inl err => Ret (Some err, sc, h)
  | inr (job, task) =>
      let jkey := ti_Job (h !!! taskInfo) in
      let nkey := ti_NodeName (h !!! task) in
      match sc_Nodes sc !! nkey with
      | None => Ret (Some (mkError "host does not exist"), sc, h)
      | Some node =>
          let originalStatus := ti_Status (h !!! task) in
          match UpdateTaskStatus job task Releasing h with
          | (Some err, _, _) => Ret (Some err, sc, h)
          | (None, job, h) =>
              let sc := set_sc_Jobs sc (<[jkey := job]> (sc_Jobs sc)) in
              match UpdateTask node task h with
              | Fatal msg => Fatal msg
              | Ret (Some err, _, _) =>
                  match UpdateTaskStatus job task originalStatus h with
                  | (Some _, _, _) => Ret (Some err, resyncTask sc task, h)
                  | (None, job, h) =>
                      Ret (Some err, set_sc_Jobs sc (<[jkey := job]> (sc_Jobs sc)), h)
                  end
              | Ret (None, node, h) =>
                  let sc := set_sc_Nodes sc (<[nkey := node]> (sc_Nodes sc)) in
                  let p := ti_Pod (h !!! task) in
                  let sc := spawn sc (GoEvict p task) in
                  if negb (shadowPodGroup (ji_PodGroup job)) then
                    match ji_PodGroup job with
                    | None => Fatal "nil pointer dereference"
                    | Some pg =>
                        match pg_Version pg with
                        | PodGroupVersionV1Alpha1 =>
                            match ConvertPodGroupInfoToV1Alpha pg with
                            | Some err => Ret (Some err, sc, h)
                            | None => Ret (None, record_event sc "Evict", h)
                            end
                        | PodGroupVersionV1Alpha2 =>
                            match ConvertPodGroupInfoToV2Alpha pg with
                            | Some err => Ret (Some err, sc, h)
                            | None => Ret (None, record_event sc "Evict", h)
                            end
                        | PodGroupVersionOther _ =>
                            Ret (Some (mkError "Invalid PodGroup Version"), sc, h)
                        end
                    end
                  else Ret (None, sc, h)
              end
          end
      end
  end.

(** [AllocateVolumes] through [defaultVolumeBinder.AllocateVolumes] *)
Definition AllocateVolumes (task : ptr) (hostname : string) (h : theap)
  : option error * theap :=
  let t := h !!! task in
  let '(allBound, err) := AssumePodVolumes (ti_Pod t) hostname in
  (err, <[task := set_VolumeReady t allBound]> h).

(** [BindVolumes] through [defaultVolumeBinder.BindVolumes] *)
Definition BindVolumes (task : ptr) (h : theap) : option error :=
  let t := h !!! task in
  if ti_VolumeReady t then None else BindPodVolumes (ti_Pod t).

(** [Snapshot]: one round of each of its three loops. *)
Definition Snapshot_node_round
    (acc : gmap string NodeInfo * gmap positive TaskInfo) (value : NodeInfo)
  : gmap string NodeInfo * gmap positive TaskInfo :=
  if negb (NodeInfo_Ready value) then acc
  else let '(cl, h) := NodeInfo_Clone value acc.2 in
       (<[ni_Name value := cl]> acc.1, h).

Definition Snapshot_queue_round (acc : gmap string QueueInfo) (value : QueueInfo)
  : gmap string QueueInfo :=
  <[qi_UID value := QueueInfo_Clone value]> acc.

(** The job object is updated in place: the cache sees the new priority. *)
Definition Snapshot_job_round (queues : gmap string QueueInfo)
    (acc : gmap string JobInfo * SchedulerCache * gmap positive TaskInfo)
    (kv : string * JobInfo)
  : gmap string JobInfo * SchedulerCache * gmap positive TaskInfo :=
  let '(jobs, sc, h) := acc in
  let value := kv.2 in
  if bool_decide (ji_PodGroup value = None ∧ ji_PDB value = None)
  then acc
  else
    match queues !! ji_Queue value with
    | None => acc
    | Some _ =>
        let value :=
          match ji_PodGroup value with
          | None => value
          | Some pg =>
              let value := set_ji_Priority value (sc_defaultPriority sc) in
              match sc_PriorityClasses sc !! pg_PriorityClassName pg with
              | Some priorityClass =>
                  set_ji_Priority value (pc_Value priorityClass)
              | None => value
              end
          end in
        let sc := set_sc_Jobs sc (<[kv.1 := value]> (sc_Jobs sc)) in
        let '(cl, h) := JobInfo_Clone value h in
        (<[ji_UID value := cl]> jobs, sc, h)
    end.

Definition Snapshot_nodes (sc : SchedulerCache) (h : theap)
  : gmap string NodeInfo * theap :=
  foldl Snapshot_node_round (∅, h) (map_to_list (sc_Nodes sc)).*2.

Definition Snapshot_queues (sc : SchedulerCache) : gmap string QueueInfo :=
  foldl Snapshot_queue_round ∅ (map_to_list (sc_Queues sc)).*2.

Definition Snapshot_jobs (sc : SchedulerCache)
    (queues : gmap string QueueInfo) (h : theap)
  : gmap string JobInfo * SchedulerCache * theap :=
  foldl (Snapshot_job_round queues) (∅, sc, h) (map_to_list (sc_Jobs sc)).

Definition Snapshot (sc : SchedulerCache) (h : theap)
  : ClusterInfo * SchedulerCache * theap :=
  let '(nodes, h) := Snapshot_nodes sc h in
  let queues := Snapshot_queues sc in
  let '(jobs, sc, h) := Snapshot_jobs sc queues h in
  (mkClusterInfo nodes jobs queues, sc, h).

End cache.

(** ** Session and Statement ([statement.go])

    Of the session, the statement uses the job and node indexes, the event
    handlers and the cache.  What a handler does is the plugin's business:
    the model records each invocation. *)

Record EventHandler := mkEventHandler {
  AllocateFunc : option string;      (* nil, or the plugin's callback *)
  DeallocateFunc : option string
}.

Record Session := mkSession {
  ssn_UID : string;
  ssn_Jobs : gmap string JobInfo;
  ssn_Nodes : gmap string NodeInfo;
  ssn_eventHandlers : list EventHandler;
  ssn_cache : SchedulerCache
}.

Record operation := mkOperation {
  op_name : string;
  op_task : positive;      (* args[0].( *api.TaskInfo) *)
  op_arg : string          (* args[1].(string): the reason, or the host *)
}.

(** What the outside can observe of a run, in order: callbacks of the
    plugins and calls into the cache. *)
Inductive Effect :=
  | CallAllocateFunc (handler : string) (task : positive)
  | CallDeallocateFunc (handler : string) (task : positive)
  | CallAllocateVolumes (task : positive) (hostname : string)
  | CallBindVolumes (task : positive)
  | CallBind (task : positive) (hostname : string)
  | CallEvict (task : positive) (reason : string).

(** A statement, the session it points to, and the store. *)
Record World := mkWorld {
  operations : list operation;
  ssn : Session;
  heap : gmap positive TaskInfo;
  trace : list Effect
}.

Definition set_operations (w : World) (ops : list operation) : World :=
  mkWorld ops (ssn w) (heap w) (trace w).

Definition set_heap (w : World) (h : theap) : World :=
  mkWorld (operations w) (ssn w) h (trace w).

Definition emit (w : World) (es : list Effect) : World :=
  mkWorld (operations w) (ssn w) (heap w) (trace w ++ es).

Definition set_Jobs (w : World) (m : gmap string JobInfo) : World :=
  mkWorld (operations w)
    (mkSession (ssn_UID (ssn w)) m (ssn_Nodes (ssn w))
       (ssn_eventHandlers (ssn w)) (ssn_cache (ssn w)))
    (heap w) (trace w).

Definition set_Nodes (w : World) (m : gmap string NodeInfo) : World :=
  mkWorld (operations w)
    (mkSession (ssn_UID (ssn w)) (ssn_Jobs (ssn w)) m
       (ssn_eventHandlers (ssn w)) (ssn_cache (ssn w)))
    (heap w) (trace w).

Definition set_cache (w : World) (sc : SchedulerCache) : World :=
  mkWorld (operations w)
    (mkSession (ssn_UID (ssn w)) (ssn_Jobs (ssn w)) (ssn_Nodes (ssn w))
       (ssn_eventHandlers (ssn w)) sc)
    (heap w) (trace w).

(** [for _, eh := range s.ssn.eventHandlers { if eh.AllocateFunc != nil {...} }] *)
Definition fire_allocate (w : World) (task : ptr) : World :=
  emit w (omap (λ eh, (λ f, CallAllocateFunc f task) <$> AllocateFunc eh)
               (ssn_eventHandlers (ssn w))).

Definition fire_deallocate (w : World) (task : ptr) : World :=
  emit w (omap (λ eh, (λ f, CallDeallocateFunc f task) <$> DeallocateFunc eh)
               (ssn_eventHandlers (ssn w))).

Section statement.
Context `{!Env}.

(** The block that opens every operation:
    [job, found := s.ssn.Jobs[task.Job]; if found { err :=
    job.UpdateTaskStatus(task, status) ... }].  [None]: the job is not in
    the index; [Some r]: the result [r] of the update. *)
Definition session_UpdateTaskStatus (w : World) (task : ptr)
    (status : TaskStatus) : option (option error) * World :=
  let jkey := ti_Job (heap w !!! task) in
  match ssn_Jobs (ssn w) !! jkey with
  | None => (None, w)
  | Some job =>
      match UpdateTaskStatus job task status (heap w) with
      | (Some err, _, _) => (Some (Some err), w)
      | (None, job, h) =>
          (Some None, set_heap (set_Jobs w (<[jkey := job]> (ssn_Jobs (ssn w)))) h)
      end
  end.

(** [if node, found := s.ssn.Nodes[reclaimee.NodeName]; found {
    node.UpdateTask(reclaimee) }]: the result of [UpdateTask] is dropped. *)
Definition session_UpdateTask (w : World) (task : ptr) : outcome World :=
  let nkey := ti_NodeName (heap w !!! task) in
  match ssn_Nodes (ssn w) !! nkey with
  | None => Ret w
  | Some node =>
      match UpdateTask node task (heap w) with
      | Fatal msg => Fatal msg
      | Ret (_, node, h) =>
          Ret (set_heap (set_Nodes w (<[nkey := node]> (ssn_Nodes (ssn w)))) h)
      end
  end.

(** [if node, found := s.ssn.Nodes[task.NodeName]; found {
    node.RemoveTask(task) }], the block of [unpipeline] and [unallocate]:
    the result of [RemoveTask] is only logged. *)
Definition session_RemoveTask (w : World) (task : ptr) : World :=
  let hostname := ti_NodeName (heap w !!! task) in
  match ssn_Nodes (ssn w) !! hostname with
  | None => w
  | Some node =>
      let '(_, node) := RemoveTask node task (heap w) in
      set_Nodes w (<[hostname := node]> (ssn_Nodes (ssn w)))
  end.

(** [if node, found := s.ssn.Nodes[hostname]; found { if err :=
    node.AddTask(task); err != nil { return err } } else { return
    fmt.Errorf(...) }], the block of [Pipeline] and [Allocate]. *)
Definition session_AddTask (w : World) (task : ptr) (hostname : string)
  : option error * World :=
  match ssn_Nodes (ssn w) !! hostname with
  | None => (Some (mkError "failed to find node"), w)
  | Some node =>
      match AddTask node task (heap w) with
      | (Some err, _, _) => (Some err, w)
      | (None, node, h) =>
          (None, set_heap (set_Nodes w (<[hostname := node]> (ssn_Nodes (ssn w)))) h)
      end
  end.

(** [Evict] *)
Definition Evict (w : World) (reclaimee : ptr) (reason : string)
  : outcome (option error * World) :=
  let w := (session_UpdateTaskStatus w reclaimee Releasing).2 in
  match session_UpdateTask w reclaimee with
  | Fatal msg => Fatal msg
  | Ret w =>
      let w := fire_deallocate w reclaimee in
      let w := set_operations w
                 (operations w ++ [mkOperation "evict" reclaimee reason]) in
      Ret (None, w)
  end.

(** [unevict] *)
Definition unevict (w : World) (reclaimee : ptr) (reason : string)
  : outcome (option error * World) :=
  let w := (session_UpdateTaskStatus w reclaimee Running).2 in
  match session_UpdateTask w reclaimee with
  | Fatal msg => Fatal msg
  | Ret w => Ret (None, fire_allocate w reclaimee)
  end.

(** [evict]: the commit of an evict record. *)
Definition evict (w : World) (reclaimee : ptr) (reason : string)
  : outcome (option error * World) :=
  let w := emit w [CallEvict reclaimee reason] in
  match cache_Evict (ssn_cache (ssn w)) reclaimee reason (heap w) with
  | Fatal msg => Fatal msg
  | Ret (Some err, sc, h) =>
      match unevict (set_heap (set_cache w sc) h) reclaimee reason with
      | Fatal msg => Fatal msg
      | Ret (_, w) => Ret (Some err, w)
      end
  | Ret (None, sc, h) => Ret (None, set_heap (set_cache w sc) h)
  end.

(** [Pipeline] *)
Definition Pipeline (w : World) (task : ptr) (hostname : string)
  : option error * World :=
  match session_UpdateTaskStatus w task Pipelined with
  | (None, w) => (Some (mkError "failed to find job when pipeline"), w)
  | (Some (Some err), w) => (Some err, w)
  | (Some None, w) =>
      match session_AddTask w task hostname with
      | (Some err, w) => (Some err, w)
      | (None, w) =>
          let w := fire_allocate w task in
          (None, set_operations w
                   (operations w ++ [mkOperation "pipeline" task hostname]))
      end
  end.

(** [pipeline]: the commit of a pipeline record; its body is empty. *)
Definition pipeline (w : World) (task : ptr) : World := w.

(** [unpipeline] *)
Definition unpipeline (w : World) (task : ptr) : option error * World :=
  let w := (session_UpdateTaskStatus w task Pending).2 in
  let w := session_RemoveTask w task in
  (None, fire_deallocate w task).

(** [Allocate] *)
Definition Allocate (w : World) (task : ptr) (hostname : string)
  : option error * World :=
  let w := emit w [CallAllocateVolumes task hostname] in
  match AllocateVolumes task hostname (heap w) with
  | (Some err, h) => (Some err, set_heap w h)
  | (None, h) =>
      let w := set_heap w h in
      match session_UpdateTaskStatus w task Allocated with
      | (None, w) => (Some (mkError "failed to find job"), w)
      | (Some (Some err), w) => (Some err, w)
      | (Some None, w) =>
          match session_AddTask w task hostname with
          | (Some err, w) => (Some err, w)
          | (None, w) =>
              let w := fire_allocate w task in
              (None, set_operations w
                       (operations w ++ [mkOperation "allocate" task hostname]))
          end
      end
  end.

(** [allocate]: the commit of an allocate record. *)
Definition allocate (w : World) (task : ptr) (hostname : string)
  : option error * World :=
  let w := emit w [CallBindVolumes task] in
  match BindVolumes task (heap w) with
  | Some err => (Some err, w)
  | None =>
      let w := emit w [CallBind task (ti_NodeName (heap w !!! task))] in
      match Bind (ssn_cache (ssn w)) task (ti_NodeName (heap w !!! task)) (heap w) with
      | (Some err, sc, h) => (Some err, set_heap (set_cache w sc) h)
      | (None, sc, h) =>
          let w := set_heap (set_cache w sc) h in
          match session_UpdateTaskStatus w task Binding with
          | (None, w) => (Some (mkError "failed to find job"), w)
          | (Some (Some err), w) => (Some err, w)
          | (Some None, w) => (None, w)
          end
      end
  end.

(** [unallocate] *)
Definition unallocate (w : World) (task : ptr) (reason : string)
  : option error * World :=
  let w := (session_UpdateTaskStatus w task Pending).2 in
  let w := session_RemoveTask w task in
  (None, fire_deallocate w task).

(** One round of the loop of [Discard]: the [switch] on [op.name]. *)
Definition Discard_op (w : World) (op : operation) : outcome World :=
  if bool_decide (op_name op = "evict") then
    match unevict w (op_task op) (op_arg op) with
    | Fatal msg => Fatal msg
    | Ret (_, w) => Ret w
    end
  else if bool_decide (op_name op = "pipeline") then
    Ret (unpipeline w (op_task op)).2
  else if bool_decide (op_name op = "allocate") then
    Ret (unallocate w (op_task op) (op_arg op)).2
  else Ret w.

(** Running a loop body over a list, stopping when the process ends. *)
Fixpoint run_ops (step : World → operation → outcome World)
    (ops : list operation) (w : World) : outcome World :=
  match ops with
  | [] => Ret w
  | op :: ops =>
      match step w op with
      | Fatal msg => Fatal msg
      | Ret w => run_ops step ops w
      end
  end.

(** [Discard]: [for i := len(s.operations) - 1; i >= 0; i--] *)
Definition Discard (w : World) : outcome World :=
  run_ops Discard_op (reverse (operations w)) w.

(** One round of the loop of [Commit]. *)
Definition Commit_op (w : World) (op : operation) : outcome World :=
  if bool_decide (op_name op = "evict") then
    match evict w (op_task op) (op_arg op) with
    | Fatal msg => Fatal msg
    | Ret (_, w) => Ret w
    end
  else if bool_decide (op_name op = "pipeline") then
    Ret (pipeline w (op_task op))
  else if bool_decide (op_name op = "allocate") then
    Ret (allocate w (op_task op) (op_arg op)).2
  else Ret w.

(** [Commit]: [for _, op := range s.operations] *)
Definition Commit (w : World) : outcome World :=
  run_ops Commit_op (operations w) w.

End statement.

(** ** The gang plugin ([gang.go]) *)

Section gang.

(** One round of the loop of [preemptableFn].  [ssn.Jobs[preemptee.Job]]
    is nil for a job that is not in the index, and [job.UID] then ends
    the process.  [ReadyTaskNum] and [MinAvailable] are [int32]; the
    decrement is taken only above [MinAvailable], so it does not wrap. *)
Definition preemptable_step (ssn : Session) (h : theap)
    (acc : list ptr * gmap string Z) (preemptee : ptr)
  : outcome (list ptr * gmap string Z) :=
  let '(victims, jobOccupiedMap) := acc in
  match ssn_Jobs ssn !! ti_Job (h !!! preemptee) with
  | None => Fatal "nil pointer dereference"
  | Some job =>
      let jobOccupiedMap :=
        match jobOccupiedMap !! ji_UID job with
        | Some _ => jobOccupiedMap
        | None => <[ji_UID job := ReadyTaskNum job h]> jobOccupiedMap
        end in
      if bool_decide (ji_MinAvailable job < default 0 (jobOccupiedMap !! ji_UID job))%Z
      then Ret (victims ++ [preemptee],
                <[ji_UID job := (default 0 (jobOccupiedMap !! ji_UID job) - 1)%Z]>
                  jobOccupiedMap)
      else Ret (victims, jobOccupiedMap)
  end.

Fixpoint preemptable_loop (ssn : Session) (h : theap)
    (acc : list ptr * gmap string Z) (preemptees : list ptr)
  : outcome (list ptr * gmap string Z) :=
  match preemptees with
  | [] => Ret acc
  | preemptee :: rest =>
      match preemptable_step ssn h acc preemptee with
      | Fatal msg => Fatal msg
      | Ret acc => preemptable_loop ssn h acc rest
      end
  end.

(** [preemptableFn], registered as both the preemptable and the
    reclaimable function of the plugin. *)
Definition preemptableFn (ssn : Session) (h : theap) (preemptor : ptr)
    (preemptees : list ptr) : outcome (list ptr) :=
  match preemptable_loop ssn h ([], ∅) preemptees with
  | Fatal msg => Fatal msg
  | Ret (victims, _) => Ret victims
  end.

End gang.

(** ** A concrete environment

    One admissible choice of the parameters: the task key is
    "namespace/name", comparison is exact, every status transition is
    allowed, the effectors succeed.  It is used to run the model on concrete
    inputs. *)

Definition exact_env : Env := {|
  PodKey := λ p, (pod_Namespace p +:+ "/" +:+ pod_Name p)%string;
  LessEqual := LessEqual_exact;
  validateStatusUpdate := λ _ _, true;
  AssumePodVolumes := λ _ _, (true, None);
  BindPodVolumes := λ _, None;
  shadowPodGroup := λ pg, bool_decide (pg = None);
  ConvertPodGroupInfoToV1Alpha := λ _, None;
  ConvertPodGroupInfoToV2Alpha := λ _, None
|}.

(** ** The order of jobs in the gang plugin ([gang.go]) *)

Module gang_plugin.

(** [jobOrderFn]: the comparison that [OnSessionOpen] registers with
    [AddJobOrderFn]. *)
Definition jobOrderFn (lv rv : JobInfo) (h : gmap positive TaskInfo) : Z :=
  let lReady := JobInfo_Ready lv h in
  let rReady := JobInfo_Ready rv h in
  if lReady && rReady then 0
  else if lReady then 1
  else if rReady then -1
  else 0.

End gang_plugin.

(** ** The priority plugin ([priority.go]) *)

Module priority_plugin.

(** [taskOrderFn] *)
Definition taskOrderFn (lv rv : TaskInfo) : Z :=
  if bool_decide (ti_Priority lv = ti_Priority rv) then 0
  else if bool_decide (ti_Priority rv < ti_Priority lv)%Z then -1
  else 1.

(** [jobOrderFn] *)
Definition jobOrderFn (lv rv : JobInfo) : Z :=
  if bool_decide (ji_Priority rv < ji_Priority lv)%Z then -1
  else if bool_decide (ji_Priority lv < ji_Priority rv)%Z then 1
  else 0.

(** One round of the loop of [preemptableFn].  [preemptorJob] is looked up
    once, before the loop, and may be nil; it is dereferenced in the loop,
    after [preempteeJob]. *)
Definition preemptable_round (ssn : Session) (h : gmap positive TaskInfo)
    (preemptor : ptr) (preemptorJob : option JobInfo)
    (victims : list ptr) (preemptee : ptr) : outcome (list ptr) :=
  match ssn_Jobs ssn !! ti_Job (h !!! preemptee) with
  | None => Fatal "nil pointer dereference"
  | Some preempteeJob =>
      match preemptorJob with
      | None => Fatal "nil pointer dereference"
      | Some preemptorJob =>
          if negb (bool_decide (ji_UID preempteeJob = ji_UID preemptorJob)) then
            if bool_decide (ji_Priority preemptorJob ≤ ji_Priority preempteeJob)%Z
            then Ret victims
            else Ret (victims ++ [preemptee])
          else
            if bool_decide (ti_Priority (h !!! preemptor)
                            ≤ ti_Priority (h !!! preemptee))%Z
            then Ret victims
            else Ret (victims ++ [preemptee])
      end
  end.

Fixpoint preemptable_loop (ssn : Session) (h : gmap positive TaskInfo)
    (preemptor : ptr) (preemptorJob : option JobInfo)
    (victims : list ptr) (preemptees : list ptr) : outcome (list ptr) :=
  match preemptees with
  | [] => Ret victims
  | preemptee :: rest =>
      match preemptable_round ssn h preemptor preemptorJob victims preemptee with
      | Fatal msg => Fatal msg
      | Ret victims => preemptable_loop ssn h preemptor preemptorJob victims rest
      end
  end.

(** [preemptableFn] *)
Definition preemptableFn (ssn : Session) (h : gmap positive TaskInfo)
    (preemptor : ptr) (preemptees : list ptr) : outcome (list ptr) :=
  let preemptorJob := ssn_Jobs ssn !! ti_Job (h !!! preemptor) in
  preemptable_loop ssn h preemptor preemptorJob [] preemptees.

End priority_plugin.

(** * Vocabulary of the properties *)

(** The six vectors of [ni] are the objects that [nv] refers to in [m]. *)
Definition vectors_at (nv : NodeVectors) (m : rstore) (ni : NodeInfo) : Prop :=
  m !! at_Releasing nv = Some (ni_Releasing ni)
  ∧ m !! at_Pipelined nv = Some (ni_Pipelined ni)
  ∧ m !! at_Idle nv = Some (ni_Idle ni)
  ∧ m !! at_Used nv = Some (ni_Used ni)
  ∧ m !! at_Allocatable nv = Some (ni_Allocatable ni)
  ∧ m !! at_Capability nv = Some (ni_Capability ni).

(** A sample node: 4000m CPU, 8Gi, one scalar. *)
Definition sample_vectors : NodeVectors := mkNodeVectors 1 2 3 4 5 6.

Definition sample_node_info : NodeInfo :=
  mkNodeInfo "n1" (Some (mkNode "n1" (mkResource 4000 8192 {["gpu" := 2000%Z]})
                                     (mkResource 4000 8192 {["gpu" := 2000%Z]})))
    (mkNodeState Ready "")
    (mkResource 1000 1024 ∅) (mkResource 500 512 {["gpu" := 1000%Z]})
    (mkResource 1000 2048 {["gpu" := 2000%Z]}) (mkResource 3000 6144 ∅)
    (mkResource 4000 8192 {["gpu" := 2000%Z]})
    (mkResource 4000 8192 {["gpu" := 2000%Z]}) ∅.

Definition sample_rstore : gmap positive Resource :=
  <[1%positive := ni_Releasing sample_node_info]>
  (<[2%positive := ni_Pipelined sample_node_info]>
  (<[3%positive := ni_Idle sample_node_info]>
  (<[4%positive := ni_Used sample_node_info]>
  (<[5%positive := ni_Allocatable sample_node_info]>
  (<[6%positive := ni_Capability sample_node_info]> ∅))))).

(** The accounting invariant of a node: Idle + Used = Allocatable. *)
Definition accounted (ni : NodeInfo) : Prop :=
  Add (ni_Idle ni) (ni_Used ni) ≡ ni_Allocatable ni.

(** What a task of status [s] requesting [r] adds to the vectors of a node
    when it is entered, as the [switch] of [AddTask] and of [SetNode] has it. *)
Definition charge (ni : NodeInfo) (s : TaskStatus) (r : Resource) : NodeInfo :=
  match s with
  | Releasing =>
      set_Used (set_Releasing (set_Idle ni (Sub (ni_Idle ni) r))
                  (Add (ni_Releasing ni) r))
        (Add (ni_Used ni) r)
  | Pipelined => set_Pipelined ni (Add (ni_Pipelined ni) r)
  | _ => set_Used (set_Idle ni (Sub (ni_Idle ni) r)) (Add (ni_Used ni) r)
  end.

(** And what it takes away when it is removed ([RemoveTask]). *)
Definition discharge (ni : NodeInfo) (s : TaskStatus) (r : Resource) : NodeInfo :=
  match s with
  | Releasing =>
      set_Used (set_Idle (set_Releasing ni (Sub (ni_Releasing ni) r))
                  (Add (ni_Idle ni) r))
        (Sub (ni_Used ni) r)
  | Pipelined => set_Pipelined ni (Sub (ni_Pipelined ni) r)
  | _ => set_Used (set_Idle ni (Add (ni_Idle ni) r)) (Sub (ni_Used ni) r)
  end.

(** Two descriptions of a node agree: the same fields, the vectors equal in
    every dimension. *)
Definition same_node (a b : NodeInfo) : Prop :=
  ni_Name a = ni_Name b ∧ ni_Node a = ni_Node b ∧ ni_State a = ni_State b
  ∧ ni_Releasing a ≡ ni_Releasing b ∧ ni_Pipelined a ≡ ni_Pipelined b
  ∧ ni_Idle a ≡ ni_Idle b ∧ ni_Used a ≡ ni_Used b
  ∧ ni_Allocatable a = ni_Allocatable b ∧ ni_Capability a = ni_Capability b
  ∧ ni_Tasks a = ni_Tasks b.

(** The sum of the requests of the tasks in [l] whose status satisfies [P]. *)
Definition sum_resreq (h : theap) (P : TaskStatus → bool) (l : list ptr) : Resource :=
  foldr (λ c acc, if P (ti_Status (h !!! c)) then Add (ti_Resreq (h !!! c)) acc else acc)
        EmptyResource l.

Definition is_Releasing (s : TaskStatus) : bool := bool_decide (s = Releasing).
Definition is_Pipelined (s : TaskStatus) : bool := bool_decide (s = Pipelined).
Definition uses_idle (s : TaskStatus) : bool := negb (is_Pipelined s).

Section node_vocabulary.
Context `{!Env}.

(** Whether a task of status [s] requesting [r] can be entered: a node
    without a [v1.Node] keeps no accounts; a pipelined task takes nothing
    from Idle; any other must fit into Idle. *)
Definition fits (ni : NodeInfo) (s : TaskStatus) (r : Resource) : bool :=
  match ni_Node ni with
  | None => true
  | Some _ => if is_Pipelined s then true else LessEqual r (ni_Idle ni)
  end.

Definition entered (ni : NodeInfo) (s : TaskStatus) (r : Resource) : NodeInfo :=
  match ni_Node ni with None => ni | Some _ => charge ni s r end.

Definition left (ni : NodeInfo) (s : TaskStatus) (r : Resource) : NodeInfo :=
  match ni_Node ni with None => ni | Some _ => discharge ni s r end.

(** [task.NodeName] names another node than [ni]. *)
Definition on_other_node (ni : NodeInfo) (t : TaskInfo) : bool :=
  bool_decide (0 < String.length (ti_NodeName t))%nat
  && bool_decide (0 < String.length (ni_Name ni))%nat
  && negb (bool_decide (ti_NodeName t = ni_Name ni)).

End node_vocabulary.

(** [ni'] differs from [ni] in its state at most. *)
Definition same_but_State (ni ni' : NodeInfo) : Prop :=
  ni_Name ni' = ni_Name ni ∧ ni_Node ni' = ni_Node ni
  ∧ ni_Releasing ni' = ni_Releasing ni ∧ ni_Pipelined ni' = ni_Pipelined ni
  ∧ ni_Idle ni' = ni_Idle ni ∧ ni_Used ni' = ni_Used ni
  ∧ ni_Allocatable ni' = ni_Allocatable ni ∧ ni_Capability ni' = ni_Capability ni
  ∧ ni_Tasks ni' = ni_Tasks ni.

(** Sample tasks and a store: [tA] pending, [tB] running on n1. *)
Definition sample_tA : TaskInfo :=
  mkTaskInfo "uA" "j1" "a" "ns" (mkResource 1000 1024 ∅) "" Pending 1 false
    (mkPod "ns" "a" "uA").

Definition sample_tB : TaskInfo :=
  mkTaskInfo "uB" "j1" "b" "ns" (mkResource 3000 6144 ∅) "n1" Running 1 false
    (mkPod "ns" "b" "uB").

Definition sample_heap : gmap positive TaskInfo :=
  <[1%positive := sample_tA]> (<[2%positive := sample_tB]> (<[3%positive := sample_tB]> ∅)).

(** [sample_node_info] holding its copy (object 3) of [tB]. *)
Definition sample_node_with_tB : NodeInfo :=
  set_Tasks sample_node_info {[ "ns/b" := 3%positive ]}.

(** ** Gang: counting victims *)

(** How many of [victims] are tasks of the job [job]. *)
Definition victims_of (h : theap) (job : JobID) (victims : list ptr) : Z :=
  Z.of_nat (length (filter (λ p, ti_Job (h !!! p) = job) victims)).

(** Every job of the session is indexed under its UID. *)
Definition jobs_by_UID (jobs : gmap string JobInfo) : Prop :=
  ∀ k job, jobs !! k = Some job → ji_UID job = k.

(** What the loop of [preemptableFn] maintains: for every job, its entry in
    [jobOccupiedMap], once made, is the number of ready tasks less the
    victims taken from it so far, and a job from which a victim was taken
    is still at or above MinAvailable. *)
Definition gang_invariant (jobs : gmap string JobInfo) (h : theap)
    (acc : list ptr * gmap string Z) : Prop :=
  ∀ k job, jobs !! k = Some job →
    match acc.2 !! k with
    | None => victims_of h k acc.1 = 0%Z
    | Some v =>
        v = (ReadyTaskNum job h - victims_of h k acc.1)%Z
        ∧ (victims_of h k acc.1 = 0%Z ∨ (ji_MinAvailable job ≤ v)%Z)
    end.

(** A job of two running tasks, and sessions that hold it with a gang
    threshold of 1 and of 3. *)
Definition sample_tC : TaskInfo :=
  mkTaskInfo "uC" "j1" "c" "ns" (mkResource 500 512 ∅) "n1" Running 1 false
    (mkPod "ns" "c" "uC").

Definition gang_heap : gmap positive TaskInfo :=
  <[2%positive := sample_tB]> (<[4%positive := sample_tC]> ∅).

Definition gang_job (minAvailable : Z) : JobInfo :=
  mkJobInfo "j1" "job" "ns" "q1" 0 minAvailable
    (Some (mkPodGroup PodGroupVersionV1Alpha1 "")) None
    (<["uB" := 2%positive]> (<["uC" := 4%positive]> ∅)).

Definition empty_cache : SchedulerCache :=
  mkSchedulerCache ∅ ∅ ∅ ∅ 0 [] [] [].

Definition gang_session (minAvailable : Z) : Session :=
  mkSession "ssn" {[ "j1" := gang_job minAvailable ]} ∅ [] empty_cache.

(** ** Statements: sample worlds *)



Definition job_j1 (tasks : gmap string positive) : JobInfo :=
  mkJobInfo "j1" "job" "ns" "q1" 0 1
    (Some (mkPodGroup PodGroupVersionV1Alpha1 "")) None tasks.


(** ** The cache: sample states *)

(** Modelled from the spec: the task lifecycle, "allowed transitions, all
    others are errors": Pending → Allocated → Binding → Bound → Running →
    {Succeeded, Failed, Releasing}; Allocated → Pipelined, Pipelined →
    Pending; Allocated → Pending, Running → Releasing → Pending. *)
Definition lifecycle (old new : TaskStatus) : bool :=
  match old, new with
  | Pending, Allocated | Allocated, Binding | Binding, Bound | Bound, Running
  | Running, Succeeded | Running, Failed | Running, Releasing
  | Allocated, Pipelined | Pipelined, Pending
  | Allocated, Pending | Releasing, Pending => true
  | _, _ => false
  end.

(** The environment in which only the transitions of the lifecycle are
    allowed. *)
Definition lifecycle_env : Env := {|
  PodKey := λ p, (pod_Namespace p +:+ "/" +:+ pod_Name p)%string;
  LessEqual := LessEqual_exact;
  validateStatusUpdate := lifecycle;
  AssumePodVolumes := λ _ _, (true, None);
  BindPodVolumes := λ _, None;
  shadowPodGroup := λ pg, bool_decide (pg = None);
  ConvertPodGroupInfoToV1Alpha := λ _, None;
  ConvertPodGroupInfoToV2Alpha := λ _, None
|}.

(** A cache with job j1 holding the allocated task [a] (object 1) and a
    node n1 that has no idle resources left. *)
Definition allocated_tA : TaskInfo :=
  mkTaskInfo "uA" "j1" "a" "ns" (mkResource 1000 1024 ∅) "" Allocated 1 false
    (mkPod "ns" "a" "uA").

Definition busy_node : NodeInfo :=
  mkNodeInfo "n1" (Some (mkNode "n1" (mkResource 4000 8192 ∅) (mkResource 4000 8192 ∅)))
    (mkNodeState Ready "")
    EmptyResource EmptyResource
    (mkResource 0 0 ∅) (mkResource 4000 8192 ∅)
    (mkResource 4000 8192 ∅) (mkResource 4000 8192 ∅) ∅.

Definition busy_cache : SchedulerCache :=
  mkSchedulerCache {[ "j1" := job_j1 {[ "uA" := 1%positive ]} ]}
    {[ "n1" := busy_node ]} ∅ ∅ 0 [] [] [].

Definition busy_heap : gmap positive TaskInfo :=
  <[1%positive := allocated_tA]> ∅.

(** ** Snapshot: what is in it *)

(** The indexes of the cache: a node is stored under its name, a queue and
    a job under their UID. *)
Definition nodes_by_Name (m : gmap string NodeInfo) : Prop :=
  ∀ k n, m !! k = Some n → ni_Name n = k.


(** The job has a PodGroup or a PDB. *)
Definition has_scheduling_spec (j : JobInfo) : bool :=
  negb (bool_decide (ji_PodGroup j = None ∧ ji_PDB j = None)).

(** The priority a job gets in a snapshot: that of the priority class of
    its PodGroup if there is one, the default priority if the PodGroup names
    no known class; a job without PodGroup keeps its own. *)
Definition snapshot_priority (classes : gmap string PriorityClass) (dflt : Z)
    (j : JobInfo) : Z :=
  match ji_PodGroup j with
  | None => ji_Priority j
  | Some pg =>
      match classes !! pg_PriorityClassName pg with
      | Some priorityClass => pc_Value priorityClass
      | None => dflt
      end
  end.


(** A cache of two nodes (one ready, one not), one queue, and three jobs:
    with a known priority class, with an unknown one, and without
    scheduling spec. *)
Definition unready_node : NodeInfo :=
  mkNodeInfo "n2" None (mkNodeState NotReady "UnInitialized")
    EmptyResource EmptyResource EmptyResource EmptyResource
    EmptyResource EmptyResource ∅.

Definition snap_job (uid : string) (pg : option PodGroup) : JobInfo :=
  mkJobInfo uid "job" "ns" "q1" 0 1 pg None ∅.

Definition snap_cache : SchedulerCache :=
  mkSchedulerCache
    (<["ja" := snap_job "ja" (Some (mkPodGroup PodGroupVersionV1Alpha1 "high"))]>
     (<["jb" := snap_job "jb" (Some (mkPodGroup PodGroupVersionV1Alpha1 "none"))]>
     (<["jc" := snap_job "jc" None]> ∅)))
    (<["n1" := busy_node]> (<["n2" := unready_node]> ∅))
    {[ "q1" := mkQueueInfo "q1" "queue" 1 ]}
    {[ "high" := mkPriorityClass 1000 ]}
    7 [] [] [].

(** The job as [Snapshot] clones it: with the priority of the snapshot. *)
Definition prioritized (classes : gmap string PriorityClass) (dflt : Z)
    (j : JobInfo) : JobInfo :=
  set_ji_Priority j (snapshot_priority classes dflt j).

(** The job is taken into the snapshot: it has a scheduling spec and its
    queue is among [queues]. *)
Definition taken (queues : gmap string QueueInfo) (j : JobInfo) : bool :=
  has_scheduling_spec j && bool_decide (is_Some (queues !! ji_Queue j)).

(** ** The round trip of a statement

    The statement works on task objects that the actions hand to it; [D] is
    the set of these objects.  The copies that the nodes hold are other
    objects, out of the reach of the actions. *)

(** [c] is one of the copies held by a node of the session. *)
Definition stored (w : World) (c : ptr) : Prop :=
  ∃ k n key, ssn_Nodes (ssn w) !! k = Some n ∧ ni_Tasks n !! key = Some c.

(** The session is well formed with respect to [D]: the objects of [D]
    exist, the copies held by the nodes exist and are not in [D], and every
    node is indexed under its name. *)
Definition well_formed (D : gset positive) (w : World) : Prop :=
  D ⊆ dom (heap w)
  ∧ (∀ c, stored w c → (c ∉ D) ∧ c ∈ dom (heap w))
  ∧ nodes_by_Name (ssn_Nodes (ssn w)).

(** What a node knows of a task it holds: the status and the request of its
    copy. *)
Definition view (h : theap) (c : ptr) : TaskStatus * Resource :=
  (ti_Status (h !!! c), ti_Resreq (h !!! c)).

(** A node seen without its references: its record with the task map
    emptied, and the view of each task under its key. *)
Record ANode := mkANode {
  an_node : NodeInfo;
  an_tasks : gmap string (TaskStatus * Resource)
}.

Definition abs_node (h : theap) (n : NodeInfo) : ANode :=
  mkANode (set_Tasks n ∅) (view h <$> ni_Tasks n).

(** The session seen without the store: which jobs it knows, its nodes, and
    the task objects of [D]. *)
Record AWorld := mkAWorld {
  a_jobs : gset string;
  a_nodes : gmap string ANode;
  a_task : positive → TaskInfo
}.

Definition set_a_nodes (a : AWorld) (m : gmap string ANode) : AWorld :=
  mkAWorld (a_jobs a) m (a_task a).

Definition set_a_task (a : AWorld) (p : ptr) (t : TaskInfo) : AWorld :=
  mkAWorld (a_jobs a) (a_nodes a) (<[p := t]> (a_task a)).

(** [a] is the view of [w]. *)
Definition abs (D : gset positive) (w : World) (a : AWorld) : Prop :=
  a_jobs a = dom (ssn_Jobs (ssn w))
  ∧ a_nodes a = abs_node (heap w) <$> ssn_Nodes (ssn w)
  ∧ ∀ p, p ∈ D → a_task a p = heap w !!! p.

(** Two task objects that differ at most in [NodeName] and [VolumeReady],
    the two fields that [Allocate] and [Pipeline] set and their inverses
    leave. *)
Definition same_task (t t' : TaskInfo) : Prop :=
  ti_UID t = ti_UID t' ∧ ti_Job t = ti_Job t' ∧ ti_Name t = ti_Name t'
  ∧ ti_Namespace t = ti_Namespace t' ∧ ti_Resreq t = ti_Resreq t'
  ∧ ti_Status t = ti_Status t' ∧ ti_Priority t = ti_Priority t'
  ∧ ti_Pod t = ti_Pod t'.

Definition same_anode (x y : ANode) : Prop :=
  same_node (an_node x) (an_node y) ∧ an_tasks x = an_tasks y.

(** Two views agree: the same jobs, the same nodes with vectors equal in
    every dimension, the task objects of [D] the same but for [NodeName] and
    [VolumeReady], and those outside [P] the same altogether. *)
Definition same_view (D P : gset positive) (a b : AWorld) : Prop :=
  a_jobs a = a_jobs b
  ∧ (∀ name, option_Forall2 same_anode (a_nodes a !! name) (a_nodes b !! name))
  ∧ (∀ p, p ∈ D → p ∉ P → a_task a p = a_task b p)
  ∧ (∀ p, p ∈ D → same_task (a_task a p) (a_task b p)).

Section abstract_statement.
Context `{!Env}.

Definition a_UpdateTaskStatus (a : AWorld) (p : ptr) (s : TaskStatus) : AWorld :=
  let t := a_task a p in
  if decide (ti_Job t ∈ a_jobs a)
  then if validateStatusUpdate (ti_Status t) s
       then set_a_task a p (set_Status t s)
       else a
  else a.

Definition a_removed (an : ANode) (key : string) (v : TaskStatus * Resource) : ANode :=
  mkANode (left (an_node an) v.1 v.2) (delete key (an_tasks an)).

Definition a_RemoveTask (a : AWorld) (p : ptr) : AWorld :=
  let t := a_task a p in
  match a_nodes a !! ti_NodeName t with
  | None => a
  | Some an =>
      match an_tasks an !! PodKey (ti_Pod t) with
      | None => a
      | Some v =>
          set_a_nodes a (<[ti_NodeName t := a_removed an (PodKey (ti_Pod t)) v]>
                           (a_nodes a))
      end
  end.

(** [None]: [AddTask] returns an error. *)
Definition a_AddTask (an : ANode) (t : TaskInfo) : option ANode :=
  if on_other_node (an_node an) t then None
  else match an_tasks an !! PodKey (ti_Pod t) with
       | Some _ => None
       | None =>
           if fits (an_node an) (ti_Status t) (ti_Resreq t)
           then Some (mkANode (entered (an_node an) (ti_Status t) (ti_Resreq t))
                        (<[PodKey (ti_Pod t) := (ti_Status t, ti_Resreq t)]>
                           (an_tasks an)))
           else None
       end.

Definition a_session_AddTask (a : AWorld) (p : ptr) (hostname : string)
  : option AWorld :=
  let t := a_task a p in
  match a_nodes a !! hostname with
  | None => None
  | Some an =>
      match a_AddTask an t with
      | None => None
      | Some an' =>
          Some (set_a_task (set_a_nodes a (<[hostname := an']> (a_nodes a)))
                  p (set_NodeName t (ni_Name (an_node an))))
      end
  end.

(** [None]: the process ends. *)
Definition a_UpdateTask (a : AWorld) (p : ptr) : option AWorld :=
  let t := a_task a p in
  match a_nodes a !! ti_NodeName t with
  | None => Some a
  | Some an =>
      match an_tasks an !! PodKey (ti_Pod t) with
      | None => Some a
      | Some v =>
          match a_AddTask (a_removed an (PodKey (ti_Pod t)) v) t with
          | None => None
          | Some an' =>
              Some (set_a_task
                      (set_a_nodes a (<[ti_NodeName t := an']> (a_nodes a)))
                      p (set_NodeName t (ni_Name (an_node an))))
          end
      end
  end.

(** The inverse of a record, on the view. *)
Definition a_undo (a : AWorld) (op : operation) : option AWorld :=
  if bool_decide (op_name op = "evict") then
    a_UpdateTask (a_UpdateTaskStatus a (op_task op) Running) (op_task op)
  else if bool_decide (op_name op = "pipeline") then
    Some (a_RemoveTask (a_UpdateTaskStatus a (op_task op) Pending) (op_task op))
  else if bool_decide (op_name op = "allocate") then
    Some (a_RemoveTask (a_UpdateTaskStatus a (op_task op) Pending) (op_task op))
  else Some a.

(** The reclaimee agrees with the copy that its node holds: the copy is
    Running and requests the same. *)
Definition evict_coherent (w : World) (p : ptr) : Prop :=
  ∀ n c,
    ssn_Nodes (ssn w) !! ti_NodeName (heap w !!! p) = Some n →
    ni_Tasks n !! PodKey (ti_Pod (heap w !!! p)) = Some c →
    view (heap w) c = (Running, ti_Resreq (heap w !!! p)).

(** One successful operation of the kind the actions perform: [Allocate]
    or [Pipeline] of a Pending task, [Evict] of a Running task that agrees
    with its node's copy. *)
Inductive step_ok (D : gset positive) (w : World) : operation → World → Prop :=
  | ok_Allocate task hostname w' :
      task ∈ D →
      ti_Status (heap w !!! task) = Pending →
      Allocate w task hostname = (None, w') →
      step_ok D w (mkOperation "allocate" task hostname) w'
  | ok_Pipeline task hostname w' :
      task ∈ D →
      ti_Status (heap w !!! task) = Pending →
      Pipeline w task hostname = (None, w') →
      step_ok D w (mkOperation "pipeline" task hostname) w'
  | ok_Evict reclaimee reason w' :
      reclaimee ∈ D →
      ti_Status (heap w !!! reclaimee) = Running →
      evict_coherent w reclaimee →
      Evict w reclaimee reason = Ret (None, w') →
      step_ok D w (mkOperation "evict" reclaimee reason) w'.

(** A sequence of such operations through one statement. *)
Inductive run (D : gset positive) : World → list operation → World → Prop :=
  | run_nil w : run D w [] w
  | run_cons w op w1 ops w2 :
      step_ok D w op w1 → run D w1 ops w2 → run D w (op :: ops) w2.

(** The inverse transitions that [Discard] relies on are allowed. *)
Definition rollback_allowed : Prop :=
  validateStatusUpdate Allocated Pending = true
  ∧ validateStatusUpdate Pipelined Pending = true
  ∧ validateStatusUpdate Releasing Running = true.

(** The comparison does not tell apart vectors that are equal in every
    dimension. *)
Definition LessEqual_respects_equiv : Prop :=
  ∀ r a b, a ≡ b → LessEqual r a = LessEqual r b.

End abstract_statement.

Section abstract_steps.
Context `{!Env}.

(** Every node of the view is indexed under its name. *)
Definition a_named (a : AWorld) : Prop :=
  ∀ k an, a_nodes a !! k = Some an → ni_Name (an_node an) = k.

(** [a0] is [a] with the task object [p] replaced by [t']. *)
Definition a_with (a : AWorld) (p : ptr) (t' : TaskInfo) (a0 : AWorld) : Prop :=
  a_jobs a0 = a_jobs a ∧ a_nodes a0 = a_nodes a ∧ a_task a0 p = t'
  ∧ ∀ q, q ≠ p → a_task a0 q = a_task a q.

Definition a_coherent (a : AWorld) (p : ptr) : Prop :=
  ∀ an v,
    a_nodes a !! ti_NodeName (a_task a p) = Some an →
    an_tasks an !! PodKey (ti_Pod (a_task a p)) = Some v →
    v = (Running, ti_Resreq (a_task a p)).

(** A successful operation, on the view. *)
Inductive a_step (a : AWorld) : operation → AWorld → Prop :=
  | a_step_allocate task hostname b a0 a' :
      ti_Status (a_task a task) = Pending →
      ti_Job (a_task a task) ∈ a_jobs a →
      validateStatusUpdate Pending Allocated = true →
      a_with a task (set_Status (set_VolumeReady (a_task a task) b) Allocated) a0 →
      a_session_AddTask a0 task hostname = Some a' →
      a_step a (mkOperation "allocate" task hostname) a'
  | a_step_pipeline task hostname a0 a' :
      ti_Status (a_task a task) = Pending →
      ti_Job (a_task a task) ∈ a_jobs a →
      validateStatusUpdate Pending Pipelined = true →
      a_with a task (set_Status (a_task a task) Pipelined) a0 →
      a_session_AddTask a0 task hostname = Some a' →
      a_step a (mkOperation "pipeline" task hostname) a'
  | a_step_evict reclaimee reason a' :
      ti_Status (a_task a reclaimee) = Running →
      a_coherent a reclaimee →
      a_UpdateTask (a_UpdateTaskStatus a reclaimee Releasing) reclaimee = Some a' →
      a_step a (mkOperation "evict" reclaimee reason) a'.

End abstract_steps.

(** The tasks that the records of [ops] placed on a node: those of the
    allocate and pipeline records. *)
Definition placed (ops : list operation) : gset positive :=
  list_to_set (op_task <$> filter (λ op, op_name op ≠ "evict") ops).

(** The four vectors that the operations account in are equal in every
    dimension. *)
Definition same_vectors (n n' : NodeInfo) : Prop :=
  ni_Idle n ≡ ni_Idle n' ∧ ni_Used n ≡ ni_Used n'
  ∧ ni_Releasing n ≡ ni_Releasing n' ∧ ni_Pipelined n ≡ ni_Pipelined n'.

(** A node is as it was: the same name, [v1.Node], state, Allocatable and
    Capability, the four accounting vectors equal in every dimension, and
    under the same keys copies of the same status and the same request. *)
Definition node_restored (h h' : gmap positive TaskInfo) (n n' : NodeInfo) : Prop :=
  ni_Name n = ni_Name n' ∧ ni_Node n = ni_Node n' ∧ ni_State n = ni_State n'
  ∧ ni_Allocatable n = ni_Allocatable n' ∧ ni_Capability n = ni_Capability n'
  ∧ same_vectors n n'
  ∧ view h <$> ni_Tasks n = view h' <$> ni_Tasks n'.

(** A session with the node n1 that holds its copy (object 3) of the
    running task [b] (object 2), and the pending task [a] (object 1); a
    statement that allocates [a] to n1 and then evicts [b]. *)
Definition trip_world : World :=
  mkWorld []
    (mkSession "ssn"
       {[ "j1" := job_j1 (<["uA" := 1%positive]> {[ "uB" := 2%positive ]}) ]}
       {[ "n1" := sample_node_with_tB ]}
       [mkEventHandler (Some "drf") (Some "drf")] empty_cache)
    sample_heap [].

Definition trip_tasks : gset positive := {[ 1%positive; 2%positive ]}.

Definition trip_ops : list operation :=
  [mkOperation "allocate" 1%positive "n1"; mkOperation "evict" 2%positive "preempt"].

Definition trip_world1 : World := (@Allocate exact_env trip_world 1%positive "n1").2.

Definition trip_world2 : World :=
  match @Evict exact_env trip_world1 2%positive "preempt" with
  | Ret (_, w) => w
  | Fatal _ => trip_world1
  end.

(** ** Clones of a node *)

(** What the loop of [Clone] maintains, [h] being the store before the
    call, [fresh_node] the new node and [L] the tasks of the original: the
    new node keeps its identity and its accounts balanced, the objects of
    [h] are as they were but for a NodeName set to the name of the clone,
    and every task the clone holds is a new object, a copy of a task of the
    original. *)
Definition clone_invariant `{!Env} (h : gmap positive TaskInfo) (fresh_node : NodeInfo)
    (L : list positive) (acc : NodeInfo * gmap positive TaskInfo) : Prop :=
  ni_Name acc.1 = ni_Name fresh_node ∧ ni_Node acc.1 = ni_Node fresh_node
  ∧ ni_State acc.1 = ni_State fresh_node
  ∧ ni_Allocatable acc.1 = ni_Allocatable fresh_node
  ∧ ni_Capability acc.1 = ni_Capability fresh_node
  ∧ accounted acc.1
  ∧ dom h ⊆ dom acc.2
  ∧ (∀ p, p ∈ dom h →
       acc.2 !!! p = h !!! p
       ∨ acc.2 !!! p = set_NodeName (h !!! p) (ni_Name fresh_node))
  ∧ (∀ key c, ni_Tasks acc.1 !! key = Some c →
       (c ∉ dom h) ∧ c ∈ dom acc.2
       ∧ ∃ p, p ∈ L ∧ key = PodKey (ti_Pod (h !!! p))
              ∧ acc.2 !!! c = set_NodeName (h !!! p) (ni_Name fresh_node)).

(** ** Plugins: what a victim of the priority plugin is *)

(** [preemptee] has a lower priority than [preemptor], as the priority
    plugin compares them: by the priorities of their jobs when the jobs
    differ, by their own priorities when they are tasks of one job. *)
Definition lower_priority (ssn : Session) (h : gmap positive TaskInfo)
    (preemptor preemptee : ptr) : bool :=
  match ssn_Jobs ssn !! ti_Job (h !!! preemptor),
        ssn_Jobs ssn !! ti_Job (h !!! preemptee) with
  | Some preemptorJob, Some preempteeJob =>
      if bool_decide (ji_UID preempteeJob = ji_UID preemptorJob)
      then bool_decide (ti_Priority (h !!! preemptee) < ti_Priority (h !!! preemptor))%Z
      else bool_decide (ji_Priority preempteeJob < ji_Priority preemptorJob)%Z
  | _, _ => false
  end.

(** Two jobs of different priority and their tasks: [x] and [y] in the job
    jx (priority 5), [z] in the job jy (priority 1). *)
Definition prio_task (uid job : string) (priority : Z) : TaskInfo :=
  mkTaskInfo uid job uid "ns" (mkResource 100 100 ∅) "n1" Running priority false
    (mkPod "ns" uid uid).

Definition prio_heap : gmap positive TaskInfo :=
  <[1%positive := prio_task "x" "jx" 10]>
  (<[2%positive := prio_task "y" "jx" 3]>
  (<[3%positive := prio_task "z" "jy" 50]> ∅)).

Definition prio_job (uid : string) (priority : Z) (tasks : gmap string positive) : JobInfo :=
  mkJobInfo uid "job" "ns" "q1" priority 1 None None tasks.

Definition prio_session : Session :=
  mkSession "ssn"
    (<["jx" := prio_job "jx" 5 (<["x" := 1%positive]> {[ "y" := 2%positive ]})]>
       {[ "jy" := prio_job "jy" 1 {[ "z" := 3%positive ]} ]})
    ∅ [] empty_cache.

(** How many of [l] are tasks of the job [job]. *)
Definition candidates_of (h : gmap positive TaskInfo) (job : JobID) (l : list ptr) : Z :=
  Z.of_nat (length (filter (λ p, ti_Job (h !!! p) = job) l)).

(** What the loop of the gang plugin's [preemptableFn] has done after the
    candidates [seen]: from every job it has taken as many victims as it
    had candidates, up to the number of ready tasks above MinAvailable;
    the entry of the job in [jobOccupiedMap], once made, is the number of
    ready tasks less these victims. *)
Definition gang_progress (jobs : gmap string JobInfo) (h : gmap positive TaskInfo)
    (seen : list ptr) (acc : list ptr * gmap string Z) : Prop :=
  sublist acc.1 seen
  ∧ ∀ k job, jobs !! k = Some job →
      victims_of h k acc.1
      = Z.min (candidates_of h k seen)
              (Z.max 0 (ReadyTaskNum job h - ji_MinAvailable job))
      ∧ match acc.2 !! k with
        | None => candidates_of h k seen = 0%Z
        | Some v => v = (ReadyTaskNum job h - victims_of h k acc.1)%Z
        end.

(** ** Statements: callbacks *)

(** The callbacks that [fire_allocate] and [fire_deallocate] invoke for a
    task, in the order of the handlers. *)
Definition allocate_calls (ehs : list EventHandler) (task : ptr) : list Effect :=
  omap (λ eh, (λ f, CallAllocateFunc f task) <$> AllocateFunc eh) ehs.

Definition deallocate_calls (ehs : list EventHandler) (task : ptr) : list Effect :=
  omap (λ eh, (λ f, CallDeallocateFunc f task) <$> DeallocateFunc eh) ehs.

(** The callbacks that the round of [Discard] for the record [op] invokes:
    those of an allocation for an evict record, those of a deallocation for
    a pipeline or an allocate record. *)
Definition undo_calls (ehs : list EventHandler) (op : operation) : list Effect :=
  if bool_decide (op_name op = "evict") then allocate_calls ehs (op_task op)
  else if bool_decide (op_name op = "pipeline") then deallocate_calls ehs (op_task op)
  else if bool_decide (op_name op = "allocate") then deallocate_calls ehs (op_task op)
  else [].

(** ** The cache: a job whose PodGroup has a version the cache does not
    know *)

(** The cache holds the job j1, with a PodGroup of version "v9", whose
    task [b] (object 2) runs on the node n1; the node holds its copy
    (object 3). *)
Definition odd_cache : SchedulerCache :=
  mkSchedulerCache
    {[ "j1" := mkJobInfo "j1" "job" "ns" "q1" 0 1
                 (Some (mkPodGroup (PodGroupVersionOther "v9") "")) None
                 {[ "uB" := 2%positive ]} ]}
    {[ "n1" := sample_node_with_tB ]} ∅ ∅ 0 [] [] [].

(** The cache holds the job j1 with its tasks [a] (object 1, pending) and
    [b] (object 2, running on n1), and the node n1 with room for [a]. *)
Definition roomy_cache : SchedulerCache :=
  mkSchedulerCache
    {[ "j1" := job_j1 (<["uA" := 1%positive]> {[ "uB" := 2%positive ]}) ]}
    {[ "n1" := sample_node_with_tB ]} ∅ ∅ 0 [] [] [].

(** ** Commit: every record is attempted *)

(** The record [op] was attempted in the calls [tr]: the cache was asked to
    evict the task of an evict record, and the volumes of the task of an
    allocate record were sent to be bound. *)
Definition attempted (op : operation) (tr : list Effect) : Prop :=
  (op_name op = "evict" → CallEvict (op_task op) (op_arg op) ∈ tr)
  ∧ (op_name op = "allocate" → CallBindVolumes (op_task op) ∈ tr).

(** ** Commit: the journal in order *)

(** The calls [es] are those of the round of [Commit] for the record [op],
    with the handlers [ehs]: for an evict record the cache's [Evict], then,
    when the cache returned an error, the callbacks of [unevict]; for a
    pipeline record nothing; for an allocate record [BindVolumes], then,
    when the volumes were bound, [Bind]. *)
Definition commit_round (ehs : list EventHandler) (op : operation)
    (es : list Effect) : Prop :=
  if bool_decide (op_name op = "evict") then
    es = [CallEvict (op_task op) (op_arg op)]
    ∨ es = CallEvict (op_task op) (op_arg op) :: allocate_calls ehs (op_task op)
  else if bool_decide (op_name op = "pipeline") then es = []
  else if bool_decide (op_name op = "allocate") then
    es = [CallBindVolumes (op_task op)]
    ∨ ∃ host, es = [CallBindVolumes (op_task op); CallBind (op_task op) host]
  else es = [].

(** The call into the cache that opens the round of a record: [Evict] for
    an evict record, [BindVolumes] for an allocate record; a pipeline record
    has none. *)
Definition cache_request (op : operation) : option Effect :=
  if bool_decide (op_name op = "evict") then
    Some (CallEvict (op_task op) (op_arg op))
  else if bool_decide (op_name op = "allocate") then
    Some (CallBindVolumes (op_task op))
  else None.

(** The calls that open a round. *)
Definition is_cache_request (e : Effect) : bool :=
  match e with
  | CallEvict _ _ | CallBindVolumes _ => true
  | _ => false
  end.

Section commit_spec.
Context `{!Env}.

(** [Commit] in the words of the specification: the records are taken in
    insertion order; a pipeline record has no side effect, an evict record
    is handed to [evict], an allocate record to [allocate]; an error of a
    record is logged and does not stop the loop. *)
Fixpoint commit_in_order (ops : list operation) (w : World) : outcome World :=
  match ops with
  | [] => Ret w
  | op :: rest =>
      if bool_decide (op_name op = "pipeline") then commit_in_order rest w
      else if bool_decide (op_name op = "evict") then
        match evict w (op_task op) (op_arg op) with
        | Fatal msg => Fatal msg
        | Ret (_, w1) => commit_in_order rest w1
        end
      else if bool_decide (op_name op = "allocate") then
        commit_in_order rest (allocate w (op_task op) (op_arg op)).2
      else commit_in_order rest w
  end.

End commit_spec.

(** ** Snapshot: what it writes, and what it shares *)

(** The job as the cache holds it after a [Snapshot] with the queues
    [queues]: a job that was taken into the snapshot has the priority of
    the snapshot, any other job is as it was. *)
Definition job_after_snapshot (queues : gmap string QueueInfo)
    (classes : gmap string PriorityClass) (dflt : Z) (j : JobInfo) : JobInfo :=
  if taken queues j then prioritized classes dflt j else j.

(** What the loop of [Clone] maintains whatever the tasks are: balanced
    accounts, a store that has only grown, and tasks that are objects made
    since. *)
Definition clone_is_fresh (h : gmap positive TaskInfo)
    (acc : NodeInfo * gmap positive TaskInfo) : Prop :=
  accounted acc.1 ∧ dom h ⊆ dom acc.2
  ∧ ∀ key c, ni_Tasks acc.1 !! key = Some c → c ∉ dom h.

(** And what the loop of [Snapshot] over the nodes maintains. *)
Definition snapshot_nodes_fresh (h : gmap positive TaskInfo)
    (acc : gmap string NodeInfo * gmap positive TaskInfo) : Prop :=
  dom h ⊆ dom acc.2
  ∧ ∀ name n, acc.1 !! name = Some n →
      accounted n ∧ ∀ key c, ni_Tasks n !! key = Some c → c ∉ dom h.
(** * Properties *)

(** ** Resource arithmetic *)

Arguments scalar : simpl never.

Lemma scalar_Add (a b : Resource) (n : string) :
  scalar (Add a b) n = (scalar a n + scalar b n)%Z.
Proof.
  unfold scalar, Add; simpl. rewrite lookup_merge.
  destruct (ScalarResources a !! n), (ScalarResources b !! n); simpl; lia.
Qed.

Lemma scalar_Sub (a b : Resource) (n : string) :
  scalar (Sub a b) n = (scalar a n - scalar b n)%Z.
Proof.
  unfold scalar, Sub; simpl. rewrite lookup_merge.
  destruct (ScalarResources a !! n), (ScalarResources b !! n); simpl; lia.
Qed.

Lemma scalar_Empty (n : string) : scalar EmptyResource n = 0%Z.
Proof. unfold scalar; simpl. by rewrite lookup_empty. Qed.

Create Rewrite HintDb scalar.
#[global] Hint Rewrite scalar_Add scalar_Sub scalar_Empty : scalar.

Lemma Clone_eq (r : Resource) : Clone r = r.
Proof. by destruct r. Qed.

#[global] Instance Resource_equivalence : Equivalence (≡@{Resource}).
Proof.
  split.
  - by intros a.
  - intros a b (?&?&?). by repeat split.
  - intros a b c (?&?&Hab) (?&?&Hbc).
    split; [congruence | split; [congruence | ]].
    intros n. by rewrite Hab.
Qed.

(** Equations between vectors are settled dimension by dimension. *)
Ltac res_hyps :=
  repeat match goal with
         | H : @equiv Resource _ _ _ |- _ => destruct H as (? & ? & ?)
         end.

Ltac res_solve :=
  intros; res_hyps; simpl in *;
  split; [ simpl; lia | split; [ simpl; lia | ] ];
  let n := fresh "n" in
  intros n;
  repeat match goal with
         | H : ∀ _ : string, scalar _ _ = scalar _ _ |- _ => specialize (H n)
         end;
  autorewrite with scalar in *; lia.

#[global] Instance Add_proper : Proper ((≡) ==> (≡) ==> (≡)) Add.
Proof. intros a a' Ha b b' Hb. res_solve. Qed.

#[global] Instance Sub_proper : Proper ((≡) ==> (≡) ==> (≡)) Sub.
Proof. intros a a' Ha b b' Hb. res_solve. Qed.

Lemma Sub_Add_cancel (a b : Resource) : Sub (Add a b) b ≡ a.
Proof. res_solve. Qed.

Lemma Add_Sub_cancel (a b : Resource) : Add (Sub a b) b ≡ a.
Proof. res_solve. Qed.

(** ** FutureIdle *)

Lemma FutureIdle_dimensions (ni : NodeInfo) :
  MilliCPU (FutureIdle ni)
    = (MilliCPU (ni_Idle ni) + MilliCPU (ni_Releasing ni) - MilliCPU (ni_Pipelined ni))%Z
  ∧ Memory (FutureIdle ni)
    = (Memory (ni_Idle ni) + Memory (ni_Releasing ni) - Memory (ni_Pipelined ni))%Z
  ∧ ∀ n, scalar (FutureIdle ni) n
         = (scalar (ni_Idle ni) n + scalar (ni_Releasing ni) n
            - scalar (ni_Pipelined ni) n)%Z.
Proof.
  unfold FutureIdle. rewrite Clone_eq. repeat split.
  intros n. by rewrite scalar_Sub, scalar_Add.
Qed.

(** C7. [FutureIdle] returns a new vector that is Idle + Releasing −
    Pipelined in every dimension (CPU, memory, each scalar, an absent scalar
    counting as zero), and no object that existed before the call is
    written: the node's Idle, Releasing and Pipelined (and its other
    vectors) are as they were, the arithmetic having been done on a clone of
    Idle. *)
Theorem FutureIdle_returns_fresh_sum (nv : NodeVectors) (m : gmap positive Resource)
    (ni : NodeInfo) :
  vectors_at nv m ni →
  ∃ c m',
    FutureIdle_at nv m = (c, m')
    ∧ (c ∉ dom m)
    ∧ m' !! c = Some (FutureIdle ni)
    ∧ MilliCPU (FutureIdle ni)
        = (MilliCPU (ni_Idle ni) + MilliCPU (ni_Releasing ni)
           - MilliCPU (ni_Pipelined ni))%Z
    ∧ Memory (FutureIdle ni)
        = (Memory (ni_Idle ni) + Memory (ni_Releasing ni)
           - Memory (ni_Pipelined ni))%Z
    ∧ (∀ n, scalar (FutureIdle ni) n
            = (scalar (ni_Idle ni) n + scalar (ni_Releasing ni) n
               - scalar (ni_Pipelined ni) n)%Z)
    ∧ (∀ l, l ∈ dom m → m' !! l = m !! l)
    ∧ vectors_at nv m' ni.
Proof.
  intros (HR & HP & HI & HU & HA & HC).
  set (c := fresh (dom m)).
  assert (Hc : c ∉ dom m) by apply is_fresh.
  assert (Hne : ∀ l x, m !! l = Some x → l ≠ c).
  { intros l x Hl ->. apply Hc, elem_of_dom. eauto. }
  assert (Hval : FutureIdle_at nv m = (c, <[c := FutureIdle ni]> m)).
  { unfold FutureIdle_at, Clone_at, Add_at, Sub_at, FutureIdle. fold c.
    rewrite !lookup_total_insert_eq.
    rewrite !(lookup_total_insert_ne _ c) by (symmetry; eauto using Hne).
    rewrite !insert_insert_eq.
    by rewrite (lookup_total_correct _ _ _ HI), (lookup_total_correct _ _ _ HR),
      (lookup_total_correct _ _ _ HP). }
  destruct (FutureIdle_dimensions ni) as (Dc & Dm & Ds).
  exists c, (<[c := FutureIdle ni]> m).
  split; [done|]. split; [done|]. split; [apply lookup_insert_eq|].
  split; [done|]. split; [done|]. split; [done|].
  assert (Hframe : ∀ l, l ∈ dom m → <[c := FutureIdle ni]> m !! l = m !! l).
  { intros l Hl. apply lookup_insert_ne. intros ->. done. }
  split; [done|].
  assert (Hkeep : ∀ l x, m !! l = Some x → <[c := FutureIdle ni]> m !! l = Some x).
  { intros l x Hl. rewrite lookup_insert_ne; [done|].
    intros E. by apply (Hne l x). }
  repeat split; by apply Hkeep.
Qed.

Lemma FutureIdle_returns_fresh_sum_witness :
  vectors_at sample_vectors sample_rstore sample_node_info
  ∧ ∃ c m',
      FutureIdle_at sample_vectors sample_rstore = (c, m')
      ∧ (c ∉ dom sample_rstore)
      ∧ m' !! c = Some (FutureIdle sample_node_info)
      ∧ vectors_at sample_vectors m' sample_node_info.
Proof.
  assert (H : vectors_at sample_vectors sample_rstore sample_node_info)
    by (repeat split; reflexivity).
  split; [exact H|].
  destruct (FutureIdle_returns_fresh_sum _ _ _ H)
    as (c & m' & E & Hc & Hv & _ & _ & _ & _ & Hat).
  by exists c, m'.
Defined.

(** ** NodeInfo: what AddTask and RemoveTask compute *)

Section node_facts.
Context `{!Env}.

Lemma TaskInfo_Clone_eq (t : TaskInfo) : TaskInfo_Clone t = t.
Proof. destruct t. unfold TaskInfo_Clone; simpl. by rewrite Clone_eq. Qed.

Lemma AddTask_unfold (ni : NodeInfo) (task : ptr) (h : gmap positive TaskInfo) :
  AddTask ni task h =
    let t := h !!! task in
    let key := PodKey (ti_Pod t) in
    if on_other_node ni t
    then (Some (mkError "task already on different node"), ni, h)
    else match ni_Tasks ni !! key with
         | Some _ => (Some (mkError "task already on node"), ni, h)
         | None =>
             if fits ni (ti_Status t) (ti_Resreq t)
             then let h1 := <[task := set_NodeName t (ni_Name ni)]> h in
                  let c := fresh (dom h1) in
                  (None,
                   set_Tasks (entered ni (ti_Status t) (ti_Resreq t))
                     (<[key := c]> (ni_Tasks ni)),
                   <[c := set_NodeName t (ni_Name ni)]> h1)
             else (Some (mkError "Selected node NotReady"), ni, h)
         end.
Proof.
  unfold AddTask, on_other_node, fits, entered, allocateIdleResource, alloc.
  cbv zeta. rewrite !TaskInfo_Clone_eq.
  destruct (_ && _ && _); [done|].
  destruct (ni_Tasks ni !! _); [done|].
  destruct (ni_Node ni); [|done].
  unfold is_Pipelined.
  destruct (ti_Status (h !!! task)); simpl;
    try destruct (LessEqual _ _); reflexivity.
Qed.

Lemma RemoveTask_unfold (ni : NodeInfo) (ti : ptr) (h : gmap positive TaskInfo) :
  RemoveTask ni ti h =
    let key := PodKey (ti_Pod (h !!! ti)) in
    match ni_Tasks ni !! key with
    | None => (Some (mkError "failed to find task on host"), ni)
    | Some c =>
        (None,
         set_Tasks (left ni (ti_Status (h !!! c)) (ti_Resreq (h !!! c)))
           (delete key (ni_Tasks ni)))
    end.
Proof.
  unfold RemoveTask, left. cbv zeta.
  destruct (ni_Tasks ni !! _); [|done].
  destruct (ni_Node ni); [|done].
  by destruct (ti_Status _).
Qed.

Lemma charge_accounted (ni : NodeInfo) (s : TaskStatus) (r : Resource) :
  accounted ni → accounted (charge ni s r).
Proof. unfold accounted. intros Hacc. destruct s; simpl; res_solve. Qed.

Lemma discharge_accounted (ni : NodeInfo) (s : TaskStatus) (r : Resource) :
  accounted ni → accounted (discharge ni s r).
Proof. unfold accounted. intros Hacc. destruct s; simpl; res_solve. Qed.

Lemma entered_accounted (ni : NodeInfo) (s : TaskStatus) (r : Resource) :
  accounted ni → accounted (entered ni s r).
Proof. unfold entered. destruct (ni_Node ni); auto using charge_accounted. Qed.

Lemma left_accounted (ni : NodeInfo) (s : TaskStatus) (r : Resource) :
  accounted ni → accounted (left ni s r).
Proof. unfold left. destruct (ni_Node ni); auto using discharge_accounted. Qed.

(** The loop of [SetNode] charges the tasks one after the other. *)
Lemma SetNode_account_charge (h : gmap positive TaskInfo) (ni : NodeInfo) (c : ptr) :
  SetNode_account h ni c = charge ni (ti_Status (h !!! c)) (ti_Resreq (h !!! c)).
Proof. unfold SetNode_account, charge. by destruct (ti_Status _). Qed.

Lemma charge_fields (ni : NodeInfo) (s : TaskStatus) (r : Resource) :
  ni_Name (charge ni s r) = ni_Name ni
  ∧ ni_Node (charge ni s r) = ni_Node ni
  ∧ ni_State (charge ni s r) = ni_State ni
  ∧ ni_Allocatable (charge ni s r) = ni_Allocatable ni
  ∧ ni_Capability (charge ni s r) = ni_Capability ni
  ∧ ni_Tasks (charge ni s r) = ni_Tasks ni.
Proof. by destruct s. Qed.

Lemma SetNode_loop_fields (h : gmap positive TaskInfo) (l : list ptr) (ni : NodeInfo) :
  let ni' := foldl (SetNode_account h) ni l in
  ni_Name ni' = ni_Name ni
  ∧ ni_Node ni' = ni_Node ni
  ∧ ni_State ni' = ni_State ni
  ∧ ni_Allocatable ni' = ni_Allocatable ni
  ∧ ni_Capability ni' = ni_Capability ni
  ∧ ni_Tasks ni' = ni_Tasks ni.
Proof.
  revert ni. induction l as [|c l IH]; intros ni; simpl; [done|].
  destruct (IH (SetNode_account h ni c)) as (?&?&?&?&?&?).
  rewrite SetNode_account_charge in *.
  destruct (charge_fields ni (ti_Status (h !!! c)) (ti_Resreq (h !!! c)))
    as (?&?&?&?&?&?).
  repeat split; congruence.
Qed.

Lemma SetNode_loop_vectors (h : gmap positive TaskInfo) (l : list ptr) (ni : NodeInfo) :
  let ni' := foldl (SetNode_account h) ni l in
  ni_Idle ni' ≡ Sub (ni_Idle ni) (sum_resreq h uses_idle l)
  ∧ ni_Used ni' ≡ Add (ni_Used ni) (sum_resreq h uses_idle l)
  ∧ ni_Releasing ni' ≡ Add (ni_Releasing ni) (sum_resreq h is_Releasing l)
  ∧ ni_Pipelined ni' ≡ Add (ni_Pipelined ni) (sum_resreq h is_Pipelined l).
Proof.
  revert ni. induction l as [|c l IH]; intros ni; simpl.
  - split; [|split; [|split]]; res_solve.
  - destruct (IH (SetNode_account h ni c)) as (HI & HU & HR & HP).
    rewrite SetNode_account_charge in *.
    unfold uses_idle, is_Pipelined, is_Releasing in *.
    destruct (ti_Status (h !!! c)); simpl in *;
      (split; [|split; [|split]]); res_solve.
Qed.

Lemma SetNode_loop_accounted (h : gmap positive TaskInfo) (l : list ptr) (ni : NodeInfo) :
  accounted ni → accounted (foldl (SetNode_account h) ni l).
Proof.
  revert ni. induction l as [|c l IH]; intros ni Hacc; simpl; [done|].
  apply IH. rewrite SetNode_account_charge. by apply charge_accounted.
Qed.

End node_facts.

(** ** The accounting invariant (C2), the stored copy (C9), SetNode (C10) *)

Section node_claims.
Context `{!Env}.

(** C2. On a node with a [v1.Node] whose vectors satisfy Idle + Used =
    Allocatable, every successful [AddTask], every successful [RemoveTask]
    and every [SetNode] that leaves the node Ready keep Idle + Used =
    Allocatable.  In [AddTask], a Pipelined task changes neither Idle nor
    Used (only Pipelined grows); a Releasing task moves its request from
    Idle to Used like any other task and is added to Releasing as well. *)
Theorem accounting_preserved (ni : NodeInfo) (h : gmap positive TaskInfo) :
  is_Some (ni_Node ni) →
  accounted ni →
  (∀ task ni' h',
     AddTask ni task h = (None, ni', h') →
     let s := ti_Status (h !!! task) in
     let r := ti_Resreq (h !!! task) in
     accounted ni'
     ∧ (s = Pipelined →
        ni_Idle ni' = ni_Idle ni ∧ ni_Used ni' = ni_Used ni
        ∧ ni_Releasing ni' = ni_Releasing ni
        ∧ ni_Pipelined ni' = Add (ni_Pipelined ni) r)
     ∧ (s = Releasing →
        ni_Idle ni' = Sub (ni_Idle ni) r ∧ ni_Used ni' = Add (ni_Used ni) r
        ∧ ni_Releasing ni' = Add (ni_Releasing ni) r
        ∧ ni_Pipelined ni' = ni_Pipelined ni)
     ∧ (s ≠ Pipelined → s ≠ Releasing →
        ni_Idle ni' = Sub (ni_Idle ni) r ∧ ni_Used ni' = Add (ni_Used ni) r
        ∧ ni_Releasing ni' = ni_Releasing ni
        ∧ ni_Pipelined ni' = ni_Pipelined ni))
  ∧ (∀ ti ni', RemoveTask ni ti h = (None, ni') → accounted ni')
  ∧ (∀ node, NodeInfo_Ready (SetNode ni node h) = true →
             accounted (SetNode ni node h)).
Proof.
  intros [n Hn] Hacc. split; [|split].
  - intros task ni' h'. rewrite AddTask_unfold. cbv zeta.
    destruct (on_other_node _ _); [done|].
    destruct (ni_Tasks ni !! _); [done|].
    destruct (fits _ _ _); [|done].
    intros [= <- _]. unfold entered. rewrite Hn.
    split; [by apply (charge_accounted ni)|].
    destruct (ti_Status (h !!! task)); repeat split; simpl; congruence.
  - intros ti ni'. rewrite RemoveTask_unfold. cbv zeta.
    destruct (ni_Tasks ni !! _); [|done].
    intros [= <-]. by apply (left_accounted ni).
  - intros node. unfold SetNode, setNodeState.
    destruct node as [nd|]; [|done].
    destruct (LessEqual _ _); simpl; [|done].
    intros _. apply SetNode_loop_accounted.
    unfold accounted; simpl. res_solve.
Qed.

(** C9. A successful [AddTask] enters into [ni.Tasks], under the key of the
    task, a new object that is a copy of the caller's task; the [NodeName]
    of both the caller's task and the copy is the name of the node.  The
    copy is another object than the caller's: whatever is later written to
    the caller's task, the copy is as it was, and what [RemoveTask] takes
    from the node's vectors does not depend on the status the caller's task
    has by then. *)
Theorem AddTask_stores_a_copy (ni ni' : NodeInfo) (task : ptr)
    (h h' : gmap positive TaskInfo) :
  AddTask ni task h = (None, ni', h') →
  ∃ c,
    ni_Tasks ni' !! PodKey (ti_Pod (h !!! task)) = Some c
    ∧ c ≠ task
    ∧ (c ∉ dom h)
    ∧ h' !!! c = set_NodeName (TaskInfo_Clone (h !!! task)) (ni_Name ni)
    ∧ h' !!! task = set_NodeName (h !!! task) (ni_Name ni)
    ∧ ti_NodeName (h' !!! c) = ni_Name ni'
    ∧ ti_NodeName (h' !!! task) = ni_Name ni'
    ∧ (∀ p, p ≠ c → p ≠ task → h' !! p = h !! p)
    ∧ (∀ t', <[task := t']> h' !!! c = h' !!! c)
    ∧ (∀ s, RemoveTask ni' task (<[task := set_Status (h' !!! task) s]> h')
            = RemoveTask ni' task h').
Proof.
  rewrite AddTask_unfold. cbv zeta.
  destruct (on_other_node _ _); [done|].
  destruct (ni_Tasks ni !! _) eqn:Hkey; [done|].
  destruct (fits _ _ _); [|done].
  set (t := h !!! task).
  set (h1 := <[task := set_NodeName t (ni_Name ni)]> h).
  set (c := fresh (dom h1)).
  intros [= <- <-].
  assert (Hc : c ∉ dom h1) by apply is_fresh.
  assert (Hct : c ≠ task).
  { intros E. apply Hc. rewrite E. unfold h1. rewrite dom_insert. set_solver. }
  assert (Hch : c ∉ dom h).
  { intros E. apply Hc. unfold h1. rewrite dom_insert. set_solver. }
  assert (Hname : ni_Name (entered ni (ti_Status t) (ti_Resreq t)) = ni_Name ni).
  { unfold entered. destruct (ni_Node ni); [|done]. apply charge_fields. }
  set (h' := <[c := set_NodeName t (ni_Name ni)]> h1).
  assert (Hgc : h' !!! c = set_NodeName t (ni_Name ni))
    by apply lookup_total_insert_eq.
  assert (Hgt : h' !!! task = set_NodeName t (ni_Name ni)).
  { unfold h'. rewrite lookup_total_insert_ne by done.
    apply lookup_total_insert_eq. }
  exists c. simpl. rewrite Hgc, Hgt, TaskInfo_Clone_eq, Hname, lookup_insert_eq.
  repeat split; try done.
  - intros p Hpc Hpt. unfold h', h1. rewrite !lookup_insert_ne; done.
  - intros t'. rewrite lookup_total_insert_ne by (by intros E). done.
  - intros s. rewrite !RemoveTask_unfold. cbv zeta.
    rewrite lookup_total_insert_eq, Hgt. simpl.
    rewrite lookup_insert_eq.
    by rewrite lookup_total_insert_ne by (by intros E).
Qed.

(** C10. [SetNode] first recomputes the state.  With a nil node the state
    is NotReady/"UnInitialized", with Used not LessEqual the new Allocatable
    it is NotReady/"OutOfSync", and in both cases nothing else of the node is
    changed: Name, Node, the six vectors and the tasks are as before.
    Otherwise the state is Ready, Name, Node, Allocatable and Capability are
    those of the new node, and Idle, Used, Releasing and Pipelined are
    rebuilt from the tasks by status: Used is the sum of the requests of the
    tasks that are not Pipelined, Idle is Allocatable less that sum,
    Releasing the sum over Releasing tasks, Pipelined the sum over Pipelined
    tasks. *)
Theorem SetNode_cases (ni : NodeInfo) (node : option Node)
    (h : gmap positive TaskInfo) :
  let ni' := SetNode ni node h in
  match node with
  | None =>
      ni_State ni' = mkNodeState NotReady "UnInitialized" ∧ same_but_State ni ni'
  | Some n =>
      if LessEqual (ni_Used ni) (node_Allocatable n)
      then ni_State ni' = mkNodeState Ready ""
           ∧ ni_Name ni' = node_Name n
           ∧ ni_Node ni' = Some n
           ∧ ni_Allocatable ni' = node_Allocatable n
           ∧ ni_Capability ni' = node_Capacity n
           ∧ ni_Tasks ni' = ni_Tasks ni
           ∧ ni_Idle ni' ≡ Sub (node_Allocatable n)
                               (sum_resreq h uses_idle (tasks_of ni))
           ∧ ni_Used ni' ≡ sum_resreq h uses_idle (tasks_of ni)
           ∧ ni_Releasing ni' ≡ sum_resreq h is_Releasing (tasks_of ni)
           ∧ ni_Pipelined ni' ≡ sum_resreq h is_Pipelined (tasks_of ni)
      else ni_State ni' = mkNodeState NotReady "OutOfSync" ∧ same_but_State ni ni'
  end.
Proof.
  unfold SetNode, setNodeState. destruct node as [n|]; simpl.
  - destruct (LessEqual _ _); simpl.
    + match goal with
      | |- context [foldl (SetNode_account h) ?b ?l] =>
          destruct (SetNode_loop_fields h l b) as (?&?&?&?&?&?);
          destruct (SetNode_loop_vectors h l b) as (HI & HU & HR & HP)
      end.
      simpl in *. unfold tasks_of in *; simpl in *.
      split_and!; try done; res_solve.
    + by repeat split.
  - by repeat split.
Qed.

End node_claims.

Lemma sample_node_accounted : accounted sample_node_info.
Proof.
  split; [reflexivity|split; [reflexivity|]].
  intros n. rewrite scalar_Add. unfold scalar; simpl.
  destruct (decide (n = "gpu")) as [->|Hn]; [reflexivity|].
  by rewrite lookup_singleton_ne, lookup_empty.
Qed.

Lemma accounting_preserved_witness :
  is_Some (ni_Node sample_node_info)
  ∧ accounted sample_node_info
  ∧ (@AddTask exact_env sample_node_info 1%positive sample_heap).1.1 = None
  ∧ accounted (@AddTask exact_env sample_node_info 1%positive sample_heap).1.2.
Proof.
  assert (Hn : is_Some (ni_Node sample_node_info)) by (by eexists).
  split; [exact Hn|]. split; [exact sample_node_accounted|].
  split; [by vm_compute|].
  destruct (@accounting_preserved exact_env sample_node_info sample_heap
              Hn sample_node_accounted) as (HA & _ & _).
  refine (proj1 (HA 1%positive _
                   (@AddTask exact_env sample_node_info 1%positive sample_heap).2 _)).
  by vm_compute.
Defined.

Lemma AddTask_stores_a_copy_witness :
  ∃ ni' h',
    @AddTask exact_env sample_node_info 1%positive sample_heap = (None, ni', h')
    ∧ ∃ c, ni_Tasks ni' !! "ns/a" = Some c ∧ c ≠ 1%positive
           ∧ ti_NodeName (h' !!! c) = "n1"
           ∧ ti_NodeName (h' !!! 1%positive) = "n1".
Proof.
  set (r := @AddTask exact_env sample_node_info 1%positive sample_heap).
  assert (E : r = (None, r.1.2, r.2)) by (by vm_compute).
  exists r.1.2, r.2. split; [exact E|].
  destruct (@AddTask_stores_a_copy exact_env _ _ _ _ _ E)
    as (c & Hk & Hne & _ & _ & _ & Hn1 & Hn2 & _).
  exists c. split; [exact Hk|]. split; [exact Hne|].
  split; [by rewrite Hn1|by rewrite Hn2].
Defined.

(** ** The gang plugin's victims (C3) *)

Section gang_facts.

Lemma victims_of_app (h : gmap positive TaskInfo) (k : string) (l : list ptr) (p : ptr) :
  victims_of h k (l ++ [p])
  = (victims_of h k l + if decide (ti_Job (h !!! p) = k) then 1 else 0)%Z.
Proof.
  unfold victims_of. rewrite filter_app, length_app.
  rewrite filter_cons, filter_nil.
  destruct (decide _); simpl; lia.
Qed.

Lemma preemptable_step_invariant (ssn : Session) (h : gmap positive TaskInfo)
    (acc : list ptr * gmap string Z) (p : ptr) :
  jobs_by_UID (ssn_Jobs ssn) →
  is_Some (ssn_Jobs ssn !! ti_Job (h !!! p)) →
  gang_invariant (ssn_Jobs ssn) h acc →
  ∃ acc', preemptable_step ssn h acc p = Ret acc'
          ∧ gang_invariant (ssn_Jobs ssn) h acc'.
Proof.
  intros Hwf [job Hjob] Hinv. destruct acc as [victims m].
  unfold preemptable_step. rewrite Hjob.
  pose proof (Hwf _ _ Hjob) as Huid. rewrite Huid.
  set (k0 := ti_Job (h !!! p)) in *.
  set (m1 := match m !! k0 with
             | Some _ => m
             | None => <[k0 := ReadyTaskNum job h]> m
             end).
  assert (Hinv1 : gang_invariant (ssn_Jobs ssn) h (victims, m1)).
  { intros k j Hj. specialize (Hinv k j Hj). simpl in *. unfold m1.
    destruct (m !! k0) eqn:Hk0; [done|].
    destruct (decide (k = k0)) as [->|Hne].
    - rewrite Hk0 in Hinv. rewrite lookup_insert_eq.
      assert (j = job) as -> by congruence.
      split; [lia|by left].
    - by rewrite lookup_insert_ne. }
  assert (Hm1 : is_Some (m1 !! k0)).
  { unfold m1. destruct (m !! k0) eqn:Hk0; [by rewrite Hk0|].
    rewrite lookup_insert_eq. by eexists. }
  destruct Hm1 as [v Hv]. rewrite Hv. simpl.
  case_bool_decide as Hgt; eexists; (split; [reflexivity|]); [|done].
  intros k j Hj. specialize (Hinv1 k j Hj). simpl in *.
  rewrite victims_of_app. fold k0.
  destruct (decide (k = k0)) as [->|Hne].
  - rewrite lookup_insert_eq. rewrite Hv in Hinv1.
    assert (j = job) as -> by congruence.
    rewrite decide_True by done. destruct Hinv1 as [-> _].
    split; [lia|right; lia].
  - rewrite lookup_insert_ne by done.
    rewrite decide_False by done.
    destruct (m1 !! k); [|lia].
    destruct Hinv1 as [-> Hor]. split; [lia|].
    destruct Hor; [left|right]; lia.
Qed.

Lemma preemptable_loop_invariant (ssn : Session) (h : gmap positive TaskInfo)
    (preemptees : list ptr) (acc : list ptr * gmap string Z) :
  jobs_by_UID (ssn_Jobs ssn) →
  (∀ p, p ∈ preemptees → is_Some (ssn_Jobs ssn !! ti_Job (h !!! p))) →
  gang_invariant (ssn_Jobs ssn) h acc →
  ∃ acc', preemptable_loop ssn h acc preemptees = Ret acc'
          ∧ gang_invariant (ssn_Jobs ssn) h acc'.
Proof.
  intros Hwf. revert acc.
  induction preemptees as [|p rest IH]; intros acc Hall Hinv; simpl.
  - by exists acc.
  - destruct (preemptable_step_invariant ssn h acc p Hwf) as (acc1 & -> & Hinv1);
      [apply Hall; by left|done|].
    apply IH; [|done]. intros q Hq. apply Hall. by right.
Qed.

(** C3, as the code has it.  When every candidate's job is in the session
    (jobs being indexed by UID), [preemptableFn] returns a list of victims
    such that for each job of the session either none of its tasks is a
    victim, or its ReadyTaskNum less the number of its tasks among the
    victims is at least its MinAvailable: no job is pushed below
    MinAvailable by the victims, and a job that is below it already loses
    no task. *)
Theorem gang_victims_keep_MinAvailable (ssn : Session) (h : gmap positive TaskInfo)
    (preemptor : ptr) (preemptees : list ptr) :
  jobs_by_UID (ssn_Jobs ssn) →
  (∀ p, p ∈ preemptees → is_Some (ssn_Jobs ssn !! ti_Job (h !!! p))) →
  ∃ victims,
    preemptableFn ssn h preemptor preemptees = Ret victims
    ∧ ∀ k job, ssn_Jobs ssn !! k = Some job →
        victims_of h k victims = 0%Z
        ∨ (ji_MinAvailable job ≤ ReadyTaskNum job h - victims_of h k victims)%Z.
Proof.
  intros Hwf Hall.
  destruct (preemptable_loop_invariant ssn h preemptees ([], ∅) Hwf Hall)
    as ([victims m] & Hloop & Hinv).
  { intros k j Hj. simpl. by rewrite lookup_empty. }
  exists victims. unfold preemptableFn. rewrite Hloop. split; [done|].
  intros k j Hj. specialize (Hinv k j Hj). simpl in Hinv.
  destruct (m !! k); [|by left].
  destruct Hinv as [-> Hor]. destruct Hor; [by left|by right].
Qed.

End gang_facts.

Lemma gang_session_by_UID (n : Z) : jobs_by_UID (ssn_Jobs (gang_session n)).
Proof.
  intros k j. simpl. intros [<- <-]%lookup_singleton_Some. done.
Qed.

Lemma gang_candidates_known (n : Z) (p : positive) :
  p ∈ [2%positive; 4%positive] →
  is_Some (ssn_Jobs (gang_session n) !! ti_Job (gang_heap !!! p)).
Proof.
  intros Hp. apply list_elem_of_In in Hp. simpl in Hp.
  destruct Hp as [<-|[<-|[]]]; by eexists.
Qed.

Lemma gang_victims_keep_MinAvailable_witness :
  jobs_by_UID (ssn_Jobs (gang_session 1))
  ∧ ∃ victims,
      preemptableFn (gang_session 1) gang_heap 1%positive
        [2%positive; 4%positive] = Ret victims
      ∧ (victims_of gang_heap "j1" victims = 0%Z
         ∨ (1 ≤ ReadyTaskNum (gang_job 1) gang_heap
                - victims_of gang_heap "j1" victims)%Z).
Proof.
  split; [apply gang_session_by_UID|].
  destruct (gang_victims_keep_MinAvailable (gang_session 1) gang_heap
              1%positive [2%positive; 4%positive]
              (gang_session_by_UID 1) (gang_candidates_known 1))
    as (victims & Hv & Hb).
  exists victims. split; [exact Hv|].
  apply (Hb "j1" (gang_job 1)). reflexivity.
Defined.

(** The claim as first stated fails for a job that is below MinAvailable
    already: with MinAvailable 3 and two ready tasks, both offered as
    candidates, no victim is returned, and ReadyTaskNum less the victims is
    2, not at least 3. *)
Lemma gang_job_below_MinAvailable_counterexample :
  preemptableFn (gang_session 3) gang_heap 1%positive
    [2%positive; 4%positive] = Ret []
  ∧ ssn_Jobs (gang_session 3) !! ti_Job (gang_heap !!! 2%positive)
    = Some (gang_job 3)
  ∧ ¬ (ji_MinAvailable (gang_job 3)
       ≤ ReadyTaskNum (gang_job 3) gang_heap - victims_of gang_heap "j1" [])%Z.
Proof. split; [by vm_compute|]. split; [by vm_compute|]. by vm_compute. Qed.

Example gang_takes_one_victim :
  preemptableFn (gang_session 1) gang_heap 1%positive
    [2%positive; 4%positive] = Ret [2%positive].
Proof. by vm_compute. Qed.

(** ** Statements: running a journal *)

Section statement_facts.
Context `{!Env}.

Lemma run_ops_app (step : World → operation → outcome World)
    (ops1 ops2 : list operation) (w : World) :
  run_ops step (ops1 ++ ops2) w =
    match run_ops step ops1 w with
    | Fatal msg => Fatal msg
    | Ret w' => run_ops step ops2 w'
    end.
Proof.
  revert w. induction ops1 as [|op ops1 IH]; intros w; simpl; [done|].
  destruct (step w op); [apply IH|done].
Qed.

Lemma fire_deallocate_fields (w : World) (p : ptr) :
  operations (fire_deallocate w p) = operations w
  ∧ ssn (fire_deallocate w p) = ssn w
  ∧ heap (fire_deallocate w p) = heap w.
Proof. done. Qed.

Lemma fire_allocate_fields (w : World) (p : ptr) :
  operations (fire_allocate w p) = operations w
  ∧ ssn (fire_allocate w p) = ssn w
  ∧ heap (fire_allocate w p) = heap w.
Proof. done. Qed.

Lemma session_UpdateTaskStatus_operations (w : World) (p : ptr) (s : TaskStatus) :
  operations (session_UpdateTaskStatus w p s).2 = operations w.
Proof.
  unfold session_UpdateTaskStatus.
  destruct (ssn_Jobs (ssn w) !! _); [|done].
  by destruct (UpdateTaskStatus _ _ _ _) as [[[e|] ?] ?].
Qed.

Lemma session_UpdateTask_operations (w w' : World) (p : ptr) :
  session_UpdateTask w p = Ret w' → operations w' = operations w.
Proof.
  unfold session_UpdateTask.
  destruct (ssn_Nodes (ssn w) !! _); [|by intros [= <-]].
  destruct (UpdateTask _ _ _) as [[[? ?] ?]|]; [|done].
  by intros [= <-].
Qed.


End statement_facts.


(** ** Commit (C6) *)

Section commit_facts.
Context `{!Env}.

Lemma session_UpdateTaskStatus_ok (w w' : World) (p : ptr) (s : TaskStatus) :
  session_UpdateTaskStatus w p s = (Some None, w') →
  ti_Status (heap w' !!! p) = s ∧ trace w' = trace w
  ∧ operations w' = operations w.
Proof.
  unfold session_UpdateTaskStatus, UpdateTaskStatus.
  destruct (ssn_Jobs (ssn w) !! _); [|done].
  destruct (validateStatusUpdate _ _); [|done].
  intros [= <-]. simpl. by rewrite lookup_total_insert_eq.
Qed.

Lemma session_UpdateTaskStatus_trace (w : World) (p : ptr) (s : TaskStatus) :
  trace (session_UpdateTaskStatus w p s).2 = trace w.
Proof.
  unfold session_UpdateTaskStatus, UpdateTaskStatus.
  destruct (ssn_Jobs (ssn w) !! _); [|done].
  by destruct (validateStatusUpdate _ _).
Qed.

End commit_facts.

(** ** Bind (C4) *)

Section bind_facts.
Context `{!Env}.

Lemma set_Status_back (t : TaskInfo) (s : TaskStatus) :
  set_Status (set_Status t s) (ti_Status t) = t.
Proof. by destruct t. Qed.

Lemma AddTask_error_unchanged (ni ni' : NodeInfo) (task : ptr)
    (h h' : gmap positive TaskInfo) (e : error) :
  AddTask ni task h = (Some e, ni', h') → ni' = ni ∧ h' = h.
Proof.
  rewrite AddTask_unfold. cbv zeta.
  destruct (on_other_node _ _); [by intros [= _ <- <-]|].
  destruct (ni_Tasks ni !! _); [by intros [= _ <- <-]|].
  destruct (fits _ _ _); [done|by intros [= _ <- <-]].
Qed.

(** C4, as the code has it.  [Bind] finds the job and its task object,
    remembers the status, sets the task to Binding and calls
    [node.AddTask].  When [AddTask] fails, [Bind] returns that error and no
    node of the cache is changed.  The status is then set back: if that
    succeeds the task has its original status again, the job is as it was
    and nothing is put on the resync queue; the task is put on the resync
    queue only if setting the status back is refused, in which case it stays
    Binding. *)
Theorem Bind_when_AddTask_fails (sc : SchedulerCache) (taskInfo : ptr)
    (hostname : string) (h h1 : gmap positive TaskInfo)
    (job job1 : JobInfo) (task : ptr) (node : NodeInfo) (e : error) :
  findJobAndTask sc taskInfo h = inr (job, task) →
  ti_UID (h !!! task) = ti_UID (h !!! taskInfo) →
  sc_Nodes sc !! hostname = Some node →
  UpdateTaskStatus job task Binding h = (None, job1, h1) →
  (AddTask node task h1).1.1 = Some e →
  let originalStatus := ti_Status (h !!! task) in
  ∃ sc' h',
    Bind sc taskInfo hostname h = (Some e, sc', h')
    ∧ sc_Nodes sc' = sc_Nodes sc
    ∧ if validateStatusUpdate Binding originalStatus
      then ti_Status (h' !!! task) = originalStatus
           ∧ (∀ p, h' !!! p = h !!! p)
           ∧ sc_errTasks sc' = sc_errTasks sc
           ∧ sc' = sc
      else ti_Status (h' !!! task) = Binding
           ∧ sc_errTasks sc' = sc_errTasks sc ++ [task].
Proof.
  intros Hfind Huid Hnode Hupd Hadd. cbv zeta.
  unfold Bind. rewrite Hfind, Hnode, Hupd.
  destruct (AddTask node task h1) as [[e' ni'] h'] eqn:EA.
  simpl in Hadd. subst e'.
  apply AddTask_error_unchanged in EA as [-> ->].
  unfold findJobAndTask in Hfind.
  destruct (sc_Jobs sc !! _) as [j|] eqn:Ej; [|done].
  destruct (ji_Tasks j !! _) as [tk|] eqn:Et; [|done].
  injection Hfind as -> ->.
  unfold UpdateTaskStatus in Hupd.
  destruct (validateStatusUpdate (ti_Status (h !!! task)) Binding); [|done].
  injection Hupd as <- <-.
  unfold UpdateTaskStatus. rewrite lookup_total_insert_eq. simpl.
  destruct (validateStatusUpdate Binding _); simpl.
  - do 2 eexists. split; [done|]. split; [done|].
    rewrite lookup_total_insert_eq. simpl. split; [done|].
    assert (Hheap : ∀ p, <[task := set_Status (set_Status (h !!! task) Binding)
                                      (ti_Status (h !!! task))]>
                           (<[task := set_Status (h !!! task) Binding]> h) !!! p
                         = h !!! p).
    { intros p. rewrite set_Status_back, insert_insert_eq.
      destruct (decide (p = task)) as [->|Hp].
      - by rewrite lookup_total_insert_eq.
      - by rewrite lookup_total_insert_ne. }
    split; [done|]. split; [done|].
    rewrite !insert_insert_eq, Huid.
    rewrite (insert_id (ji_Tasks job)) by done.
    destruct job, sc; simpl in *. unfold set_sc_Jobs, set_ji_Tasks; simpl.
    by rewrite insert_id.
  - do 2 eexists. split; [done|]. split; [done|].
    by rewrite lookup_total_insert_eq.
Qed.

End bind_facts.

Lemma Bind_when_AddTask_fails_witness :
  ∃ sc' h',
    @Bind exact_env busy_cache 1%positive "n1" busy_heap
    = (Some (mkError "Selected node NotReady"), sc', h')
    ∧ sc_Nodes sc' = sc_Nodes busy_cache
    ∧ ti_Status (h' !!! 1%positive) = Allocated
    ∧ sc' = busy_cache.
Proof.
  destruct (@Bind_when_AddTask_fails exact_env busy_cache 1%positive "n1"
              busy_heap (<[1%positive := set_Status allocated_tA Binding]> busy_heap)
              (job_j1 {[ "uA" := 1%positive ]}) (job_j1 {[ "uA" := 1%positive ]})
              1%positive busy_node (mkError "Selected node NotReady"))
    as (sc' & h' & HB & HN & Hrest);
    [by vm_compute|by vm_compute|by vm_compute|by vm_compute|by vm_compute|].
  exists sc', h'. simpl in Hrest. destruct Hrest as (Hs & _ & _ & Hsc).
  split; [exact HB|]. split; [exact HN|]. split; [exact Hs|exact Hsc].
Defined.

(** The claim as first stated fails: here [AddTask] fails (the node has
    no idle resources), the status is set back to Allocated, and the task is
    not put on the resync queue. *)
Lemma Bind_does_not_enqueue_counterexample :
  (@AddTask exact_env busy_node 1%positive
     (<[1%positive := set_Status allocated_tA Binding]> busy_heap)).1.1
  = Some (mkError "Selected node NotReady")
  ∧ ∃ sc' h',
      @Bind exact_env busy_cache 1%positive "n1" busy_heap
      = (Some (mkError "Selected node NotReady"), sc', h')
      ∧ ti_Status (h' !!! 1%positive) = Allocated
      ∧ sc_errTasks sc' = [].
Proof.
  split; [by vm_compute|].
  exists (@Bind exact_env busy_cache 1%positive "n1" busy_heap).1.2,
         (@Bind exact_env busy_cache 1%positive "n1" busy_heap).2.
  split; [by vm_compute|]. split; by vm_compute.
Qed.

(** Under the lifecycle of the spec the transition back from Binding to
    Allocated is not allowed: the task stays Binding and is put on the
    resync queue. *)
Example Bind_enqueues_when_revert_refused :
  let r := @Bind lifecycle_env busy_cache 1%positive "n1" busy_heap in
  r.1.1 = Some (mkError "Selected node NotReady")
  ∧ ti_Status (r.2 !!! 1%positive) = Binding
  ∧ sc_errTasks r.1.2 = [1%positive].
Proof. by vm_compute. Qed.

(** ** Snapshot (C5) *)

Section snapshot_facts.
Context `{!Env}.








End snapshot_facts.



(** ** The round trip of a statement: the session and its view *)

Section view_facts.
Context `{!Env}.

Lemma left_set_Tasks (n : NodeInfo) (m : gmap string positive)
    (s : TaskStatus) (r : Resource) :
  left (set_Tasks n m) s r = set_Tasks (left n s r) m.
Proof. unfold left. simpl. destruct (ni_Node n); [|done]. by destruct s. Qed.

Lemma entered_set_Tasks (n : NodeInfo) (m : gmap string positive)
    (s : TaskStatus) (r : Resource) :
  entered (set_Tasks n m) s r = set_Tasks (entered n s r) m.
Proof. unfold entered. simpl. destruct (ni_Node n); [|done]. by destruct s. Qed.

Lemma left_Name (n : NodeInfo) (s : TaskStatus) (r : Resource) :
  ni_Name (left n s r) = ni_Name n ∧ ni_Node (left n s r) = ni_Node n
  ∧ ni_Tasks (left n s r) = ni_Tasks n.
Proof.
  unfold left. destruct (ni_Node n) eqn:E; [|done].
  destruct s; simpl; by rewrite E.
Qed.

Lemma entered_Name (n : NodeInfo) (s : TaskStatus) (r : Resource) :
  ni_Name (entered n s r) = ni_Name n ∧ ni_Node (entered n s r) = ni_Node n
  ∧ ni_Tasks (entered n s r) = ni_Tasks n.
Proof.
  unfold entered. destruct (ni_Node n) eqn:E; [|done].
  destruct s; simpl; by rewrite E.
Qed.

(** The view of a node depends on the store only through its copies. *)
Lemma abs_node_frame (h h' : gmap positive TaskInfo) (n : NodeInfo) :
  (∀ key c, ni_Tasks n !! key = Some c → h' !!! c = h !!! c) →
  abs_node h' n = abs_node h n.
Proof.
  intros Hc. unfold abs_node. f_equal.
  apply map_eq. intros key. rewrite !lookup_fmap.
  destruct (ni_Tasks n !! key) as [c|] eqn:Ek; [|done].
  simpl. unfold view. by rewrite (Hc key c Ek).
Qed.

Lemma abs_nodes_frame (h h' : gmap positive TaskInfo) (nodes : gmap string NodeInfo) :
  (∀ k n key c, nodes !! k = Some n → ni_Tasks n !! key = Some c →
                h' !!! c = h !!! c) →
  abs_node h' <$> nodes = abs_node h <$> nodes.
Proof.
  intros Hc. apply map_fmap_ext. intros k n Hk.
  apply abs_node_frame. intros key c. by apply (Hc k n).
Qed.

Lemma fresh_after_insert (h : gmap positive TaskInfo) (p : ptr) (t : TaskInfo) :
  fresh (dom (<[p := t]> h)) ≠ p ∧ fresh (dom (<[p := t]> h)) ∉ dom h.
Proof.
  pose proof (is_fresh (dom (<[p := t]> h))) as Hf.
  split.
  - intros E. apply Hf. rewrite E. apply elem_of_dom.
    rewrite lookup_insert_eq. by eexists.
  - intros E. apply Hf. apply elem_of_dom. apply elem_of_dom in E as [x Hx].
    rewrite lookup_insert. case_decide; by eexists.
Qed.

(** [AddTask], seen on the view. *)
Lemma AddTask_abs (n : NodeInfo) (p : ptr) (h : gmap positive TaskInfo) :
  (∀ key c, ni_Tasks n !! key = Some c → c ≠ p ∧ c ∈ dom h) →
  match AddTask n p h with
  | (Some _, _, _) => a_AddTask (abs_node h n) (h !!! p) = None
  | (None, n', h') =>
      a_AddTask (abs_node h n) (h !!! p) = Some (abs_node h' n')
      ∧ ni_Name n' = ni_Name n
      ∧ ∃ c, (c ∉ dom h) ∧ c ≠ p
             ∧ h' = <[c := set_NodeName (h !!! p) (ni_Name n)]>
                      (<[p := set_NodeName (h !!! p) (ni_Name n)]> h)
             ∧ ni_Tasks n' = <[PodKey (ti_Pod (h !!! p)) := c]> (ni_Tasks n)
  end.
Proof.
  intros Hst. rewrite AddTask_unfold. cbv zeta. unfold a_AddTask. simpl.
  change (on_other_node (set_Tasks n ∅) (h !!! p)) with (on_other_node n (h !!! p)).
  destruct (on_other_node n (h !!! p)); [done|].
  rewrite lookup_fmap.
  destruct (ni_Tasks n !! PodKey (ti_Pod (h !!! p))) as [c0|] eqn:Ek; [done|].
  simpl.
  change (fits (set_Tasks n ∅) (ti_Status (h !!! p)) (ti_Resreq (h !!! p)))
    with (fits n (ti_Status (h !!! p)) (ti_Resreq (h !!! p))).
  destruct (fits n _ _); [|done].
  set (t := h !!! p) in *.
  set (h1 := <[p := set_NodeName t (ni_Name n)]> h).
  set (c := fresh (dom h1)).
  destruct (fresh_after_insert h p (set_NodeName t (ni_Name n))) as [Hcp Hch].
  fold h1 c in Hcp, Hch.
  split; [|split].
  - f_equal. unfold abs_node. simpl.
    rewrite entered_set_Tasks. f_equal.
    rewrite fmap_insert. unfold view at 2.
    rewrite lookup_total_insert_eq. simpl. f_equal.
    apply map_eq. intros key. rewrite !lookup_fmap.
    destruct (ni_Tasks n !! key) as [c1|] eqn:Ek1; [|done].
    simpl. destruct (Hst key c1 Ek1) as [Hne Hdom].
    unfold view. rewrite lookup_total_insert_ne by (by intros ->).
    unfold h1. by rewrite lookup_total_insert_ne by done.
  - simpl. apply entered_Name.
  - exists c. by repeat split.
Qed.

(** [RemoveTask], seen on the view. *)
Lemma RemoveTask_abs (n : NodeInfo) (p : ptr) (h : gmap positive TaskInfo) :
  let key := PodKey (ti_Pod (h !!! p)) in
  match ni_Tasks n !! key with
  | None => RemoveTask n p h = (Some (mkError "failed to find task on host"), n)
            ∧ an_tasks (abs_node h n) !! key = None
  | Some c =>
      ∃ n', RemoveTask n p h = (None, n')
            ∧ an_tasks (abs_node h n) !! key = Some (view h c)
            ∧ abs_node h n' = a_removed (abs_node h n) key (view h c)
            ∧ ni_Name n' = ni_Name n
            ∧ ni_Tasks n' = delete key (ni_Tasks n)
  end.
Proof.
  cbv zeta. rewrite RemoveTask_unfold. cbv zeta. simpl. rewrite lookup_fmap.
  destruct (ni_Tasks n !! _) as [c|] eqn:Ek; [|done].
  eexists. split; [done|]. split; [done|]. split; [|split].
  - unfold abs_node, a_removed. simpl. rewrite left_set_Tasks. simpl.
    by rewrite fmap_delete.
  - simpl. apply left_Name.
  - done.
Qed.

End view_facts.

Section world_facts.
Context `{!Env}.

(** Writing to an object of [D], or to a new object, changes no view of a
    node. *)
Lemma abs_nodes_insert_D (D : gset positive) (w : World) (p : ptr) (t : TaskInfo) :
  well_formed D w → p ∈ D →
  abs_node (<[p := t]> (heap w)) <$> ssn_Nodes (ssn w)
  = abs_node (heap w) <$> ssn_Nodes (ssn w).
Proof.
  intros (_ & Hst & _) Hp. apply abs_nodes_frame. intros k n key c Hk Hc.
  destruct (Hst c) as [HcD _]; [by exists k, n, key|].
  rewrite lookup_total_insert_ne; [done|]. by intros ->.
Qed.

Lemma abs_session_UpdateTaskStatus (D : gset positive) (w : World) (a : AWorld)
    (p : ptr) (s : TaskStatus) :
  well_formed D w → abs D w a → p ∈ D →
  well_formed D (session_UpdateTaskStatus w p s).2
  ∧ abs D (session_UpdateTaskStatus w p s).2 (a_UpdateTaskStatus a p s)
  ∧ ((session_UpdateTaskStatus w p s).1 = Some None ↔
     ti_Job (heap w !!! p) ∈ a_jobs a
     ∧ validateStatusUpdate (ti_Status (heap w !!! p)) s = true).
Proof.
  intros Hwf (Hj & Hn & Ht) Hp.
  unfold session_UpdateTaskStatus, a_UpdateTaskStatus, UpdateTaskStatus.
  rewrite (Ht p Hp), Hj.
  destruct (ssn_Jobs (ssn w) !! ti_Job (heap w !!! p)) as [job|] eqn:Ej.
  - rewrite decide_True by (apply elem_of_dom; by eexists).
    destruct (validateStatusUpdate _ s) eqn:Ev; simpl.
    + split; [|split].
      * destruct Hwf as (HD & Hst & Hnm). split; [|split]; simpl.
        -- intros q Hq. apply elem_of_dom. rewrite lookup_insert.
           case_decide; [by eexists|]. apply elem_of_dom. by apply HD.
        -- intros c Hc. destruct (Hst c Hc) as [? Hd]. split; [done|].
           apply elem_of_dom. rewrite lookup_insert.
           case_decide; [by eexists|]. by apply elem_of_dom.
        -- done.
      * split; [|split]; simpl.
        -- rewrite Hj. apply set_eq. intros k. rewrite !elem_of_dom.
           rewrite lookup_insert. case_decide; [subst|done].
           rewrite Ej. split; intros; by eexists.
        -- rewrite Hn. symmetry. by apply (abs_nodes_insert_D D).
        -- intros q Hq. destruct (decide (q = p)) as [->|Hne].
           ++ by rewrite fn_lookup_insert, lookup_total_insert_eq.
           ++ rewrite fn_lookup_insert_ne by done.
              rewrite lookup_total_insert_ne by done. by apply Ht.
      * split; [|done]. intros _. split; [|done].
        apply elem_of_dom. by eexists.
    + split; [done|]. split; [by split|]. split; [done|]. by intros [_ ?].
  - rewrite decide_False by (by apply not_elem_of_dom).
    simpl. split; [done|]. split; [by split|]. split; [done|].
    intros [Hin _]. by apply not_elem_of_dom in Ej.
Qed.

Lemma abs_session_RemoveTask (D : gset positive) (w : World) (a : AWorld) (p : ptr) :
  well_formed D w → abs D w a → p ∈ D →
  well_formed D (session_RemoveTask w p)
  ∧ abs D (session_RemoveTask w p) (a_RemoveTask a p).
Proof.
  intros Hwf (Hj & Hn & Ht) Hp.
  unfold session_RemoveTask, a_RemoveTask.
  rewrite (Ht p Hp), Hn, lookup_fmap.
  destruct (ssn_Nodes (ssn w) !! ti_NodeName (heap w !!! p)) as [n|] eqn:En;
    simpl; [|by split; [|split]].
  pose proof (RemoveTask_abs n p (heap w)) as HR. cbv zeta in HR. simpl in HR.
  destruct (ni_Tasks n !! PodKey (ti_Pod (heap w !!! p))) as [c|] eqn:Ek.
  - destruct HR as (n' & -> & Hv & Habs & Hname & Htasks).
    rewrite Hv. destruct Hwf as (HD & Hst & Hnm).
    split; [split; [|split]|split; [|split]]; simpl; try done.
    + intros c' (k & m & key & Hk & Hc). simpl in Hk.
      rewrite lookup_insert in Hk. case_decide as Hd.
      * injection Hk as <-. rewrite Htasks in Hc.
        apply lookup_delete_Some in Hc as [_ Hc].
        apply Hst. by exists (ti_NodeName (heap w !!! p)), n, key.
      * apply Hst. by exists k, m, key.
    + intros k m. rewrite lookup_insert. case_decide as Hd.
      * intros [= <-]. rewrite Hname. subst k. by apply Hnm.
      * apply Hnm.
    + rewrite fmap_insert. by rewrite Habs.
  - destruct HR as (-> & Hv). rewrite Hv.
    rewrite insert_id by done.
    by split; [|split].
Qed.

Lemma abs_session_AddTask_node (D : gset positive) (w : World) (a : AWorld)
    (p : ptr) (nk : string) (n0 n : NodeInfo) :
  well_formed D w → abs D w a → p ∈ D →
  ssn_Nodes (ssn w) !! nk = Some n0 →
  ni_Name n = ni_Name n0 →
  (∀ key c, ni_Tasks n !! key = Some c → ni_Tasks n0 !! key = Some c) →
  match AddTask n p (heap w) with
  | (Some _, _, _) => a_AddTask (abs_node (heap w) n) (a_task a p) = None
  | (None, n', h') =>
      let w' := set_heap (set_Nodes w (<[nk := n']> (ssn_Nodes (ssn w)))) h' in
      ∃ an', a_AddTask (abs_node (heap w) n) (a_task a p) = Some an'
             ∧ well_formed D w'
             ∧ abs D w'
                 (set_a_task (set_a_nodes a (<[nk := an']> (a_nodes a)))
                    p (set_NodeName (a_task a p) (ni_Name n0)))
  end.
Proof.
  intros Hwf (Hj & Hn & Ht) Hp Hnk Hname Hsub.
  destruct Hwf as (HD & Hst & Hnm).
  assert (Hstn : ∀ key c, ni_Tasks n !! key = Some c → c ≠ p ∧ c ∈ dom (heap w)).
  { intros key c Hc. destruct (Hst c) as [HcD Hcd].
    { exists nk, n0, key. split; [done|]. by apply Hsub. }
    split; [by intros ->|done]. }
  pose proof (AddTask_abs n p (heap w) Hstn) as HA.
  rewrite (Ht p Hp).
  destruct (AddTask n p (heap w)) as [[[e|] n'] h']; [done|].
  destruct HA as (HA & Hn' & c & Hch & Hcp & -> & Htasks).
  cbv zeta. eexists. split; [exact HA|].
  assert (Hframe : ∀ q, q ∈ dom (heap w) → q ≠ p →
            <[c := set_NodeName (heap w !!! p) (ni_Name n)]>
              (<[p := set_NodeName (heap w !!! p) (ni_Name n)]> (heap w)) !!! q
            = heap w !!! q).
  { intros q Hq Hqp. rewrite lookup_total_insert_ne by (by intros ->).
    by rewrite lookup_total_insert_ne by done. }
  split; [split; [|split]|split; [|split]]; simpl.
  - intros q Hq. apply elem_of_dom. rewrite !lookup_insert.
    repeat case_decide; try by eexists. apply elem_of_dom. by apply HD.
  - intros c' (k & m & key & Hk & Hc). simpl in Hk.
    assert (Hold : c' ∈ dom (heap w) →
              c' ∈ dom (<[c := set_NodeName (heap w !!! p) (ni_Name n)]>
                          (<[p := set_NodeName (heap w !!! p) (ni_Name n)]> (heap w)))).
    { intros Hd. apply elem_of_dom. rewrite !lookup_insert.
      repeat case_decide; try by eexists. by apply elem_of_dom. }
    rewrite lookup_insert in Hk. case_decide as Hd.
    + injection Hk as <-. rewrite Htasks in Hc.
      rewrite lookup_insert in Hc. case_decide as Hd'.
      * injection Hc as <-. split.
        -- intros HcD. apply Hch. by apply HD.
        -- apply elem_of_dom. rewrite lookup_insert_eq. by eexists.
      * destruct (Hst c') as [? ?]; [|by split; [|apply Hold]].
        exists nk, n0, key. split; [done|]. by apply Hsub.
    + destruct (Hst c') as [? ?]; [by exists k, m, key|].
      by split; [|apply Hold].
  - intros k m. rewrite lookup_insert. case_decide as Hd.
    + intros [= <-]. rewrite Hn', Hname. subst k. by apply Hnm.
    + apply Hnm.
  - done.
  - rewrite fmap_insert. f_equal. rewrite Hn.
    symmetry. apply abs_nodes_frame. intros k m key c' Hk Hc.
    destruct (Hst c') as [HcD Hcd]; [by exists k, m, key|].
    apply Hframe; [done|]. by intros ->.
  - intros q Hq. destruct (decide (q = p)) as [->|Hne].
    + rewrite fn_lookup_insert. rewrite Hname.
      rewrite lookup_total_insert_ne by done.
      by rewrite lookup_total_insert_eq.
    + rewrite fn_lookup_insert_ne by done. simpl. rewrite (Ht q Hq).
      symmetry. apply Hframe; [by apply HD|done].
Qed.

Lemma abs_session_AddTask (D : gset positive) (w : World) (a : AWorld)
    (p : ptr) (hostname : string) :
  well_formed D w → abs D w a → p ∈ D →
  match session_AddTask w p hostname with
  | (Some _, w') => a_session_AddTask a p hostname = None ∧ w' = w
  | (None, w') =>
      ∃ a', a_session_AddTask a p hostname = Some a'
            ∧ well_formed D w' ∧ abs D w' a'
  end.
Proof.
  intros Hwf Habs Hp. unfold session_AddTask, a_session_AddTask.
  pose proof Habs as (Hj & Hn & Ht).
  rewrite Hn, lookup_fmap.
  destruct (ssn_Nodes (ssn w) !! hostname) as [n0|] eqn:En; simpl; [|done].
  pose proof (abs_session_AddTask_node D w a p hostname n0 n0 Hwf Habs Hp En
                eq_refl (λ _ _ Hc, Hc)) as HA.
  destruct (AddTask n0 p (heap w)) as [[[e|] n'] h'].
  - by rewrite HA.
  - cbv zeta in HA. destruct HA as (an' & -> & Hwf' & Habs').
    eexists. split; [done|]. split; [done|].
    by rewrite <- Hn.
Qed.

Lemma abs_session_UpdateTask (D : gset positive) (w : World) (a : AWorld) (p : ptr) :
  well_formed D w → abs D w a → p ∈ D →
  match session_UpdateTask w p with
  | Fatal _ => a_UpdateTask a p = None
  | Ret w' => ∃ a', a_UpdateTask a p = Some a' ∧ well_formed D w' ∧ abs D w' a'
  end.
Proof.
  intros Hwf Habs Hp. unfold session_UpdateTask, a_UpdateTask, UpdateTask.
  pose proof Habs as (Hj & Hn & Ht).
  rewrite (Ht p Hp), Hn, lookup_fmap.
  destruct (ssn_Nodes (ssn w) !! ti_NodeName (heap w !!! p)) as [n0|] eqn:En;
    simpl; [|by exists a].
  pose proof (RemoveTask_abs n0 p (heap w)) as HR. cbv zeta in HR. simpl in HR.
  destruct (ni_Tasks n0 !! PodKey (ti_Pod (heap w !!! p))) as [c|] eqn:Ek.
  - destruct HR as (n1 & -> & Hv & Habs1 & Hname & Htasks). rewrite Hv.
    pose proof (abs_session_AddTask_node D w a p (ti_NodeName (heap w !!! p))
                  n0 n1 Hwf Habs Hp En Hname) as HA.
    rewrite (Ht p Hp), Habs1 in HA.
    assert (Hsub : ∀ key c', ni_Tasks n1 !! key = Some c' →
                             ni_Tasks n0 !! key = Some c').
    { intros key c' Hc. rewrite Htasks in Hc.
      by apply lookup_delete_Some in Hc as [_ Hc]. }
    specialize (HA Hsub).
    destruct (AddTask n1 p (heap w)) as [[[e|] n2] h2].
    + by rewrite HA.
    + cbv zeta in HA. destruct HA as (an' & -> & Hwf' & Habs').
      eexists. split; [done|]. split; [done|]. by rewrite <- Hn.
  - destruct HR as (-> & Hv). rewrite Hv. exists a. split; [done|].
    destruct Hwf as (HD & Hst & Hnm). destruct w as [ops [u jobs nodes ehs sc] hp tr].
    simpl in *. rewrite insert_id by done. by split; [split|split].
Qed.

Lemma abs_Discard_op (D : gset positive) (w : World) (a : AWorld) (op : operation) :
  well_formed D w → abs D w a → op_task op ∈ D →
  match Discard_op w op with
  | Fatal _ => a_undo a op = None
  | Ret w' => ∃ a', a_undo a op = Some a' ∧ well_formed D w' ∧ abs D w' a'
  end.
Proof.
  intros Hwf Habs Hp. unfold Discard_op, a_undo.
  destruct (abs_session_UpdateTaskStatus D w a (op_task op) Running Hwf Habs Hp)
    as (HwR & HaR & _).
  destruct (abs_session_UpdateTaskStatus D w a (op_task op) Pending Hwf Habs Hp)
    as (HwP & HaP & _).
  destruct (abs_session_RemoveTask D _ _ (op_task op) HwP HaP Hp) as (HwRm & HaRm).
  pose proof (abs_session_UpdateTask D _ _ (op_task op) HwR HaR Hp) as HU.
  repeat case_bool_decide.
  - unfold unevict.
    destruct (session_UpdateTask _ _) as [w'|msg]; [|done].
    destruct HU as (a' & Ha' & Hw' & Habs'). by exists a'.
  - unfold unpipeline. simpl. eexists. by split; [|split].
  - unfold unallocate. simpl. eexists. by split; [|split].
  - by exists a.
Qed.

End world_facts.

(** ** The round trip on the view *)

Section abstract_facts.
Context `{!Env}.

Lemma same_node_refl (n : NodeInfo) : same_node n n.
Proof. by repeat split. Qed.

Lemma same_node_trans (x y z : NodeInfo) :
  same_node x y → same_node y z → same_node x z.
Proof.
  intros (?&?&?&?&?&?&?&?&?&?) (?&?&?&?&?&?&?&?&?&?).
  split_and!; try congruence; by etrans.
Qed.

Lemma discharge_same (x y : NodeInfo) (s : TaskStatus) (r : Resource) :
  same_node x y → same_node (discharge x s r) (discharge y s r).
Proof.
  intros (?&?&?&?&?&?&?&?&?&?).
  destruct s; simpl; split_and!; try done; res_solve.
Qed.

Lemma charge_same (x y : NodeInfo) (s : TaskStatus) (r : Resource) :
  same_node x y → same_node (charge x s r) (charge y s r).
Proof.
  intros (?&?&?&?&?&?&?&?&?&?).
  destruct s; simpl; split_and!; try done; res_solve.
Qed.

Lemma left_same (x y : NodeInfo) (s : TaskStatus) (r : Resource) :
  same_node x y → same_node (left x s r) (left y s r).
Proof.
  intros Hxy. pose proof Hxy as (_ & Hnode & _). unfold left. rewrite Hnode.
  destruct (ni_Node y); [by apply discharge_same|done].
Qed.

Lemma entered_same (x y : NodeInfo) (s : TaskStatus) (r : Resource) :
  same_node x y → same_node (entered x s r) (entered y s r).
Proof.
  intros Hxy. pose proof Hxy as (_ & Hnode & _). unfold entered. rewrite Hnode.
  destruct (ni_Node y); [by apply charge_same|done].
Qed.

(** Entering a task and removing it again, and the other way round, leave
    the vectors as they were. *)
Lemma left_entered (n : NodeInfo) (s : TaskStatus) (r : Resource) :
  same_node n (left (entered n s r) s r).
Proof.
  unfold left, entered. destruct (ni_Node n) eqn:E.
  - assert (ni_Node (charge n s r) = Some n0) as ->.
    { rewrite <- E. apply charge_fields. }
    destruct s; simpl; split_and!; try done; res_solve.
  - rewrite E. apply same_node_refl.
Qed.

Lemma entered_left (n : NodeInfo) (s : TaskStatus) (r : Resource) :
  same_node n (entered (left n s r) s r).
Proof.
  unfold left, entered. destruct (ni_Node n) eqn:E.
  - assert (ni_Node (discharge n s r) = Some n0) as ->.
    { rewrite <- E. by destruct s. }
    destruct s; simpl; split_and!; try done; res_solve.
  - rewrite E. apply same_node_refl.
Qed.

Lemma fits_same (x y : NodeInfo) (s : TaskStatus) (r : Resource) :
  LessEqual_respects_equiv →
  same_node x y → fits x s r = fits y s r.
Proof.
  intros HLE (_ & Hnode & _ & _ & _ & Hidle & _). unfold fits. rewrite Hnode.
  destruct (ni_Node y); [|done].
  destruct (is_Pipelined s); [done|]. by apply HLE.
Qed.

Lemma on_other_node_same (x y : NodeInfo) (t : TaskInfo) :
  same_node x y → on_other_node x t = on_other_node y t.
Proof. intros (Hname & _). unfold on_other_node. by rewrite Hname. Qed.

Lemma same_anode_refl (x : ANode) : same_anode x x.
Proof. split; [apply same_node_refl|done]. Qed.

Lemma same_anode_trans (x y z : ANode) :
  same_anode x y → same_anode y z → same_anode x z.
Proof.
  intros [? ?] [? ?]. split; [by eapply same_node_trans|congruence].
Qed.

Lemma a_removed_same (x y : ANode) (key : string) (v : TaskStatus * Resource) :
  same_anode x y → same_anode (a_removed x key v) (a_removed y key v).
Proof.
  intros [Hn Ht]. split; simpl; [by apply left_same|by rewrite Ht].
Qed.

Lemma a_AddTask_same (x y x' : ANode) (t : TaskInfo) :
  LessEqual_respects_equiv →
  same_anode x y →
  a_AddTask x t = Some x' →
  ∃ y', a_AddTask y t = Some y' ∧ same_anode x' y'.
Proof.
  intros HLE [Hn Ht]. unfold a_AddTask.
  rewrite <- (on_other_node_same _ _ t Hn), <- Ht,
    <- (fits_same _ _ (ti_Status t) (ti_Resreq t) HLE Hn).
  destruct (on_other_node _ _); [done|].
  destruct (an_tasks x !! _); [done|].
  destruct (fits _ _ _); [|done].
  intros [= <-]. eexists. split; [done|].
  split; simpl; [by apply entered_same|done].
Qed.

Lemma same_task_refl (t : TaskInfo) : same_task t t.
Proof. by repeat split. Qed.

Lemma same_task_trans (x y z : TaskInfo) :
  same_task x y → same_task y z → same_task x z.
Proof.
  intros (?&?&?&?&?&?&?&?) (?&?&?&?&?&?&?&?). split_and!; congruence.
Qed.

Lemma same_view_refl (D P : gset positive) (a : AWorld) : same_view D P a a.
Proof.
  split; [done|]. split; [|split; [done|]].
  - intros name. destruct (a_nodes a !! name); constructor. apply same_anode_refl.
  - intros. apply same_task_refl.
Qed.

Lemma same_view_trans (D P1 P2 : gset positive) (a b c : AWorld) :
  same_view D P1 a b → same_view D P2 b c → same_view D (P1 ∪ P2) a c.
Proof.
  intros (Hj1 & Hn1 & Ht1 & Hs1) (Hj2 & Hn2 & Ht2 & Hs2). split_and!.
  - congruence.
  - intros name. specialize (Hn1 name). specialize (Hn2 name).
    destruct Hn1; inversion Hn2; subst; constructor.
    by eapply same_anode_trans.
  - intros p Hp Hnot. rewrite Ht1, Ht2; [done|done| |done| ].
    + intros Hin. apply Hnot, elem_of_union. by right.
    + intros Hin. apply Hnot, elem_of_union. by left.
  - intros p Hp. eapply same_task_trans; eauto.
Qed.

Lemma same_view_mono (D P P' : gset positive) (a b : AWorld) :
  P ⊆ P' → same_view D P a b → same_view D P' a b.
Proof.
  intros Hsub (Hj & Hn & Ht & Hs). split_and!; try done.
  intros p Hp Hnot. apply Ht; [done|]. intros Hin. by apply Hnot, Hsub.
Qed.

Lemma same_view_set_task (D P : gset positive) (a b : AWorld) (p : ptr)
    (t t' : TaskInfo) :
  same_view D P a b → (p ∉ P → t = t') → same_task t t' →
  same_view D P (set_a_task a p t) (set_a_task b p t').
Proof.
  intros (Hj & Hn & Ht & Hs) Heq Hst.
  split; [done|]. split; [done|]. split; simpl.
  - intros q Hq HqP. destruct (decide (q = p)) as [->|Hne].
    + rewrite !fn_lookup_insert. by apply Heq.
    + rewrite !fn_lookup_insert_ne by done. by apply Ht.
  - intros q Hq. destruct (decide (q = p)) as [->|Hne].
    + by rewrite !fn_lookup_insert.
    + rewrite !fn_lookup_insert_ne by done. by apply Hs.
Qed.

Lemma same_view_set_node (D P : gset positive) (a b : AWorld) (k : string)
    (x y : ANode) :
  same_view D P a b → same_anode x y →
  same_view D P (set_a_nodes a (<[k := x]> (a_nodes a)))
                (set_a_nodes b (<[k := y]> (a_nodes b))).
Proof.
  intros (Hj & Hn & Ht & Hs) Hxy.
  split; [done|]. split; [|split; [exact Ht|exact Hs]]. simpl.
  intros name. destruct (decide (name = k)) as [->|Hne].
  - rewrite !lookup_insert_eq. by constructor.
  - rewrite !lookup_insert_ne by done. apply Hn.
Qed.

(** The inverse operations respect the agreement of views, for a task that
    is the same in both. *)
Lemma a_UpdateTaskStatus_same (D P : gset positive) (a b : AWorld) (p : ptr)
    (s : TaskStatus) :
  same_view D P a b → p ∈ D → p ∉ P →
  same_view D P (a_UpdateTaskStatus a p s) (a_UpdateTaskStatus b p s).
Proof.
  intros Hv Hp HpP. pose proof Hv as (Hj & Hn & Ht & Hs).
  unfold a_UpdateTaskStatus. rewrite <- (Ht p Hp HpP), <- Hj.
  destruct (decide _); [|done].
  destruct (validateStatusUpdate _ _); [|done].
  apply same_view_set_task; [done|done|apply same_task_refl].
Qed.

Lemma a_RemoveTask_same (D P : gset positive) (a b : AWorld) (p : ptr) :
  same_view D P a b → p ∈ D → p ∉ P →
  same_view D P (a_RemoveTask a p) (a_RemoveTask b p).
Proof.
  intros Hv Hp HpP. pose proof Hv as (Hj & Hn & Ht & Hs).
  unfold a_RemoveTask. rewrite <- (Ht p Hp HpP).
  specialize (Hn (ti_NodeName (a_task a p))).
  destruct (a_nodes a !! _) as [x|] eqn:Ea, (a_nodes b !! _) as [y|] eqn:Eb;
    inversion Hn as [? ? [Hxn Hxt]|]; subst; [|done].
  rewrite <- Hxt. destruct (an_tasks x !! _); [|done].
  apply same_view_set_node; [done|]. apply a_removed_same. by split.
Qed.

Lemma a_UpdateTask_same (D P : gset positive) (a b a' : AWorld) (p : ptr) :
  LessEqual_respects_equiv →
  same_view D P a b → p ∈ D → p ∉ P →
  a_UpdateTask a p = Some a' →
  ∃ b', a_UpdateTask b p = Some b' ∧ same_view D P a' b'.
Proof.
  intros HLE Hv Hp HpP. pose proof Hv as (Hj & Hn & Ht & Hs).
  unfold a_UpdateTask. rewrite <- (Ht p Hp HpP).
  specialize (Hn (ti_NodeName (a_task a p))).
  destruct (a_nodes a !! _) as [x|] eqn:Ea, (a_nodes b !! _) as [y|] eqn:Eb;
    inversion Hn as [? ? [Hxn Hxt]|]; subst; [|intros [= <-]; eauto].
  rewrite <- Hxt. destruct (an_tasks x !! _) as [v|]; [|intros [= <-]; eauto].
  destruct (a_AddTask (a_removed x _ v) _) as [x'|] eqn:EA; [|done].
  intros [= <-].
  destruct (a_AddTask_same _ (a_removed y (PodKey (ti_Pod (a_task a p))) v) _ _ HLE
              (a_removed_same _ _ _ _ (conj Hxn Hxt)) EA) as (y' & -> & Hxy').
  eexists. split; [done|].
  destruct Hxn as (Hname & _). rewrite Hname.
  apply same_view_set_task; [|done|apply same_task_refl].
  by apply same_view_set_node.
Qed.

Lemma a_undo_same (D P : gset positive) (a b a' : AWorld) (op : operation) :
  LessEqual_respects_equiv →
  same_view D P a b → op_task op ∈ D → op_task op ∉ P →
  a_undo a op = Some a' →
  ∃ b', a_undo b op = Some b' ∧ same_view D P a' b'.
Proof.
  intros HLE Hv Hp HpP. unfold a_undo. repeat case_bool_decide.
  - apply a_UpdateTask_same; try done. by apply a_UpdateTaskStatus_same.
  - intros [= <-]. eexists. split; [done|].
    apply a_RemoveTask_same; try done. by apply a_UpdateTaskStatus_same.
  - intros [= <-]. eexists. split; [done|].
    apply a_RemoveTask_same; try done. by apply a_UpdateTaskStatus_same.
  - intros [= <-]. by exists b.
Qed.

Lemma set_NodeName_id (t : TaskInfo) (n : string) :
  ti_NodeName t = n → set_NodeName t n = t.
Proof. intros <-. by destruct t. Qed.

Lemma set_Status_id (t : TaskInfo) (s : TaskStatus) :
  ti_Status t = s → set_Status t s = t.
Proof. intros <-. by destruct t. Qed.

(** Placing a Pending task and undoing it. *)
Lemma place_round_trip (D : gset positive) (a a0 a1 : AWorld) (p : ptr)
    (hostname : string) (b : bool) (s' : TaskStatus) :
  a_named a →
  ti_Status (a_task a p) = Pending →
  ti_Job (a_task a p) ∈ a_jobs a →
  validateStatusUpdate s' Pending = true →
  a_with a p (set_Status (set_VolumeReady (a_task a p) b) s') a0 →
  a_session_AddTask a0 p hostname = Some a1 →
  same_view D {[p]} a (a_RemoveTask (a_UpdateTaskStatus a1 p Pending) p).
Proof.
  intros Hnamed Hst Hjob Hval (Hj0 & Hn0 & Ht0 & Hf0).
  unfold a_session_AddTask. rewrite Hn0, Ht0.
  destruct (a_nodes a !! hostname) as [an|] eqn:Ean; [|done].
  unfold a_AddTask.
  destruct (on_other_node _ _); [done|].
  destruct (an_tasks an !! _) eqn:Ekey; [done|].
  destruct (fits _ _ _); [|done].
  intros [= <-].
  pose proof (Hnamed _ _ Ean) as Hname.
  unfold a_UpdateTaskStatus. simpl. rewrite fn_lookup_insert. simpl.
  rewrite Hj0, decide_True by done. rewrite Hval.
  unfold a_RemoveTask. simpl. rewrite fn_lookup_insert. simpl.
  rewrite Hname, lookup_insert_eq. simpl. rewrite lookup_insert_eq.
  split; [done|]. split; [|split]; simpl.
  - intros name. destruct (decide (name = hostname)) as [->|Hne].
    + rewrite lookup_insert_eq, Ean. constructor.
      split; simpl; [apply left_entered|].
      by rewrite delete_insert_eq, delete_id.
    + rewrite !lookup_insert_ne by done.
      destruct (a_nodes a !! name); constructor. apply same_anode_refl.
  - intros q Hq HqP.
    assert (q ≠ p) by (intros ->; apply HqP; by apply elem_of_singleton).
    rewrite !fn_lookup_insert_ne by done. symmetry. by apply Hf0.
  - intros q Hq. destruct (decide (q = p)) as [->|Hne].
    + rewrite fn_lookup_insert. by repeat split.
    + rewrite !fn_lookup_insert_ne by done. rewrite Hf0 by done.
      apply same_task_refl.
Qed.

Lemma fits_not_Pipelined (n : NodeInfo) (s s' : TaskStatus) (r : Resource) :
  s ≠ Pipelined → s' ≠ Pipelined → fits n s r = fits n s' r.
Proof.
  intros Hs Hs'. unfold fits, is_Pipelined.
  destruct (ni_Node n); [|done].
  by rewrite !bool_decide_eq_false_2.
Qed.

(** Updating a Running task on its node to another status that takes from
    Idle, and back. *)
Lemma update_round_trip (D : gset positive) (a a_s a1 : AWorld) (p : ptr)
    (s1 : TaskStatus) :
  a_named a →
  LessEqual_respects_equiv →
  ti_Status (a_task a p) = Running →
  a_coherent a p →
  s1 ≠ Pipelined →
  a_with a p (set_Status (a_task a p) s1) a_s →
  a_UpdateTask a_s p = Some a1 →
  a_jobs a1 = a_jobs a
  ∧ a_task a1 p = set_Status (a_task a p) s1
  ∧ ∀ a_u, a_with a1 p (a_task a p) a_u →
           ∃ a2, a_UpdateTask a_u p = Some a2 ∧ same_view D ∅ a a2.
Proof.
  intros Hnamed HLE Hst Hcoh Hs1 (Hj0 & Hn0 & Ht0 & Hf0).
  set (t := a_task a p) in *.
  unfold a_UpdateTask. rewrite Hn0, Ht0. simpl.
  assert (Hplain : ∀ a_u, a_with a_s p t a_u →
            same_view D ∅ a a_u).
  { intros a_u (Hj & Hn & Ht & Hf). split; [congruence|]. split; [|split].
    - intros name. rewrite Hn, Hn0.
      destruct (a_nodes a !! name); constructor. apply same_anode_refl.
    - intros q Hq _. destruct (decide (q = p)) as [->|Hne]; [done|].
      by rewrite Hf, Hf0.
    - intros q Hq. destruct (decide (q = p)) as [->|Hne].
      + rewrite Ht. apply same_task_refl.
      + rewrite Hf, Hf0 by done. apply same_task_refl. }
  destruct (a_nodes a !! ti_NodeName t) as [an|] eqn:Ean.
  2: { intros [= <-]. split; [done|]. split; [done|].
       intros a_u Hu. pose proof Hu as (Hj & Hn & Ht & Hf).
       exists a_u. split; [|by apply Hplain].
       by rewrite Ht, Hn, Hn0, Ean. }
  destruct (an_tasks an !! PodKey (ti_Pod t)) as [v|] eqn:Ekey.
  2: { intros [= <-]. split; [done|]. split; [done|].
       intros a_u Hu. pose proof Hu as (Hj & Hn & Ht & Hf).
       exists a_u. split; [|by apply Hplain].
       by rewrite Ht, Hn, Hn0, Ean, Ekey. }
  pose proof (Hcoh _ _ Ean Ekey) as ->.
  pose proof (Hnamed _ _ Ean) as Hname.
  set (r := ti_Resreq t) in *. set (n := an_node an) in *.
  set (key := PodKey (ti_Pod t)) in *.
  unfold a_AddTask. simpl. fold t r key n.
  destruct (on_other_node (left n Running r) (set_Status t s1)) eqn:Eother; [done|].
  rewrite lookup_delete_eq.
  destruct (fits (left n Running r) s1 r) eqn:Efits; [|done].
  intros [= <-]. simpl. split; [done|].
  rewrite fn_lookup_insert. rewrite Hname.
  split; [by apply set_NodeName_id|].
  intros a_u (Hj & Hn & Ht & Hf). simpl in *.
  rewrite Ht, Hn. fold t. rewrite lookup_insert_eq. simpl. fold key.
  rewrite lookup_insert_eq. simpl.
  set (N3 := left (entered (left n Running r) s1 r) s1 r).
  assert (H3 : same_node (left n Running r) N3) by apply left_entered.
  rewrite <- (on_other_node_same _ _ t H3).
  change (on_other_node (left n Running r) t)
    with (on_other_node (left n Running r) (set_Status t s1)).
  rewrite Eother. rewrite lookup_delete_eq. fold r. rewrite Hst.
  rewrite <- (fits_same _ _ Running r HLE H3).
  rewrite (fits_not_Pipelined _ Running s1) by done. rewrite Efits.
  eexists. split; [done|].
  split; [simpl; congruence|]. split; [|split]; simpl.
  - intros name. destruct (decide (name = ti_NodeName t)) as [->|Hne].
    + rewrite lookup_insert_eq, Ean. constructor. split; simpl.
      * eapply same_node_trans; [apply (entered_left n Running r)|].
        by apply entered_same.
      * apply map_eq. intros k. destruct (decide (k = key)) as [->|Hk].
        -- by rewrite lookup_insert_eq.
        -- rewrite lookup_insert_ne, lookup_delete_ne, lookup_insert_ne,
             lookup_delete_ne by done. done.
    + rewrite !lookup_insert_ne by done.
      destruct (a_nodes a !! name); constructor. apply same_anode_refl.
  - intros q Hq _. destruct (decide (q = p)) as [->|Hne].
    + rewrite fn_lookup_insert. symmetry. apply set_NodeName_id.
      destruct (entered_Name (left n Running r) s1 r) as (-> & _).
      destruct (left_Name n Running r) as (-> & _). done.
    + rewrite fn_lookup_insert_ne by done. rewrite Hf by done.
      rewrite fn_lookup_insert_ne by done. by rewrite Hf0.
  - intros q Hq. destruct (decide (q = p)) as [->|Hne].
    + rewrite fn_lookup_insert. by repeat split.
    + rewrite fn_lookup_insert_ne by done. rewrite Hf by done.
      rewrite fn_lookup_insert_ne by done. rewrite Hf0 by done.
      apply same_task_refl.
Qed.

End abstract_facts.

(** ** The round trip of a statement: operations and their records *)

Section step_facts.
Context `{!Env}.

Lemma a_UpdateTaskStatus_frame (a : AWorld) (p : ptr) (s : TaskStatus) :
  let a' := a_UpdateTaskStatus a p s in
  a_jobs a' = a_jobs a ∧ a_nodes a' = a_nodes a
  ∧ (∀ q, q ≠ p → a_task a' q = a_task a q)
  ∧ (a_task a' p = a_task a p
     ∨ ti_Job (a_task a p) ∈ a_jobs a
       ∧ validateStatusUpdate (ti_Status (a_task a p)) s = true
       ∧ a_task a' p = set_Status (a_task a p) s).
Proof.
  cbv zeta. unfold a_UpdateTaskStatus.
  destruct (decide _); [|by auto].
  destruct (validateStatusUpdate _ _); [|by auto].
  simpl. split; [done|]. split; [done|]. split.
  - intros q Hq. by rewrite fn_lookup_insert_ne.
  - right. by rewrite fn_lookup_insert.
Qed.

Lemma a_session_AddTask_frame (a a' : AWorld) (p : ptr) (hostname : string) :
  a_session_AddTask a p hostname = Some a' →
  a_jobs a' = a_jobs a
  ∧ (∀ q, q ≠ p → a_task a' q = a_task a q)
  ∧ ti_Status (a_task a' p) = ti_Status (a_task a p).
Proof.
  unfold a_session_AddTask.
  destruct (a_nodes a !! hostname); [|done].
  destruct (a_AddTask _ _); [|done].
  intros [= <-]. simpl. split; [done|]. split.
  - intros q Hq. by rewrite fn_lookup_insert_ne.
  - by rewrite fn_lookup_insert.
Qed.

Lemma a_UpdateTask_frame (a a' : AWorld) (p : ptr) :
  a_UpdateTask a p = Some a' →
  a_jobs a' = a_jobs a
  ∧ (∀ q, q ≠ p → a_task a' q = a_task a q)
  ∧ ti_Status (a_task a' p) = ti_Status (a_task a p).
Proof.
  unfold a_UpdateTask.
  destruct (a_nodes a !! _); [|by intros [= <-]].
  destruct (an_tasks _ !! _); [|by intros [= <-]].
  destruct (a_AddTask _ _); [|done].
  intros [= <-]. simpl. split; [done|]. split.
  - intros q Hq. by rewrite fn_lookup_insert_ne.
  - by rewrite fn_lookup_insert.
Qed.

(** An operation changes no other task object, and leaves its own task in
    a status other than Pending. *)
Lemma a_step_frame (a a' : AWorld) (op : operation) :
  a_step a op a' →
  a_jobs a' = a_jobs a
  ∧ (∀ q, q ≠ op_task op → a_task a' q = a_task a q)
  ∧ ti_Status (a_task a' (op_task op)) ≠ Pending
  ∧ (op_name op ≠ "evict" → ti_Status (a_task a (op_task op)) = Pending).
Proof.
  intros [task hostname b a0 ? Hst Hjob Hval (Hj0 & Hn0 & Ht0 & Hf0) Hadd
         |task hostname a0 ? Hst Hjob Hval (Hj0 & Hn0 & Ht0 & Hf0) Hadd
         |reclaimee reason ? Hst Hcoh Hupd]; simpl.
  - apply a_session_AddTask_frame in Hadd as (Hj & Hf & Hs).
    split; [congruence|]. split; [|split; [|done]].
    + intros q Hq. by rewrite Hf, Hf0.
    + by rewrite Hs, Ht0.
  - apply a_session_AddTask_frame in Hadd as (Hj & Hf & Hs).
    split; [congruence|]. split; [|split; [|done]].
    + intros q Hq. by rewrite Hf, Hf0.
    + by rewrite Hs, Ht0.
  - apply a_UpdateTask_frame in Hupd as (Hj & Hf & Hs).
    destruct (a_UpdateTaskStatus_frame a reclaimee Releasing) as (Hj1 & _ & Hf1 & Hs1).
    split; [congruence|]. split; [|split; [|done]].
    + intros q Hq. by rewrite Hf, Hf1.
    + rewrite Hs. destruct Hs1 as [->|(_ & _ & ->)]; [by rewrite Hst|done].
Qed.

Lemma a_step_status (a a' : AWorld) (op : operation) (q : ptr) :
  a_step a op a' →
  ti_Status (a_task a q) ≠ Pending → ti_Status (a_task a' q) ≠ Pending.
Proof.
  intros Hstep Hq. destruct (a_step_frame _ _ _ Hstep) as (_ & Hf & Hown & _).
  destruct (decide (q = op_task op)) as [->|Hne]; [done|].
  by rewrite Hf.
Qed.

Lemma set_VolumeReady_id (t : TaskInfo) : set_VolumeReady t (ti_VolumeReady t) = t.
Proof. by destruct t. Qed.

Lemma placed_cons (op : operation) (ops : list operation) :
  placed (op :: ops)
  = (if decide (op_name op ≠ "evict") then {[op_task op]} else ∅) ∪ placed ops.
Proof.
  unfold placed. rewrite filter_cons.
  destruct (decide _); [by rewrite fmap_cons|].
  symmetry. apply (left_id_L ∅ (∪)).
Qed.

(** Every successful operation is undone by the inverse that [Discard]
    runs for its record. *)
Lemma a_step_round_trip (D : gset positive) (a a' : AWorld) (op : operation) :
  a_named a → rollback_allowed → LessEqual_respects_equiv →
  a_step a op a' →
  ∃ a0, a_undo a' op = Some a0 ∧ same_view D (placed [op]) a a0.
Proof.
  intros Hnamed (HvA & HvP & HvR) HLE Hstep.
  rewrite placed_cons. unfold placed at 1. simpl. rewrite (right_id_L ∅ (∪)).
  destruct Hstep as [task hostname b a0 a1 Hst Hjob Hval Hwith Hadd
                    |task hostname a0 a1 Hst Hjob Hval Hwith Hadd
                    |reclaimee reason a1 Hst Hcoh Hupd]; unfold a_undo; simpl.
  - eexists. split; [done|].
    by apply (place_round_trip D a a0 a1 task hostname b Allocated).
  - eexists. split; [done|].
    rewrite <- (set_VolumeReady_id (a_task a task)) in Hwith.
    by apply (place_round_trip D a a0 a1 task hostname
                (ti_VolumeReady (a_task a task)) Pipelined).
  - destruct (a_UpdateTaskStatus_frame a reclaimee Releasing) as (Hj1 & Hn1 & Hf1 & Hs1).
    set (a_s := a_UpdateTaskStatus a reclaimee Releasing) in *.
    assert (∃ s1, s1 ≠ Pipelined
                  ∧ (s1 = Releasing → ti_Job (a_task a reclaimee) ∈ a_jobs a)
                  ∧ (s1 = Releasing ∨ s1 = Running)
                  ∧ a_task a_s reclaimee = set_Status (a_task a reclaimee) s1)
      as (s1 & Hs1P & Hs1J & Hs1R & Hs1T).
    { destruct Hs1 as [->|(Hin & _ & ->)].
      - exists Running. split; [done|]. split; [done|]. split; [by right|].
        symmetry. by apply set_Status_id.
      - exists Releasing. split; [done|]. split; [done|]. split; [by left|done]. }
    destruct (update_round_trip D a a_s a1 reclaimee s1 Hnamed HLE Hst Hcoh Hs1P)
      as (Hj & Ht & Hback); [by split; [|split; [|split]]|done|].
    apply Hback.
    destruct (a_UpdateTaskStatus_frame a1 reclaimee Running) as (Hj2 & Hn2 & Hf2 & Hs2).
    split; [done|]. split; [done|]. split; [|done].
    assert (Hrestore : set_Status (a_task a1 reclaimee) Running = a_task a reclaimee).
    { rewrite Ht. destruct (a_task a reclaimee); simpl in *. by subst. }
    clear Hs2. unfold a_UpdateTaskStatus. rewrite Ht. simpl. rewrite Hj.
    destruct (decide _) as [Hin|Hout].
    + destruct (validateStatusUpdate s1 Running) eqn:Ev.
      * simpl. rewrite fn_lookup_insert. by rewrite <- Hrestore, Ht.
      * rewrite Ht. destruct Hs1R as [->| ->]; [congruence|].
        by apply set_Status_id.
    + rewrite Ht. destruct Hs1R as [->| ->]; [by destruct Hout; auto|].
      by apply set_Status_id.
Qed.

End step_facts.

(** ** The round trip of a statement: from the session to its view *)

Section discard_facts.
Context `{!Env}.

Lemma well_formed_same (D : gset positive) (w w' : World) :
  ssn w' = ssn w → heap w' = heap w → well_formed D w → well_formed D w'.
Proof. unfold well_formed, stored. by intros -> ->. Qed.

Lemma abs_same (D : gset positive) (w w' : World) (a : AWorld) :
  ssn w' = ssn w → heap w' = heap w → abs D w a → abs D w' a.
Proof. unfold abs. by intros -> ->. Qed.

Lemma a_with_set (a : AWorld) (p : ptr) (t : TaskInfo) :
  a_with a p t (set_a_task a p t).
Proof.
  split; [done|]. split; [done|]. split; simpl.
  - by rewrite fn_lookup_insert.
  - intros q Hq. by rewrite fn_lookup_insert_ne.
Qed.

Lemma abs_write_D (D : gset positive) (w w' : World) (a a0 : AWorld) (p : ptr)
    (t' : TaskInfo) :
  well_formed D w → abs D w a → p ∈ D →
  ssn w' = ssn w → heap w' = <[p := t']> (heap w) →
  a_with a p t' a0 →
  well_formed D w' ∧ abs D w' a0.
Proof.
  intros Hwf (Hj & Hn & Ht) Hp Hs Hh (Hj0 & Hn0 & Ht0 & Hf0). split.
  - destruct Hwf as (HD & Hst & Hnm). unfold well_formed, stored.
    rewrite Hs, Hh. split; [|split; [|done]].
    + intros q Hq. rewrite dom_insert. apply elem_of_union. right. by apply HD.
    + intros c Hc. destruct (Hst c Hc) as [? ?]. split; [done|].
      rewrite dom_insert. apply elem_of_union. by right.
  - unfold abs. rewrite Hs, Hh. split; [congruence|]. split.
    + rewrite Hn0, Hn. symmetry. by apply (abs_nodes_insert_D D).
    + intros q Hq. destruct (decide (q = p)) as [->|Hne].
      * by rewrite lookup_total_insert_eq.
      * rewrite lookup_total_insert_ne by done. rewrite Hf0 by done. by apply Ht.
Qed.

Lemma abs_named (D : gset positive) (w : World) (a : AWorld) :
  well_formed D w → abs D w a → a_named a.
Proof.
  intros (_ & _ & Hnm) (_ & Hn & _) k an. rewrite Hn, lookup_fmap.
  destruct (ssn_Nodes (ssn w) !! k) as [n|] eqn:En; [|done].
  intros [= <-]. simpl. by apply Hnm.
Qed.

Lemma abs_coherent (D : gset positive) (w : World) (a : AWorld) (p : ptr) :
  abs D w a → p ∈ D → evict_coherent w p → a_coherent a p.
Proof.
  intros (_ & Hn & Ht) Hp Hcoh an v. rewrite (Ht p Hp), Hn, lookup_fmap.
  destruct (ssn_Nodes (ssn w) !! _) as [n|] eqn:En; [|done].
  intros [= <-]. simpl. rewrite lookup_fmap.
  destruct (ni_Tasks n !! _) as [c|] eqn:Ec; [|done].
  intros [= <-]. by apply (Hcoh n c).
Qed.

(** A successful operation of the session is a successful operation on
    its view. *)
Lemma abs_step_ok (D : gset positive) (w w' : World) (a : AWorld) (op : operation) :
  well_formed D w → abs D w a → step_ok D w op w' →
  op_task op ∈ D
  ∧ ∃ a', a_step a op a' ∧ well_formed D w' ∧ abs D w' a'.
Proof.
  intros Hwf Habs
    [task hostname ? Hp Hst HA|task hostname ? Hp Hst HP
    |reclaimee reason ? Hp Hst Hcoh HE]; (split; [done|]);
    pose proof Habs as (Hj & Hn & Ht).
  - unfold Allocate, AllocateVolumes in HA. simpl in HA.
    destruct (AssumePodVolumes _ _) as [b [e|]] eqn:EV; [done|].
    set (w1 := set_heap (emit w [CallAllocateVolumes task hostname])
                 (<[task := set_VolumeReady (heap w !!! task) b]> (heap w))) in *.
    destruct (abs_write_D D w w1 a
                (set_a_task a task (set_VolumeReady (heap w !!! task) b))
                task (set_VolumeReady (heap w !!! task) b))
      as (Hwf1 & Habs1); [done|done|done|done|done|apply a_with_set|].
    destruct (abs_session_UpdateTaskStatus D w1 _ task Allocated Hwf1 Habs1 Hp)
      as (Hwf2 & Habs2 & Hiff).
    destruct (session_UpdateTaskStatus w1 task Allocated) as [[[e|]|] w2] eqn:E2;
      try done.
    destruct Hiff as [Hiff _]. destruct (Hiff eq_refl) as (Hjob & Hval).
    simpl in Hjob, Hval, Hwf2, Habs2.
    rewrite lookup_total_insert_eq in Hjob, Hval. simpl in Hjob, Hval.
    unfold a_UpdateTaskStatus in Habs2. simpl in Habs2.
    rewrite fn_lookup_insert in Habs2. simpl in Habs2.
    rewrite decide_True, Hval in Habs2 by done.
    pose proof (abs_session_AddTask D w2 _ task hostname Hwf2 Habs2 Hp) as Hadd.
    destruct (session_AddTask w2 task hostname) as [[e|] w3]; [done|].
    destruct Hadd as (a' & Ha' & Hwf3 & Habs3). injection HA as <-.
    exists a'. split; [|split].
    + rewrite <- (Ht task Hp) in *.
      eapply (a_step_allocate a task hostname b); [done|done|by rewrite <- Hst| |exact Ha'].
      split; [done|]. split; [done|]. split; simpl.
      * by rewrite fn_lookup_insert.
      * intros q Hq. by rewrite !fn_lookup_insert_ne.
    + by apply (well_formed_same D w3).
    + by apply (abs_same D w3).
  - unfold Pipeline in HP.
    destruct (abs_session_UpdateTaskStatus D w a task Pipelined Hwf Habs Hp)
      as (Hwf2 & Habs2 & Hiff).
    destruct (session_UpdateTaskStatus w task Pipelined) as [[[e|]|] w2] eqn:E2;
      try done.
    destruct Hiff as [Hiff _]. destruct (Hiff eq_refl) as (Hjob & Hval).
    simpl in Hwf2, Habs2.
    unfold a_UpdateTaskStatus in Habs2. rewrite (Ht task Hp) in Habs2.
    rewrite decide_True, Hval in Habs2 by done.
    pose proof (abs_session_AddTask D w2 _ task hostname Hwf2 Habs2 Hp) as Hadd.
    destruct (session_AddTask w2 task hostname) as [[e|] w3]; [done|].
    destruct Hadd as (a' & Ha' & Hwf3 & Habs3). injection HP as <-.
    exists a'. split; [|split].
    + rewrite <- (Ht task Hp) in *.
      eapply (a_step_pipeline a task hostname); [done|done|by rewrite <- Hst| |exact Ha'].
      apply a_with_set.
    + by apply (well_formed_same D w3).
    + by apply (abs_same D w3).
  - unfold Evict in HE.
    destruct (abs_session_UpdateTaskStatus D w a reclaimee Releasing Hwf Habs Hp)
      as (Hwf1 & Habs1 & _).
    pose proof (abs_session_UpdateTask D _ _ reclaimee Hwf1 Habs1 Hp) as Hupd.
    destruct (session_UpdateTask _ reclaimee) as [w2|]; [|done].
    destruct Hupd as (a' & Ha' & Hwf2 & Habs2). injection HE as <-.
    exists a'. split; [|split].
    + apply a_step_evict; [by rewrite (Ht reclaimee Hp)| |done].
      by apply (abs_coherent D w).
    + by apply (well_formed_same D w2).
    + by apply (abs_same D w2).
Qed.

End discard_facts.

(** ** Discard undoes a statement *)

Section discard_round_trip.
Context `{!Env}.

Lemma session_AddTask_operations (w w' : World) (p : ptr) (hostname : string)
    (e : option error) :
  session_AddTask w p hostname = (e, w') → operations w' = operations w.
Proof.
  unfold session_AddTask.
  destruct (ssn_Nodes (ssn w) !! hostname); [|by intros [= _ <-]].
  destruct (AddTask _ _ _) as [[[?|] ?] ?]; by intros [= _ <-].
Qed.

Lemma step_ok_operations (D : gset positive) (w w' : World) (op : operation) :
  step_ok D w op w' → operations w' = operations w ++ [op].
Proof.
  intros [task hostname ? Hp Hst HA|task hostname ? Hp Hst HP
         |reclaimee reason ? Hp Hst Hcoh HE].
  - unfold Allocate in HA.
    destruct (AllocateVolumes _ _ _) as [[e|] h1]; [done|].
    destruct (session_UpdateTaskStatus _ task Allocated) as [[[e|]|] w2] eqn:E2;
      try done.
    apply session_UpdateTaskStatus_ok in E2 as (_ & _ & Hops2).
    destruct (session_AddTask w2 task hostname) as [[e|] w3] eqn:E3; [done|].
    apply session_AddTask_operations in E3.
    injection HA as <-. simpl. by rewrite E3, Hops2.
  - unfold Pipeline in HP.
    destruct (session_UpdateTaskStatus _ task Pipelined) as [[[e|]|] w2] eqn:E2;
      try done.
    apply session_UpdateTaskStatus_ok in E2 as (_ & _ & Hops2).
    destruct (session_AddTask w2 task hostname) as [[e|] w3] eqn:E3; [done|].
    apply session_AddTask_operations in E3.
    injection HP as <-. simpl. by rewrite E3, Hops2.
  - unfold Evict in HE.
    destruct (session_UpdateTask _ reclaimee) as [w2|] eqn:E2; [|done].
    apply session_UpdateTask_operations in E2.
    injection HE as <-. simpl.
    by rewrite E2, session_UpdateTaskStatus_operations.
Qed.

Lemma run_operations (D : gset positive) (w w' : World) (ops : list operation) :
  run D w ops w' → operations w' = operations w ++ ops.
Proof.
  induction 1 as [w|w op w1 ops w2 Hstep Hrun IH].
  - by rewrite app_nil_r.
  - rewrite IH, (step_ok_operations _ _ _ _ Hstep). by rewrite <- app_assoc.
Qed.

(** A task that is not Pending is not placed by a later operation. *)
Lemma run_keeps_placed (D : gset positive) (w w' : World) (ops : list operation)
    (a : AWorld) (p : ptr) :
  run D w ops w' → well_formed D w → abs D w a →
  ti_Status (a_task a p) ≠ Pending → p ∉ placed ops.
Proof.
  intros Hrun. revert a.
  induction Hrun as [w|w op w1 ops w2 Hstep Hrun IH]; intros a Hwf Habs Hp.
  - unfold placed. simpl. apply not_elem_of_empty.
  - destruct (abs_step_ok D w w1 a op Hwf Habs Hstep)
      as (HpD & a1 & Hastep & Hwf1 & Habs1).
    rewrite placed_cons. intros [Hin|Hin]%elem_of_union.
    + destruct (decide (op_name op ≠ "evict")) as [Hname|_].
      * apply elem_of_singleton in Hin as ->.
        destruct (a_step_frame _ _ _ Hastep) as (_ & _ & _ & Hpend). auto.
      * by apply elem_of_empty in Hin.
    + revert Hin. apply (IH a1); [done|done|].
      by apply (a_step_status a a1 op).
Qed.

Lemma placed_split (op : operation) (ops : list operation) :
  placed (op :: ops) = placed [op] ∪ placed ops.
Proof.
  rewrite !placed_cons. unfold placed at 2. simpl.
  by rewrite (right_id_L ∅ (∪)).
Qed.

(** Undoing the records of a run, last first, leads back to a session
    whose view agrees with the view at the beginning. *)
Lemma run_undo (D : gset positive) (w wn : World) (ops : list operation)
    (a : AWorld) :
  rollback_allowed → LessEqual_respects_equiv →
  run D w ops wn → well_formed D w → abs D w a →
  ∃ w' a', run_ops Discard_op (reverse ops) wn = Ret w'
           ∧ well_formed D w' ∧ abs D w' a'
           ∧ same_view D (placed ops) a a'.
Proof.
  intros Hroll HLE Hrun. revert a.
  induction Hrun as [w|w op w1 ops w2 Hstep Hrun IH]; intros a Hwf Habs.
  - exists w, a. split; [done|]. split; [done|]. split; [done|].
    apply same_view_refl.
  - destruct (abs_step_ok D w w1 a op Hwf Habs Hstep)
      as (HpD & a1 & Hastep & Hwf1 & Habs1).
    destruct (IH a1 Hwf1 Habs1) as (w1' & b1 & Hundo & Hwfb & Habsb & Hsv).
    rewrite reverse_cons, run_ops_app, Hundo. simpl.
    destruct (a_step_round_trip D a a1 op (abs_named D w a Hwf Habs) Hroll HLE Hastep)
      as (a0 & Ha0 & Hsv0).
    assert (Hfresh : op_task op ∉ placed ops).
    { apply (run_keeps_placed D w1 w2 ops a1); [done|done|done|].
      by destruct (a_step_frame _ _ _ Hastep) as (_ & _ & Hown & _). }
    destruct (a_undo_same D (placed ops) a1 b1 a0 op HLE Hsv HpD Hfresh Ha0)
      as (b0 & Hb0 & Hsvb).
    pose proof (abs_Discard_op D w1' b1 op Hwfb Habsb HpD) as Hd.
    destruct (Discard_op w1' op) as [w0'|msg]; [|congruence].
    destruct Hd as (a' & Ha' & Hwf' & Habs').
    assert (a' = b0) as -> by congruence.
    exists w0', b0. split; [done|]. split; [done|]. split; [done|].
    rewrite placed_split. by apply (same_view_trans D _ _ a a0 b0).
Qed.

(** [Discard] undoes a statement.  Let the statement have journaled, from
    an empty journal, successful operations on task objects of [D]:
    [Allocate] and [Pipeline] of Pending tasks, [Evict] of Running tasks
    that agree with the copy their node holds; let the transitions back
    (Allocated and Pipelined to Pending, Releasing to Running) be allowed.
    Then [Discard] returns, and in the session it leaves every node is as it
    was before the first operation (Idle, Used, Releasing and Pipelined
    equal in every dimension, the same tasks held with the same status and
    request), the session knows the same jobs, and every task object of [D]
    has its status again: it is as it was, but for NodeName and
    VolumeReady, which [Allocate] and [Pipeline] set and no inverse
    resets. *)
Theorem Discard_restores_session (D : gset positive) (w0 wn : World)
    (ops : list operation) :
  rollback_allowed → LessEqual_respects_equiv →
  well_formed D w0 → operations w0 = [] → run D w0 ops wn →
  ∃ w', Discard wn = Ret w'
        ∧ dom (ssn_Jobs (ssn w')) = dom (ssn_Jobs (ssn w0))
        ∧ (∀ name,
             option_Forall2 (node_restored (heap w0) (heap w'))
               (ssn_Nodes (ssn w0) !! name) (ssn_Nodes (ssn w') !! name))
        ∧ (∀ p, p ∈ D → same_task (heap w0 !!! p) (heap w' !!! p))
        ∧ (∀ p, p ∈ D → p ∉ placed ops → heap w' !!! p = heap w0 !!! p).
Proof.
  intros Hroll HLE Hwf Hops Hrun.
  set (a := mkAWorld (dom (ssn_Jobs (ssn w0)))
              (abs_node (heap w0) <$> ssn_Nodes (ssn w0))
              (λ p, heap w0 !!! p)).
  assert (Habs : abs D w0 a) by done.
  destruct (run_undo D w0 wn ops a Hroll HLE Hrun Hwf Habs)
    as (w' & a' & Hundo & Hwf' & (Hj' & Hn' & Ht') & (Hsj & Hsn & Hst & Hss)).
  exists w'. unfold Discard.
  rewrite (run_operations D w0 wn ops Hrun), Hops. simpl.
  split; [done|]. split; [by rewrite <- Hj', <- Hsj|]. split; [|split].
  - intros name. specialize (Hsn name). rewrite Hn' in Hsn. simpl in Hsn.
    rewrite !lookup_fmap in Hsn.
    destruct (ssn_Nodes (ssn w0) !! name) as [n|],
             (ssn_Nodes (ssn w') !! name) as [n'|];
      inversion Hsn as [? ? [Hnode Htasks]|]; subst; constructor.
    destruct Hnode as (?&?&?&?&?&?&?&?&?&?). simpl in *.
    unfold node_restored, same_vectors. by split_and!.
  - intros p Hp. specialize (Hss p Hp). by rewrite (Ht' p Hp) in Hss.
  - intros p Hp HpP. specialize (Hst p Hp HpP). by rewrite (Ht' p Hp) in Hst.
Qed.

End discard_round_trip.

(** The exact comparison looks at the quantities only. *)
Lemma LessEqual_exact_spec (r rr : Resource) :
  LessEqual_exact r rr = true ↔
  (MilliCPU r ≤ MilliCPU rr)%Z ∧ (Memory r ≤ Memory rr)%Z
  ∧ ∀ n, (scalar r n ≤ scalar rr n)%Z.
Proof.
  unfold LessEqual_exact. rewrite !andb_true_iff, !bool_decide_eq_true.
  split.
  - intros [[? ?] Hall]. split; [done|]. split; [done|]. intros n.
    destruct (decide (n ∈ dom (ScalarResources r) ∪ dom (ScalarResources rr)))
      as [Hin|Hout]; [by apply Hall|].
    apply not_elem_of_union in Hout as [Hr Hrr].
    apply not_elem_of_dom in Hr, Hrr. unfold scalar. by rewrite Hr, Hrr.
  - intros (? & ? & Hall). split; [done|]. intros n _. apply Hall.
Qed.

Lemma LessEqual_exact_respects : @LessEqual_respects_equiv exact_env.
Proof.
  intros r a b (Hc & Hm & Hs). simpl.
  apply eq_true_iff_eq. rewrite !LessEqual_exact_spec.
  rewrite Hc, Hm. split; intros (? & ? & Hall); (split; [done|split; [done|]]);
    intros n; specialize (Hall n); specialize (Hs n); lia.
Qed.

Lemma trip_world_well_formed : well_formed trip_tasks trip_world.
Proof.
  split; [|split].
  - apply (bool_decide_unpack _). by vm_compute.
  - intros c (k & n & key & Hk & Hc). simpl in Hk.
    apply lookup_singleton_Some in Hk as [<- <-]. simpl in Hc.
    apply lookup_singleton_Some in Hc as [<- <-].
    split; apply (bool_decide_unpack _); by vm_compute.
  - intros k n Hk. simpl in Hk. by apply lookup_singleton_Some in Hk as [<- <-].
Qed.

Lemma trip_run : @run exact_env trip_tasks trip_world trip_ops trip_world2.
Proof.
  apply (run_cons _ _ _ trip_world1).
  - apply ok_Allocate; [|by vm_compute|by vm_compute].
    apply (bool_decide_unpack _). by vm_compute.
  - apply (run_cons _ _ _ trip_world2); [|apply run_nil].
    apply ok_Evict; [|by vm_compute| |by vm_compute].
    + apply (bool_decide_unpack _). by vm_compute.
    + intros n c Hn Hc. vm_compute in Hn. injection Hn as <-.
      vm_compute in Hc. injection Hc as <-. by vm_compute.
Qed.

Lemma Discard_restores_session_witness :
  ∃ w', @Discard exact_env trip_world2 = Ret w'
        ∧ ti_Status (heap w' !!! 1%positive) = Pending
        ∧ ti_Status (heap w' !!! 2%positive) = Running
        ∧ option_Forall2 (node_restored (heap trip_world) (heap w'))
            (ssn_Nodes (ssn trip_world) !! "n1") (ssn_Nodes (ssn w') !! "n1").
Proof.
  destruct (@Discard_restores_session exact_env trip_tasks trip_world trip_world2
              trip_ops) as (w' & Hd & _ & Hn & Ht & _).
  - by repeat split.
  - exact LessEqual_exact_respects.
  - exact trip_world_well_formed.
  - reflexivity.
  - exact trip_run.
  - exists w'. split; [exact Hd|].
    assert (H1 : (1%positive : positive) ∈ trip_tasks)
      by (apply (bool_decide_unpack _); by vm_compute).
    assert (H2 : (2%positive : positive) ∈ trip_tasks)
      by (apply (bool_decide_unpack _); by vm_compute).
    destruct (Ht _ H1) as (_ & _ & _ & _ & _ & Hs1 & _).
    destruct (Ht _ H2) as (_ & _ & _ & _ & _ & Hs2 & _).
    split; [by rewrite <- Hs1|]. split; [by rewrite <- Hs2|]. apply Hn.
Defined.

(** ** NodeInfo: errors, round trips and clones *)

Section node_extras.
Context `{!Env}.

(** [AddTask] fails in exactly three cases: the task names another node,
    the node already holds a task under the same key, or (on a node with a
    [v1.Node], for a task that is not Pipelined) the request is not
    LessEqual Idle.  Whenever it fails, the node and every task object are
    as they were, as the comment of the method promises. *)
Theorem AddTask_fails_unchanged (ni : NodeInfo) (task : ptr)
    (h : gmap positive TaskInfo) :
  let t := h !!! task in
  (is_Some (AddTask ni task h).1.1 ↔
     on_other_node ni t = true
     ∨ is_Some (ni_Tasks ni !! PodKey (ti_Pod t))
     ∨ fits ni (ti_Status t) (ti_Resreq t) = false)
  ∧ (is_Some (AddTask ni task h).1.1 →
     (AddTask ni task h).1.2 = ni ∧ (AddTask ni task h).2 = h).
Proof.
  cbv zeta. rewrite AddTask_unfold. cbv zeta.
  destruct (on_other_node _ _).
  { simpl. split; [|done]. split; [by left|by eexists]. }
  destruct (ni_Tasks ni !! _) as [c|].
  { simpl. split; [|done]. split; [right; left; by eexists|by eexists]. }
  destruct (fits _ _ _); simpl.
  - split.
    + split; [by intros [? ?]|]. intros [?|[[? ?]|?]]; done.
    + by intros [? ?].
  - split; [|done]. split; [by right; right|by eexists].
Qed.

(** [RemoveTask] undoes [AddTask]: removing a task that was added leaves
    the node as it was before the addition (the vectors equal in every
    dimension, the same tasks held), whatever status the caller's task
    object has been given in between, since the removal accounts with the
    node's own copy. *)
Theorem RemoveTask_undoes_AddTask (ni ni1 : NodeInfo) (task : ptr)
    (h h1 : gmap positive TaskInfo) (s : TaskStatus) :
  AddTask ni task h = (None, ni1, h1) →
  ∃ ni2,
    RemoveTask ni1 task (<[task := set_Status (h1 !!! task) s]> h1) = (None, ni2)
    ∧ same_node ni ni2.
Proof.
  rewrite AddTask_unfold. cbv zeta.
  destruct (on_other_node _ _); [done|].
  destruct (ni_Tasks ni !! _) eqn:Hkey; [done|].
  destruct (fits _ _ _); [|done].
  set (t := h !!! task).
  intros [= <- <-].
  destruct (fresh_after_insert h task (set_NodeName t (ni_Name ni))) as [Hct Hch].
  set (c := fresh (dom (<[task := set_NodeName t (ni_Name ni)]> h))) in *.
  rewrite RemoveTask_unfold. cbv zeta.
  rewrite lookup_total_insert_eq. simpl.
  rewrite (lookup_total_insert_ne _ c task) by done.
  rewrite lookup_total_insert_eq. simpl. fold t.
  rewrite lookup_insert_eq.
  rewrite (lookup_total_insert_ne _ task c) by done.
  rewrite lookup_total_insert_eq. simpl.
  eexists. split; [done|].
  rewrite left_set_Tasks.
  destruct (left_entered ni (ti_Status t) (ti_Resreq t))
    as (?&?&?&?&?&?&?&?&?&?).
  split_and!; simpl; try done.
  by rewrite delete_insert_eq, delete_id.
Qed.

(** A task that a node holds cannot be added again: not to the same node
    (its key is taken), and not to a node of another name (the task now
    names its node), as long as both nodes have a name. *)
Theorem AddTask_is_exclusive (ni ni1 other : NodeInfo) (task : ptr)
    (h h1 : gmap positive TaskInfo) :
  AddTask ni task h = (None, ni1, h1) →
  AddTask ni1 task h1 = (Some (mkError "task already on node"), ni1, h1)
  ∧ (ni_Name ni ≠ "" → ni_Name other ≠ "" → ni_Name other ≠ ni_Name ni →
     AddTask other task h1
     = (Some (mkError "task already on different node"), other, h1)).
Proof.
  rewrite AddTask_unfold. cbv zeta.
  destruct (on_other_node ni _) eqn:Hother; [done|].
  destruct (ni_Tasks ni !! _) eqn:Hkey; [done|].
  destruct (fits _ _ _); [|done].
  set (t := h !!! task).
  intros [= <- <-].
  destruct (fresh_after_insert h task (set_NodeName t (ni_Name ni))) as [Hct Hch].
  set (c := fresh (dom (<[task := set_NodeName t (ni_Name ni)]> h))) in *.
  rewrite !AddTask_unfold. cbv zeta.
  rewrite (lookup_total_insert_ne _ c task) by done.
  rewrite lookup_total_insert_eq. simpl. fold t.
  destruct (entered_Name ni (ti_Status t) (ti_Resreq t)) as (Hname & _).
  split.
  - unfold on_other_node. simpl. rewrite Hname.
    rewrite (bool_decide_eq_true_2 (ni_Name ni = ni_Name ni)) by done.
    rewrite andb_false_r. by rewrite lookup_insert_eq.
  - intros Hn Ho Hne. unfold on_other_node. simpl.
    assert (Hlen : ∀ s : string, s ≠ "" → (0 < String.length s)%nat).
    { intros [|? ?] Hs; [done|simpl; lia]. }
    rewrite !bool_decide_eq_true_2 by auto.
    by rewrite bool_decide_eq_false_2 by auto.
Qed.

(** [UpdateTask] returns an error only when the node holds no task under
    the key, and then nothing is changed.  When the task is found, there
    is no error to return: either the copy is replaced by a copy of the
    caller's task as it is now, the vectors being those of the node with
    the old copy removed and the new one entered, or the process is ended,
    which happens exactly when the task names another node or does not fit
    once the old copy is removed. *)
Theorem UpdateTask_outcomes (ni : NodeInfo) (ti : ptr) (h : gmap positive TaskInfo) :
  let t := h !!! ti in
  let key := PodKey (ti_Pod t) in
  match ni_Tasks ni !! key with
  | None =>
      UpdateTask ni ti h = Ret (Some (mkError "failed to find task on host"), ni, h)
  | Some c =>
      let ni1 := left ni (ti_Status (h !!! c)) (ti_Resreq (h !!! c)) in
      if on_other_node ni t || negb (fits ni1 (ti_Status t) (ti_Resreq t))
      then ∃ msg, UpdateTask ni ti h = Fatal msg
      else ∃ ni2 h2 c2,
             UpdateTask ni ti h = Ret (None, ni2, h2)
             ∧ ni_Tasks ni2 = <[key := c2]> (ni_Tasks ni)
             ∧ (c2 ∉ dom h)
             ∧ h2 !!! c2 = set_NodeName t (ni_Name ni)
             ∧ set_Tasks ni2 ∅
               = set_Tasks (entered ni1 (ti_Status t) (ti_Resreq t)) ∅
  end.
Proof.
  cbv zeta. unfold UpdateTask. rewrite RemoveTask_unfold. cbv zeta.
  destruct (ni_Tasks ni !! _) as [c|] eqn:Hkey; [|done].
  rewrite AddTask_unfold. cbv zeta. simpl.
  set (t := h !!! ti). set (sc := ti_Status (h !!! c)). set (rc := ti_Resreq (h !!! c)).
  destruct (left_Name ni sc rc) as (Hname & Hnode & Htasks).
  assert (Hoth : on_other_node (set_Tasks (left ni sc rc) (delete (PodKey (ti_Pod t)) (ni_Tasks ni))) t
                 = on_other_node ni t).
  { unfold on_other_node. simpl. by rewrite Hname. }
  assert (Hfit : fits (set_Tasks (left ni sc rc) (delete (PodKey (ti_Pod t)) (ni_Tasks ni)))
                   (ti_Status t) (ti_Resreq t)
                 = fits (left ni sc rc) (ti_Status t) (ti_Resreq t)).
  { by unfold fits. }
  rewrite Hoth, Hfit, lookup_delete_eq.
  destruct (on_other_node ni t); simpl; [by eexists|].
  destruct (fits _ _ _); simpl; [|by eexists].
  destruct (fresh_after_insert h ti (set_NodeName t (ni_Name (left ni sc rc))))
    as [Hct Hch].
  eexists _, _, _. split; [done|]. simpl.
  split; [by rewrite insert_delete_eq|]. split; [exact Hch|].
  split; [by rewrite lookup_total_insert_eq, Hname|].
  by rewrite entered_set_Tasks.
Qed.

End node_extras.

Lemma RemoveTask_undoes_AddTask_witness :
  ∃ ni1 h1 ni2,
    @AddTask exact_env sample_node_info 1%positive sample_heap = (None, ni1, h1)
    ∧ @RemoveTask exact_env ni1 1%positive
        (<[1%positive := set_Status (h1 !!! 1%positive) Pending]> h1) = (None, ni2)
    ∧ same_node sample_node_info ni2.
Proof.
  set (r := @AddTask exact_env sample_node_info 1%positive sample_heap).
  assert (E : r = (None, r.1.2, r.2)) by (by vm_compute).
  destruct (@RemoveTask_undoes_AddTask exact_env _ _ _ _ _ Pending E)
    as (ni2 & HR & Hs).
  exists r.1.2, r.2, ni2. split; [exact E|]. split; [exact HR|exact Hs].
Defined.

Lemma AddTask_is_exclusive_witness :
  ∃ ni1 h1,
    @AddTask exact_env sample_node_info 1%positive sample_heap = (None, ni1, h1)
    ∧ @AddTask exact_env ni1 1%positive h1
      = (Some (mkError "task already on node"), ni1, h1)
    ∧ @AddTask exact_env unready_node 1%positive h1
      = (Some (mkError "task already on different node"), unready_node, h1).
Proof.
  set (r := @AddTask exact_env sample_node_info 1%positive sample_heap).
  assert (E : r = (None, r.1.2, r.2)) by (by vm_compute).
  destruct (@AddTask_is_exclusive exact_env _ _ unready_node _ _ _ E) as (H1 & H2).
  exists r.1.2, r.2. split; [exact E|]. split; [exact H1|].
  by apply H2.
Defined.

Section clone_facts.
Context `{!Env}.

Lemma entered_fields (n : NodeInfo) (s : TaskStatus) (r : Resource) :
  ni_State (entered n s r) = ni_State n
  ∧ ni_Allocatable (entered n s r) = ni_Allocatable n
  ∧ ni_Capability (entered n s r) = ni_Capability n.
Proof.
  unfold entered. destruct (ni_Node n); [|done].
  by destruct (charge_fields n s r) as (_ & _ & ? & ? & ? & _).
Qed.

Lemma NewNodeInfo_accounted (node : option Node) : accounted (NewNodeInfo node).
Proof.
  unfold accounted, NewNodeInfo, setNodeState.
  destruct node as [n|]; simpl; [destruct (LessEqual _ _); simpl|]; res_solve.
Qed.

Lemma set_NodeName_twice (t : TaskInfo) (x y : string) :
  set_NodeName (set_NodeName t x) y = set_NodeName t y.
Proof. done. Qed.

Lemma Clone_round_invariant (h : gmap positive TaskInfo) (fresh_node : NodeInfo)
    (L : list positive) (acc : NodeInfo * gmap positive TaskInfo) (p : ptr) :
  p ∈ dom h → p ∈ L →
  clone_invariant h fresh_node L acc →
  clone_invariant h fresh_node L
    (let '(_, res, h') := AddTask acc.1 p acc.2 in (res, h')).
Proof.
  intros Hp HpL Hinv. destruct acc as [ni ha]. simpl.
  rewrite AddTask_unfold. cbv zeta.
  destruct (on_other_node _ _); [done|].
  destruct (ni_Tasks ni !! _) eqn:Hkey; [done|].
  destruct (fits _ _ _); [|done].
  destruct Hinv as (Hname & Hnode & Hstate & Hal & Hcap & Hacc & Hdom & Hobj & Htasks).
  simpl in *.
  set (t := ha !!! p) in *.
  destruct (fresh_after_insert ha p (set_NodeName t (ni_Name ni))) as [Hcp Hch].
  set (c := fresh (dom (<[p := set_NodeName t (ni_Name ni)]> ha))) in *.
  destruct (entered_Name ni (ti_Status t) (ti_Resreq t)) as (En & Eo & _).
  destruct (entered_fields ni (ti_Status t) (ti_Resreq t)) as (Es & Ea & Ec).
  assert (Ht : set_NodeName t (ni_Name ni) = set_NodeName (h !!! p) (ni_Name fresh_node)).
  { rewrite Hname. unfold t. by destruct (Hobj p Hp) as [-> | ->]. }
  assert (HcD : c ∉ dom h) by (intros Hin; by apply Hch, Hdom).
  unfold clone_invariant. simpl.
  split; [congruence|]. split; [congruence|]. split; [congruence|].
  split; [congruence|]. split; [congruence|].
  split; [by apply (entered_accounted ni)|].
  split.
  { intros q Hq. rewrite !dom_insert. apply elem_of_union. right.
    apply elem_of_union. right. by apply Hdom. }
  split.
  - intros q Hq. rewrite lookup_total_insert_ne by (by intros ->).
    destruct (decide (q = p)) as [->|Hne].
    + rewrite lookup_total_insert_eq. by right.
    + rewrite lookup_total_insert_ne by done. by apply Hobj.
  - intros key c'. rewrite lookup_insert. case_decide as Hk.
    + intros [= <-]. split; [done|]. split.
      { rewrite dom_insert. apply elem_of_union. left. by apply elem_of_singleton. }
      exists p. split; [done|]. rewrite lookup_total_insert_eq.
      split; [|done]. subst key. unfold t.
      by destruct (Hobj p Hp) as [-> | ->].
    + intros Hc'. destruct (Htasks key c' Hc') as (Hc'h & Hc'a & q & Hq & Hkq & Hcq).
      split; [done|]. split.
      { rewrite !dom_insert. apply elem_of_union. right.
        apply elem_of_union. by right. }
      exists q. split; [done|]. split; [done|].
      rewrite lookup_total_insert_ne by (by intros ->).
      rewrite lookup_total_insert_ne by (by intros ->). done.
Qed.

Lemma Clone_loop_invariant (h : gmap positive TaskInfo) (fresh_node : NodeInfo)
    (L l : list positive) (acc : NodeInfo * gmap positive TaskInfo) :
  (∀ p, p ∈ l → p ∈ dom h ∧ p ∈ L) →
  clone_invariant h fresh_node L acc →
  clone_invariant h fresh_node L
    (foldl (λ (acc : NodeInfo * gmap positive TaskInfo) p,
              let '(_, res, h') := AddTask acc.1 p acc.2 in (res, h')) acc l).
Proof.
  revert acc. induction l as [|p l IH]; intros acc Hl Hinv; simpl; [done|].
  apply IH; [intros q Hq; apply Hl; by right|].
  destruct (Hl p) as [? ?]; [by left|]. by apply Clone_round_invariant.
Qed.

(** [Clone] makes a new node for the same [v1.Node]: its name, state,
    Allocatable and Capability are those of [NewNodeInfo], not those of the
    original, and its accounts are balanced (Idle + Used = Allocatable)
    even if those of the original are not.  Every task it holds is a new
    object, a copy of a task of the original taken under the key of that
    task; no object that existed before is shared.  The tasks of the
    original are written to in one field only: their NodeName becomes the
    name of the clone. *)
Theorem Clone_is_a_balanced_copy (ni : NodeInfo) (h : gmap positive TaskInfo) :
  (∀ p, p ∈ tasks_of ni → p ∈ dom h) →
  let cl := (NodeInfo_Clone ni h).1 in
  let h' := (NodeInfo_Clone ni h).2 in
  let fresh_node := NewNodeInfo (ni_Node ni) in
  ni_Name cl = ni_Name fresh_node ∧ ni_Node cl = ni_Node ni
  ∧ ni_State cl = ni_State fresh_node
  ∧ ni_Allocatable cl = ni_Allocatable fresh_node
  ∧ ni_Capability cl = ni_Capability fresh_node
  ∧ accounted cl
  ∧ (∀ key c, ni_Tasks cl !! key = Some c →
       (c ∉ dom h)
       ∧ ∃ p, p ∈ tasks_of ni ∧ key = PodKey (ti_Pod (h !!! p))
              ∧ h' !!! c = set_NodeName (h !!! p) (ni_Name cl))
  ∧ (∀ p, p ∈ dom h →
       h' !!! p = h !!! p ∨ h' !!! p = set_NodeName (h !!! p) (ni_Name cl)).
Proof.
  intros Hlive. cbv zeta. unfold NodeInfo_Clone.
  destruct (Clone_loop_invariant h (NewNodeInfo (ni_Node ni)) (tasks_of ni)
              (tasks_of ni) (NewNodeInfo (ni_Node ni), h))
    as (Hname & Hnode & Hstate & Hal & Hcap & Hacc & Hdom & Hobj & Htasks).
  { intros p Hp. split; [by apply Hlive|done]. }
  { unfold clone_invariant. simpl.
    split_and!; try done.
    - apply NewNodeInfo_accounted.
    - intros p _. by left.
    - intros key c. unfold NewNodeInfo, setNodeState.
      destruct (ni_Node ni); simpl; [destruct (LessEqual _ _); simpl|];
        by rewrite lookup_empty. }
  rewrite Hname. split_and!; try done.
  - rewrite Hnode. unfold NewNodeInfo, setNodeState.
    destruct (ni_Node ni); simpl; [by destruct (LessEqual _ _)|done].
  - intros key c Hc. destruct (Htasks key c Hc) as (? & _ & p & ? & ? & ?).
    split; [done|]. by exists p.
Qed.

(** Setting the same [v1.Node] twice: the second [SetNode] changes at most
    the state, and nothing when it leaves the node Ready.  (The first call
    may report Ready on the ground of the old Used, the second one judges
    the recomputed Used.) *)
Theorem SetNode_twice (ni : NodeInfo) (node : option Node)
    (h : gmap positive TaskInfo) :
  let n1 := SetNode ni node h in
  let n2 := SetNode n1 node h in
  same_but_State n1 n2 ∧ (NodeInfo_Ready n2 = true → n2 = n1).
Proof.
  cbv zeta. destruct node as [n|]; [|done].
  set (base := λ tasks,
         mkNodeInfo (node_Name n) (Some n) (mkNodeState Ready "")
           EmptyResource EmptyResource (node_Allocatable n) EmptyResource
           (node_Allocatable n) (node_Capacity n) tasks).
  set (rebuilt := λ tasks, foldl (SetNode_account h) (base tasks) (tasks_of (base tasks))).
  assert (Hready : ∀ x, LessEqual (ni_Used x) (node_Allocatable n) = true →
                        SetNode x (Some n) h = rebuilt (ni_Tasks x)).
  { intros x E. unfold SetNode, setNodeState. by rewrite E. }
  assert (Hnot : ∀ x, LessEqual (ni_Used x) (node_Allocatable n) = false →
                      SetNode x (Some n) h
                      = set_State x (mkNodeState NotReady "OutOfSync")).
  { intros x E. unfold SetNode, setNodeState. by rewrite E. }
  assert (Htasks : ∀ tasks, ni_Tasks (rebuilt tasks) = tasks).
  { intros tasks.
    by destruct (SetNode_loop_fields h (tasks_of (base tasks)) (base tasks))
      as (_&_&_&_&_&?). }
  destruct (LessEqual (ni_Used ni) (node_Allocatable n)) eqn:E1.
  - rewrite (Hready ni E1).
    destruct (LessEqual (ni_Used (rebuilt (ni_Tasks ni))) (node_Allocatable n)) eqn:E2.
    + rewrite (Hready _ E2), Htasks. by split.
    + rewrite (Hnot _ E2). split; [by repeat split|]. done.
  - rewrite (Hnot ni E1). rewrite (Hnot (set_State ni _) E1). by split.
Qed.

End clone_facts.

Lemma Clone_is_a_balanced_copy_witness :
  (∀ p, p ∈ tasks_of sample_node_with_tB → p ∈ dom sample_heap)
  ∧ accounted (@NodeInfo_Clone exact_env sample_node_with_tB sample_heap).1
  ∧ ni_Name (@NodeInfo_Clone exact_env sample_node_with_tB sample_heap).1 = "n1".
Proof.
  assert (Hlive : ∀ p, p ∈ tasks_of sample_node_with_tB → p ∈ dom sample_heap).
  { intros p Hp. vm_compute in Hp. apply list_elem_of_In in Hp.
    destruct Hp as [<-|[]]. apply (bool_decide_unpack _). by vm_compute. }
  split; [exact Hlive|].
  destruct (@Clone_is_a_balanced_copy exact_env sample_node_with_tB sample_heap Hlive)
    as (Hname & _ & _ & _ & _ & Hacc & _).
  split; [exact Hacc|]. rewrite Hname. by vm_compute.
Defined.

(** ** The order functions of the plugins *)

(** The order functions of the priority plugin compare by priority, the
    higher first: the result is -1 exactly when the left one has the higher
    priority, 1 when it has the lower, 0 when they are equal.  Each is
    antisymmetric and transitive, so that sorting with it is well
    defined. *)
Theorem priority_order_functions :
  (∀ l r : TaskInfo,
     (priority_plugin.taskOrderFn l r = (-1)%Z ↔ (ti_Priority r < ti_Priority l)%Z)
     ∧ (priority_plugin.taskOrderFn l r = 0%Z ↔ ti_Priority l = ti_Priority r)
     ∧ (priority_plugin.taskOrderFn l r = 1%Z ↔ (ti_Priority l < ti_Priority r)%Z)
     ∧ priority_plugin.taskOrderFn r l = (- priority_plugin.taskOrderFn l r)%Z)
  ∧ (∀ l m r : TaskInfo,
       (priority_plugin.taskOrderFn l m ≤ 0)%Z →
       (priority_plugin.taskOrderFn m r ≤ 0)%Z →
       (priority_plugin.taskOrderFn l r ≤ 0)%Z)
  ∧ (∀ l r : JobInfo,
       (priority_plugin.jobOrderFn l r = (-1)%Z ↔ (ji_Priority r < ji_Priority l)%Z)
       ∧ (priority_plugin.jobOrderFn l r = 0%Z ↔ ji_Priority l = ji_Priority r)
       ∧ (priority_plugin.jobOrderFn l r = 1%Z ↔ (ji_Priority l < ji_Priority r)%Z)
       ∧ priority_plugin.jobOrderFn r l = (- priority_plugin.jobOrderFn l r)%Z)
  ∧ (∀ l m r : JobInfo,
       (priority_plugin.jobOrderFn l m ≤ 0)%Z →
       (priority_plugin.jobOrderFn m r ≤ 0)%Z →
       (priority_plugin.jobOrderFn l r ≤ 0)%Z).
Proof.
  unfold priority_plugin.taskOrderFn, priority_plugin.jobOrderFn.
  split_and!; intros; repeat case_bool_decide; split_and?; try split; try lia.
Qed.

(** The gang plugin orders jobs by readiness only: a job that is ready
    comes after one that is not (the result is 1 exactly when the left job
    is ready and the right one is not), and two jobs that are both ready or
    both not ready compare equal.  The comparison is antisymmetric and
    transitive. *)
Theorem gang_jobOrderFn_orders_by_readiness (h : gmap positive TaskInfo) :
  (∀ l r,
     (gang_plugin.jobOrderFn l r h = 1%Z
      ↔ JobInfo_Ready l h = true ∧ JobInfo_Ready r h = false)
     ∧ (gang_plugin.jobOrderFn l r h = (-1)%Z
        ↔ JobInfo_Ready l h = false ∧ JobInfo_Ready r h = true)
     ∧ (gang_plugin.jobOrderFn l r h = 0%Z
        ↔ JobInfo_Ready l h = JobInfo_Ready r h)
     ∧ gang_plugin.jobOrderFn r l h = (- gang_plugin.jobOrderFn l r h)%Z)
  ∧ (∀ l m r,
       (gang_plugin.jobOrderFn l m h ≤ 0)%Z →
       (gang_plugin.jobOrderFn m r h ≤ 0)%Z →
       (gang_plugin.jobOrderFn l r h ≤ 0)%Z).
Proof.
  unfold gang_plugin.jobOrderFn. split.
  - intros l r. destruct (JobInfo_Ready l h), (JobInfo_Ready r h); simpl;
      split_and!; try split; try done; try lia; intros [? ?]; done.
  - intros l m r.
    destruct (JobInfo_Ready l h), (JobInfo_Ready m h), (JobInfo_Ready r h);
      simpl; lia.
Qed.

(** ** The victims of the priority plugin *)

Section priority_facts.

Lemma priority_round_spec (ssn : Session) (h : gmap positive TaskInfo)
    (preemptor : ptr) (victims : list ptr) (p : ptr) :
  is_Some (ssn_Jobs ssn !! ti_Job (h !!! preemptor)) →
  is_Some (ssn_Jobs ssn !! ti_Job (h !!! p)) →
  priority_plugin.preemptable_round ssn h preemptor
    (ssn_Jobs ssn !! ti_Job (h !!! preemptor)) victims p
  = Ret (victims ++ filter (λ q, Is_true (lower_priority ssn h preemptor q)) [p]).
Proof.
  intros [pj Hpj] [ej Hej].
  unfold priority_plugin.preemptable_round, lower_priority.
  rewrite filter_cons, filter_nil. rewrite Hpj, Hej.
  case_bool_decide as Huid; simpl.
  - case_bool_decide as Hle; rewrite decide_bool_decide.
    + rewrite bool_decide_eq_false_2 by (rewrite Is_true_true, bool_decide_eq_true; lia).
      by rewrite app_nil_r.
    + by rewrite bool_decide_eq_true_2 by (rewrite Is_true_true, bool_decide_eq_true; lia).
  - case_bool_decide as Hle; rewrite decide_bool_decide.
    + rewrite bool_decide_eq_false_2 by (rewrite Is_true_true, bool_decide_eq_true; lia).
      by rewrite app_nil_r.
    + by rewrite bool_decide_eq_true_2 by (rewrite Is_true_true, bool_decide_eq_true; lia).
Qed.

Lemma priority_loop_spec (ssn : Session) (h : gmap positive TaskInfo)
    (preemptor : ptr) (preemptees victims : list ptr) :
  is_Some (ssn_Jobs ssn !! ti_Job (h !!! preemptor)) →
  (∀ p, p ∈ preemptees → is_Some (ssn_Jobs ssn !! ti_Job (h !!! p))) →
  priority_plugin.preemptable_loop ssn h preemptor
    (ssn_Jobs ssn !! ti_Job (h !!! preemptor)) victims preemptees
  = Ret (victims ++ filter (λ q, Is_true (lower_priority ssn h preemptor q)) preemptees).
Proof.
  intros Hpj. revert victims.
  induction preemptees as [|p rest IH]; intros victims Hall; simpl.
  - by rewrite filter_nil, app_nil_r.
  - rewrite priority_round_spec; [|done|apply Hall; by left].
    rewrite IH by (intros q Hq; apply Hall; by right).
    rewrite <- app_assoc. f_equal. f_equal.
    by rewrite <- filter_app.
Qed.

(** When the jobs of the preemptor and of every candidate are in the
    session, the priority plugin returns exactly the candidates of lower
    priority, in their order: of another job, those whose job has a lower
    priority than the preemptor's job; of the preemptor's job, those whose
    own priority is lower than the preemptor's.  A candidate of equal
    priority is never a victim, and the preemptor is never its own
    victim. *)
Theorem priority_victims_are_lower (ssn : Session) (h : gmap positive TaskInfo)
    (preemptor : ptr) (preemptees : list ptr) :
  is_Some (ssn_Jobs ssn !! ti_Job (h !!! preemptor)) →
  (∀ p, p ∈ preemptees → is_Some (ssn_Jobs ssn !! ti_Job (h !!! p))) →
  priority_plugin.preemptableFn ssn h preemptor preemptees
  = Ret (filter (λ q, Is_true (lower_priority ssn h preemptor q)) preemptees)
  ∧ preemptor ∉ filter (λ q, Is_true (lower_priority ssn h preemptor q)) preemptees.
Proof.
  intros Hpj Hall. split.
  - unfold priority_plugin.preemptableFn. by rewrite priority_loop_spec.
  - intros [Hlow _]%list_elem_of_filter. revert Hlow.
    unfold lower_priority. destruct Hpj as [pj ->].
    rewrite bool_decide_eq_true_2 by done.
    rewrite Is_true_true, bool_decide_eq_true. lia.
Qed.

End priority_facts.

Lemma priority_victims_are_lower_witness :
  priority_plugin.preemptableFn prio_session prio_heap 1%positive
    [1%positive; 2%positive; 3%positive; 2%positive]
  = Ret [2%positive; 3%positive; 2%positive].
Proof.
  destruct (priority_victims_are_lower prio_session prio_heap 1%positive
              [1%positive; 2%positive; 3%positive; 2%positive]) as [-> _].
  - by eexists.
  - intros p Hp. apply list_elem_of_In in Hp. simpl in Hp.
    destruct Hp as [<-|[<-|[<-|[<-|[]]]]]; by eexists.
  - by vm_compute.
Defined.

(** ** The gang plugin takes every victim it may *)

Section gang_progress_facts.

Lemma candidates_of_app (h : gmap positive TaskInfo) (k : string) (l : list ptr) (p : ptr) :
  candidates_of h k (l ++ [p])
  = (candidates_of h k l + if decide (ti_Job (h !!! p) = k) then 1 else 0)%Z.
Proof.
  unfold candidates_of. rewrite filter_app, length_app.
  rewrite filter_cons, filter_nil.
  destruct (decide _); simpl; lia.
Qed.

Lemma preemptable_step_progress (ssn : Session) (h : gmap positive TaskInfo)
    (seen : list ptr) (acc : list ptr * gmap string Z) (p : ptr) :
  jobs_by_UID (ssn_Jobs ssn) →
  is_Some (ssn_Jobs ssn !! ti_Job (h !!! p)) →
  gang_progress (ssn_Jobs ssn) h seen acc →
  ∃ acc', preemptable_step ssn h acc p = Ret acc'
          ∧ gang_progress (ssn_Jobs ssn) h (seen ++ [p]) acc'.
Proof.
  intros Hwf [job Hjob] [Hsub Hinv]. destruct acc as [victims m].
  unfold preemptable_step. rewrite Hjob.
  pose proof (Hwf _ _ Hjob) as Huid. rewrite Huid.
  set (k0 := ti_Job (h !!! p)) in *. simpl in *.
  set (m1 := match m !! k0 with
             | Some _ => m
             | None => <[k0 := ReadyTaskNum job h]> m
             end).
  destruct (Hinv k0 job Hjob) as [Hcount0 Hentry0].
  assert (Hv : m1 !! k0 = Some (ReadyTaskNum job h - victims_of h k0 victims)%Z).
  { unfold m1. destruct (m !! k0) eqn:Hk0.
    - rewrite Hk0. by rewrite Hentry0.
    - rewrite lookup_insert_eq. f_equal.
      rewrite Hcount0, Hentry0.
      assert (0 ≤ ReadyTaskNum job h - ji_MinAvailable job
              ∨ ReadyTaskNum job h - ji_MinAvailable job < 0)%Z as [?|?] by lia; lia. }
  assert (Hm1 : ∀ k, k ≠ k0 → m1 !! k = m !! k).
  { intros k Hk. unfold m1. destruct (m !! k0); [done|].
    by rewrite lookup_insert_ne. }
  assert (Hpos : (0 ≤ candidates_of h k0 seen)%Z) by (unfold candidates_of; lia).
  rewrite Hv. simpl.
  case_bool_decide as Hgt; eexists; (split; [reflexivity|]); split; simpl.
  - by apply sublist_app.
  - intros k j Hj. rewrite victims_of_app, candidates_of_app. fold k0.
    destruct (Hinv k j Hj) as [Hcount Hentry].
    destruct (decide (k0 = k)) as [<-|Hne].
    + assert (j = job) as -> by congruence.
      rewrite lookup_insert_eq. split; lia.
    + rewrite lookup_insert_ne by done. rewrite Hm1 by done.
      split; [lia|]. destruct (m !! k); lia.
  - by apply sublist_inserts_r.
  - intros k j Hj. rewrite candidates_of_app. fold k0.
    destruct (Hinv k j Hj) as [Hcount Hentry].
    destruct (decide (k0 = k)) as [<-|Hne].
    + assert (j = job) as -> by congruence.
      rewrite Hv. split; lia.
    + rewrite Hm1 by done. split; [lia|]. destruct (m !! k); lia.
Qed.

Lemma preemptable_loop_progress (ssn : Session) (h : gmap positive TaskInfo)
    (rest seen : list ptr) (acc : list ptr * gmap string Z) :
  jobs_by_UID (ssn_Jobs ssn) →
  (∀ p, p ∈ rest → is_Some (ssn_Jobs ssn !! ti_Job (h !!! p))) →
  gang_progress (ssn_Jobs ssn) h seen acc →
  ∃ acc', preemptable_loop ssn h acc rest = Ret acc'
          ∧ gang_progress (ssn_Jobs ssn) h (seen ++ rest) acc'.
Proof.
  intros Hwf. revert seen acc.
  induction rest as [|p rest IH]; intros seen acc Hall Hinv; simpl.
  - exists acc. by rewrite app_nil_r.
  - destruct (preemptable_step_progress ssn h seen acc p Hwf) as (acc1 & -> & Hinv1);
      [apply Hall; by left|done|].
    destruct (IH (seen ++ [p]) acc1) as (acc' & Hloop & Hinv');
      [intros q Hq; apply Hall; by right|done|].
    exists acc'. split; [done|]. by rewrite <- app_assoc in Hinv'.
Qed.

(** The gang plugin takes from every job as many victims as it may.  When
    every candidate's job is in the session (jobs being indexed by UID),
    the victims are candidates, in their order, and from each job the
    number taken is the number of its candidates, up to the number of its
    ready tasks above MinAvailable: the minimum of the two, and none when
    the job is at or below MinAvailable. *)
Theorem gang_takes_every_victim_it_may (ssn : Session) (h : gmap positive TaskInfo)
    (preemptor : ptr) (preemptees : list ptr) :
  jobs_by_UID (ssn_Jobs ssn) →
  (∀ p, p ∈ preemptees → is_Some (ssn_Jobs ssn !! ti_Job (h !!! p))) →
  ∃ victims,
    preemptableFn ssn h preemptor preemptees = Ret victims
    ∧ sublist victims preemptees
    ∧ ∀ k job, ssn_Jobs ssn !! k = Some job →
        victims_of h k victims
        = Z.min (candidates_of h k preemptees)
                (Z.max 0 (ReadyTaskNum job h - ji_MinAvailable job)).
Proof.
  intros Hwf Hall.
  destruct (preemptable_loop_progress ssn h preemptees [] ([], ∅) Hwf Hall)
    as ([victims m] & Hloop & Hsub & Hinv).
  { split; [done|]. intros k j Hj. simpl. rewrite lookup_empty.
    unfold victims_of, candidates_of. simpl. split; lia. }
  exists victims. unfold preemptableFn. rewrite Hloop.
  split; [done|]. split; [done|].
  intros k j Hj. by destruct (Hinv k j Hj).
Qed.

End gang_progress_facts.

Lemma gang_takes_every_victim_it_may_witness :
  ∃ victims,
    preemptableFn (gang_session 1) gang_heap 1%positive [2%positive; 4%positive]
    = Ret victims
    ∧ victims_of gang_heap "j1" victims = 1%Z.
Proof.
  destruct (gang_takes_every_victim_it_may (gang_session 1) gang_heap
              1%positive [2%positive; 4%positive]
              (gang_session_by_UID 1) (gang_candidates_known 1))
    as (victims & Hv & _ & Hc).
  exists victims. split; [exact Hv|].
  rewrite (Hc "j1" (gang_job 1)) by reflexivity. by vm_compute.
Defined.

(** ** Statements: what is journaled, and what Discard tells the plugins *)

Section journal_facts.
Context `{!Env}.

Lemma session_UpdateTaskStatus_frame (w : World) (p : ptr) (s : TaskStatus) :
  let w' := (session_UpdateTaskStatus w p s).2 in
  operations w' = operations w ∧ trace w' = trace w
  ∧ ssn_Nodes (ssn w') = ssn_Nodes (ssn w)
  ∧ ssn_eventHandlers (ssn w') = ssn_eventHandlers (ssn w)
  ∧ ssn_cache (ssn w') = ssn_cache (ssn w)
  ∧ (∀ q, q ≠ p → heap w' !! q = heap w !! q).
Proof.
  cbv zeta. unfold session_UpdateTaskStatus, UpdateTaskStatus.
  destruct (ssn_Jobs (ssn w) !! _); [|done].
  destruct (validateStatusUpdate _ _); [|done].
  simpl. split_and!; try done. intros q Hq. by rewrite lookup_insert_ne.
Qed.

Lemma session_UpdateTask_frame (w w' : World) (p : ptr) :
  session_UpdateTask w p = Ret w' →
  operations w' = operations w ∧ trace w' = trace w
  ∧ ssn_eventHandlers (ssn w') = ssn_eventHandlers (ssn w)
  ∧ ssn_cache (ssn w') = ssn_cache (ssn w).
Proof.
  unfold session_UpdateTask.
  destruct (ssn_Nodes (ssn w) !! _); [|by intros [= <-]].
  destruct (UpdateTask _ _ _) as [[[? ?] ?]|]; [|done].
  by intros [= <-].
Qed.

Lemma session_RemoveTask_frame (w : World) (p : ptr) :
  let w' := session_RemoveTask w p in
  operations w' = operations w ∧ trace w' = trace w
  ∧ ssn_eventHandlers (ssn w') = ssn_eventHandlers (ssn w)
  ∧ ssn_cache (ssn w') = ssn_cache (ssn w)
  ∧ heap w' = heap w.
Proof.
  cbv zeta. unfold session_RemoveTask.
  destruct (ssn_Nodes (ssn w) !! _); [|done].
  by destruct (RemoveTask _ _ _).
Qed.

Lemma session_AddTask_error (w w' : World) (p : ptr) (hostname : string) (e : error) :
  session_AddTask w p hostname = (Some e, w') → w' = w.
Proof.
  unfold session_AddTask.
  destruct (ssn_Nodes (ssn w) !! hostname); [|by intros [= _ <-]].
  destruct (AddTask _ _ _) as [[[?|] ?] ?]; [by intros [= _ <-]|done].
Qed.

Lemma session_AddTask_frame (w w' : World) (p : ptr) (hostname : string) :
  session_AddTask w p hostname = (None, w') →
  operations w' = operations w ∧ trace w' = trace w
  ∧ ssn_eventHandlers (ssn w') = ssn_eventHandlers (ssn w)
  ∧ ssn_cache (ssn w') = ssn_cache (ssn w).
Proof.
  unfold session_AddTask.
  destruct (ssn_Nodes (ssn w) !! hostname); [|done].
  destruct (AddTask _ _ _) as [[[?|] ?] ?]; [done|].
  by intros [= <-].
Qed.

(** An operation is journaled if and only if it succeeds.  A [Pipeline]
    or an [Allocate] that returns an error adds no record, changes no node
    and invokes no callback; but when it fails at the node (the host is not
    in the session, or [AddTask] refuses the task) the task keeps the
    status Pipelined or Allocated that it was given before, and since there
    is no record [Discard] will not set it back. *)
Theorem failed_placement_leaves_no_record (w : World) (task : ptr) (hostname : string) :
  match Pipeline w task hostname with
  | (None, w') =>
      operations w' = operations w ++ [mkOperation "pipeline" task hostname]
  | (Some _, w') =>
      operations w' = operations w
      ∧ ssn_Nodes (ssn w') = ssn_Nodes (ssn w)
      ∧ trace w' = trace w
      ∧ match session_UpdateTaskStatus w task Pipelined with
        | (Some None, w1) => w' = w1 ∧ ti_Status (heap w' !!! task) = Pipelined
        | _ => w' = w
        end
  end
  ∧ match Allocate w task hostname with
    | (None, w') =>
        operations w' = operations w ++ [mkOperation "allocate" task hostname]
    | (Some _, w') =>
        operations w' = operations w
        ∧ ssn_Nodes (ssn w') = ssn_Nodes (ssn w)
        ∧ trace w' = trace w ++ [CallAllocateVolumes task hostname]
        ∧ let w0 := set_heap (emit w [CallAllocateVolumes task hostname])
                      (AllocateVolumes task hostname (heap w)).2 in
          match (AllocateVolumes task hostname (heap w)).1,
                session_UpdateTaskStatus w0 task Allocated with
          | None, (Some None, w1) =>
              w' = w1 ∧ ti_Status (heap w' !!! task) = Allocated
          | _, _ => w' = w0
          end
    end.
Proof.
  split.
  - unfold Pipeline.
    pose proof (session_UpdateTaskStatus_frame w task Pipelined) as Hf.
    cbv zeta in Hf.
    destruct (session_UpdateTaskStatus w task Pipelined) as [[[e|]|] w1] eqn:E1.
    + unfold session_UpdateTaskStatus, UpdateTaskStatus in E1.
      destruct (ssn_Jobs (ssn w) !! _); [|done].
      destruct (validateStatusUpdate _ _); [done|].
      injection E1 as _ <-. done.
    + simpl in Hf. destruct Hf as (Ho & Ht & Hn & _).
      pose proof (session_UpdateTaskStatus_ok _ _ _ _ E1) as (Hs & _).
      destruct (session_AddTask w1 task hostname) as [[e|] w2] eqn:E2.
      * apply session_AddTask_error in E2 as ->. done.
      * apply session_AddTask_frame in E2 as (Ho2 & _). simpl.
        by rewrite Ho2, Ho.
    + unfold session_UpdateTaskStatus, UpdateTaskStatus in E1.
      destruct (ssn_Jobs (ssn w) !! _); [|by injection E1 as <-].
      by destruct (validateStatusUpdate _ _).
  - unfold Allocate. simpl.
    destruct (AllocateVolumes task hostname (heap w)) as [[e|] h1] eqn:EV; simpl.
    { done. }
    set (w0 := set_heap (emit w [CallAllocateVolumes task hostname]) h1).
    pose proof (session_UpdateTaskStatus_frame w0 task Allocated) as Hf.
    cbv zeta in Hf.
    destruct (session_UpdateTaskStatus w0 task Allocated) as [[[e|]|] w1] eqn:E1.
    + unfold session_UpdateTaskStatus, UpdateTaskStatus in E1.
      destruct (ssn_Jobs (ssn w0) !! _); [|done].
      destruct (validateStatusUpdate _ _); [done|].
      injection E1 as _ <-. done.
    + simpl in Hf. destruct Hf as (Ho & Ht & Hn & _).
      pose proof (session_UpdateTaskStatus_ok _ _ _ _ E1) as (Hs & _).
      destruct (session_AddTask w1 task hostname) as [[e|] w2] eqn:E2.
      * apply session_AddTask_error in E2 as ->. done.
      * apply session_AddTask_frame in E2 as (Ho2 & _). simpl.
        by rewrite Ho2, Ho.
    + unfold session_UpdateTaskStatus, UpdateTaskStatus in E1.
      destruct (ssn_Jobs (ssn w0) !! _).
      * by destruct (validateStatusUpdate _ _).
      * by injection E1 as <-.
Qed.

Lemma Discard_op_frame (w w' : World) (op : operation) :
  Discard_op w op = Ret w' →
  operations w' = operations w
  ∧ ssn_eventHandlers (ssn w') = ssn_eventHandlers (ssn w)
  ∧ ssn_cache (ssn w') = ssn_cache (ssn w)
  ∧ trace w' = trace w ++ undo_calls (ssn_eventHandlers (ssn w)) op.
Proof.
  unfold Discard_op, undo_calls.
  pose proof (session_UpdateTaskStatus_frame w (op_task op) Running) as HR.
  pose proof (session_UpdateTaskStatus_frame w (op_task op) Pending) as HP.
  cbv zeta in HR, HP.
  destruct HR as (HRo & HRt & _ & HRe & HRc & _).
  destruct HP as (HPo & HPt & _ & HPe & HPc & _).
  repeat case_bool_decide.
  - unfold unevict.
    destruct (session_UpdateTask _ _) as [w1|] eqn:E1; [|done].
    apply session_UpdateTask_frame in E1 as (Ho & Ht & He & Hc).
    intros [= <-]. simpl. unfold allocate_calls.
    rewrite Ho, Ht, He, Hc, HRo, HRt, HRe, HRc. done.
  - unfold unpipeline. simpl. intros [= <-]. simpl.
    destruct (session_RemoveTask_frame
                (session_UpdateTaskStatus w (op_task op) Pending).2 (op_task op))
      as (Ho & Ht & He & Hc & _).
    unfold deallocate_calls. rewrite Ho, Ht, He, Hc, HPo, HPt, HPe, HPc. done.
  - unfold unallocate. simpl. intros [= <-]. simpl.
    destruct (session_RemoveTask_frame
                (session_UpdateTaskStatus w (op_task op) Pending).2 (op_task op))
      as (Ho & Ht & He & Hc & _).
    unfold deallocate_calls. rewrite Ho, Ht, He, Hc, HPo, HPt, HPe, HPc. done.
  - intros [= <-]. by rewrite app_nil_r.
Qed.

Lemma Discard_loop_frame (ops : list operation) (w w' : World) :
  run_ops Discard_op ops w = Ret w' →
  operations w' = operations w
  ∧ ssn_eventHandlers (ssn w') = ssn_eventHandlers (ssn w)
  ∧ ssn_cache (ssn w') = ssn_cache (ssn w)
  ∧ trace w' = trace w
               ++ concat (undo_calls (ssn_eventHandlers (ssn w)) <$> ops).
Proof.
  revert w. induction ops as [|op ops IH]; intros w; simpl.
  - intros [= <-]. by rewrite app_nil_r.
  - destruct (Discard_op w op) as [w1|] eqn:E1; [|done].
    apply Discard_op_frame in E1 as (Ho & He & Hc & Ht).
    intros Hrest. apply IH in Hrest as (Ho' & He' & Hc' & Ht').
    rewrite Ho', He', Hc', Ht', Ho, He, Hc, Ht. by rewrite <- app_assoc.
Qed.

(** When [Discard] returns, it has told the plugins of every record, the
    last record first: for an evict record the allocation callbacks of the
    handlers were invoked for the task, for a pipeline or an allocate
    record the deallocation callbacks, and nothing else was done to the
    outside (no call into the cache, whose state is as before).  The
    journal itself is not emptied: the records are still in the
    statement. *)
Theorem Discard_notifies_in_reverse (w w' : World) :
  Discard w = Ret w' →
  trace w' = trace w
             ++ concat (undo_calls (ssn_eventHandlers (ssn w))
                          <$> reverse (operations w))
  ∧ ssn_cache (ssn w') = ssn_cache (ssn w)
  ∧ operations w' = operations w.
Proof.
  unfold Discard. intros Hd.
  apply Discard_loop_frame in Hd as (Ho & _ & Hc & Ht). done.
Qed.

End journal_facts.

Lemma Discard_notifies_in_reverse_witness :
  ∃ w', @Discard exact_env trip_world2 = Ret w'
        ∧ trace w' = trace trip_world2
                     ++ [CallAllocateFunc "drf" 2%positive;
                         CallDeallocateFunc "drf" 1%positive]
        ∧ operations w' = trip_ops.
Proof.
  set (r := @Discard exact_env trip_world2).
  assert (E : ∃ w', r = Ret w').
  { unfold r. vm_compute. by eexists. }
  destruct E as [w' E]. exists w'. split; [exact E|].
  destruct (@Discard_notifies_in_reverse exact_env trip_world2 w' E) as (Ht & _ & Ho).
  split; [rewrite Ht; by vm_compute|rewrite Ho; by vm_compute].
Defined.

(** ** Statements: what a successful placement has done *)

Section placement_facts.
Context `{!Env}.

Lemma placement_success (w0 w1 w2 : World) (task : ptr) (hostname : string)
    (s : TaskStatus) :
  session_UpdateTaskStatus w0 task s = (Some None, w1) →
  session_AddTask w1 task hostname = (None, w2) →
  let t := heap w0 !!! task in
  ∃ node c,
    ssn_Nodes (ssn w0) !! hostname = Some node
    ∧ ssn_Nodes (ssn w2)
      = <[hostname := set_Tasks (entered node s (ti_Resreq t))
                        (<[PodKey (ti_Pod t) := c]> (ni_Tasks node))]>
          (ssn_Nodes (ssn w0))
    ∧ ni_Tasks node !! PodKey (ti_Pod t) = None
    ∧ fits node s (ti_Resreq t) = true
    ∧ (c ∉ dom (heap w0)) ∧ c ≠ task
    ∧ heap w2 = <[c := set_NodeName (set_Status t s) (ni_Name node)]>
                  (<[task := set_NodeName (set_Status t s) (ni_Name node)]> (heap w0))
    ∧ operations w2 = operations w0 ∧ trace w2 = trace w0
    ∧ ssn_eventHandlers (ssn w2) = ssn_eventHandlers (ssn w0).
Proof.
  intros E1 E2. cbv zeta.
  unfold session_UpdateTaskStatus, UpdateTaskStatus in E1.
  destruct (ssn_Jobs (ssn w0) !! _); [|done].
  destruct (validateStatusUpdate _ _); [|done].
  injection E1 as <-.
  unfold session_AddTask in E2. simpl in E2.
  destruct (ssn_Nodes (ssn w0) !! hostname) as [node|] eqn:En; [|done].
  rewrite AddTask_unfold in E2. cbv zeta in E2.
  rewrite lookup_total_insert_eq in E2. simpl in E2.
  destruct (on_other_node _ _); [done|].
  destruct (ni_Tasks node !! _) eqn:Hkey; [done|].
  destruct (fits _ _ _) eqn:Hfits; [|done].
  injection E2 as <-. simpl.
  set (t := heap w0 !!! task) in *.
  destruct (fresh_after_insert (<[task := set_Status t s]> (heap w0)) task
              (set_NodeName (set_Status t s) (ni_Name node))) as [Hct Hch].
  eexists node, _. split; [done|]. split; [done|]. split; [done|].
  split; [done|]. split.
  { intros Hin. by apply Hch, dom_insert_subseteq. }
  split; [exact Hct|]. split; [|done].
  by rewrite (insert_insert_eq (heap w0)).
Qed.

(** A successful [Allocate] has found the host in the session and entered
    a copy of the task into it: the task is Allocated and names the node,
    its VolumeReady is what the volume binder answered, the node holds a new
    object equal to it under the key of the task, the request has moved
    from Idle to Used (on a node with a [v1.Node]), no other object was
    written, the allocation callbacks were invoked after the call to the
    volume binder, and one allocate record was appended. *)
Theorem Allocate_success (w w' : World) (task : ptr) (hostname : string) :
  Allocate w task hostname = (None, w') →
  let t := heap w !!! task in
  ∃ node node' c b,
    ssn_Nodes (ssn w) !! hostname = Some node
    ∧ ssn_Nodes (ssn w') = <[hostname := node']> (ssn_Nodes (ssn w))
    ∧ AssumePodVolumes (ti_Pod t) hostname = (b, None)
    ∧ heap w' !!! task
      = set_NodeName (set_Status (set_VolumeReady t b) Allocated) (ni_Name node)
    ∧ ni_Tasks node' = <[PodKey (ti_Pod t) := c]> (ni_Tasks node)
    ∧ (c ∉ dom (heap w)) ∧ c ≠ task
    ∧ heap w' !!! c = heap w' !!! task
    ∧ (∀ p, p ≠ task → p ≠ c → heap w' !! p = heap w !! p)
    ∧ (is_Some (ni_Node node) →
       ni_Idle node' = Sub (ni_Idle node) (ti_Resreq t)
       ∧ ni_Used node' = Add (ni_Used node) (ti_Resreq t)
       ∧ ni_Releasing node' = ni_Releasing node
       ∧ ni_Pipelined node' = ni_Pipelined node)
    ∧ trace w' = trace w ++ CallAllocateVolumes task hostname
                   :: allocate_calls (ssn_eventHandlers (ssn w)) task
    ∧ operations w' = operations w ++ [mkOperation "allocate" task hostname].
Proof.
  unfold Allocate, AllocateVolumes. simpl.
  destruct (AssumePodVolumes _ _) as [b [e|]] eqn:EV; [done|].
  set (w0 := set_heap (emit w [CallAllocateVolumes task hostname])
               (<[task := set_VolumeReady (heap w !!! task) b]> (heap w))).
  destruct (session_UpdateTaskStatus w0 task Allocated) as [[[e|]|] w1] eqn:E1;
    try done.
  destruct (session_AddTask w1 task hostname) as [[e|] w2] eqn:E2; [done|].
  intros [= <-].
  destruct (placement_success w0 w1 w2 task hostname Allocated E1 E2)
    as (node & c & Hn & Hn' & Hkey & Hfits & Hch & Hct & Hh & Ho & Ht & He).
  simpl in Hn, Hn', Hkey, Hfits, Hch, Hh, Ho, Ht, He.
  rewrite lookup_total_insert_eq in Hn', Hkey, Hfits, Hh. simpl in *.
  rewrite (insert_insert_eq (heap w)) in Hh.
  assert (Hch' : c ∉ dom (heap w)).
  { intros Hin. by apply Hch, dom_insert_subseteq. }
  eexists node, _, c, b. split; [done|]. split; [exact Hn'|].
  split; [done|]. rewrite Hh. simpl.
  split. { rewrite lookup_total_insert_ne by done. by rewrite lookup_total_insert_eq. }
  split; [done|]. split; [done|]. split; [done|].
  split. { rewrite lookup_total_insert_eq, lookup_total_insert_ne by done.
           by rewrite lookup_total_insert_eq. }
  split. { intros p Hp Hpc. by rewrite !lookup_insert_ne. }
  split. { intros [n0 Hnode]. unfold entered. rewrite Hnode. done. }
  split; [|by rewrite Ho].
  unfold allocate_calls. rewrite Ht, He. simpl. by rewrite <- app_assoc.
Qed.

(** A successful [Pipeline] reserves nothing of what is idle now: the task
    is Pipelined and names the node, the node holds a new copy of it, and
    on a node with a [v1.Node] only the Pipelined vector has grown, by the
    request; Idle, Used and Releasing are as before, so that what will be
    idle in the future ([FutureIdle]) is less by the request in every
    dimension.  The allocation callbacks were invoked and one pipeline
    record was appended. *)
Theorem Pipeline_success (w w' : World) (task : ptr) (hostname : string) :
  Pipeline w task hostname = (None, w') →
  let t := heap w !!! task in
  ∃ node node' c,
    ssn_Nodes (ssn w) !! hostname = Some node
    ∧ ssn_Nodes (ssn w') = <[hostname := node']> (ssn_Nodes (ssn w))
    ∧ heap w' !!! task = set_NodeName (set_Status t Pipelined) (ni_Name node)
    ∧ ni_Tasks node' = <[PodKey (ti_Pod t) := c]> (ni_Tasks node)
    ∧ (c ∉ dom (heap w)) ∧ c ≠ task
    ∧ heap w' !!! c = heap w' !!! task
    ∧ (∀ p, p ≠ task → p ≠ c → heap w' !! p = heap w !! p)
    ∧ (is_Some (ni_Node node) →
       ni_Idle node' = ni_Idle node
       ∧ ni_Used node' = ni_Used node
       ∧ ni_Releasing node' = ni_Releasing node
       ∧ ni_Pipelined node' = Add (ni_Pipelined node) (ti_Resreq t)
       ∧ FutureIdle node' ≡ Sub (FutureIdle node) (ti_Resreq t))
    ∧ trace w' = trace w ++ allocate_calls (ssn_eventHandlers (ssn w)) task
    ∧ operations w' = operations w ++ [mkOperation "pipeline" task hostname].
Proof.
  unfold Pipeline.
  destruct (session_UpdateTaskStatus w task Pipelined) as [[[e|]|] w1] eqn:E1;
    try done.
  destruct (session_AddTask w1 task hostname) as [[e|] w2] eqn:E2; [done|].
  intros [= <-].
  destruct (placement_success w w1 w2 task hostname Pipelined E1 E2)
    as (node & c & Hn & Hn' & Hkey & Hfits & Hch & Hct & Hh & Ho & Ht & He).
  simpl in *.
  eexists node, _, c. split; [done|]. split; [exact Hn'|].
  rewrite Hh. simpl.
  split. { rewrite lookup_total_insert_ne by done. by rewrite lookup_total_insert_eq. }
  split; [done|]. split; [done|]. split; [done|].
  split. { rewrite lookup_total_insert_eq, lookup_total_insert_ne by done.
           by rewrite lookup_total_insert_eq. }
  split. { intros p Hp Hpc. by rewrite !lookup_insert_ne. }
  split.
  { intros [n0 Hnode]. unfold entered. rewrite Hnode. simpl.
    split_and!; try done. unfold FutureIdle. simpl. rewrite !Clone_eq. res_solve. }
  split; [|by rewrite Ho].
  unfold allocate_calls. by rewrite Ht, He.
Qed.

End placement_facts.

Lemma Allocate_success_witness :
  ∃ node',
    ssn_Nodes (ssn trip_world1) = <["n1" := node']> (ssn_Nodes (ssn trip_world))
    ∧ ni_Idle node' = Sub (ni_Idle sample_node_with_tB) (ti_Resreq sample_tA)
    ∧ ti_Status (heap trip_world1 !!! 1%positive) = Allocated
    ∧ operations trip_world1 = [mkOperation "allocate" 1%positive "n1"].
Proof.
  assert (E : @Allocate exact_env trip_world 1%positive "n1" = (None, trip_world1))
    by (by vm_compute).
  destruct (@Allocate_success exact_env _ _ _ _ E)
    as (node & node' & c & b & Hn & Hn' & _ & Ht & _ & _ & _ & _ & _ & Hv & _ & Ho).
  assert (node = sample_node_with_tB) as ->.
  { vm_compute in Hn. by injection Hn as <-. }
  exists node'. split; [exact Hn'|].
  split; [apply Hv; by eexists|]. split; [by rewrite Ht|exact Ho].
Defined.

Lemma Pipeline_success_witness :
  ∃ w' node',
    @Pipeline exact_env trip_world 1%positive "n1" = (None, w')
    ∧ ssn_Nodes (ssn w') = <["n1" := node']> (ssn_Nodes (ssn trip_world))
    ∧ ni_Idle node' = ni_Idle sample_node_with_tB
    ∧ ni_Pipelined node' = Add (ni_Pipelined sample_node_with_tB) (ti_Resreq sample_tA).
Proof.
  set (r := @Pipeline exact_env trip_world 1%positive "n1").
  assert (E : r = (None, r.2)) by (by vm_compute).
  destruct (@Pipeline_success exact_env _ _ _ _ E)
    as (node & node' & c & Hn & Hn' & _ & _ & _ & _ & _ & _ & Hv & _).
  assert (node = sample_node_with_tB) as ->.
  { vm_compute in Hn. by injection Hn as <-. }
  exists r.2, node'. split; [exact E|]. split; [exact Hn'|].
  destruct Hv as (HI & _ & _ & HP & _); [by eexists|]. split; [exact HI|exact HP].
Defined.

(** ** The cache: what Bind and Evict have done when they return *)

Section cache_effects.
Context `{!Env}.

(** A successful [Bind] has set the cache's own task object (the one
    found under the UID in the cache's job, not the caller's) to Binding,
    entered a new copy of it into the node and launched one goroutine that
    binds the pod; nothing is queued for resync, no event is recorded by
    the call itself, and no other object, the caller's included when it is
    another object, is written. *)
Theorem Bind_success (sc sc' : SchedulerCache) (taskInfo : ptr) (hostname : string)
    (h h' : gmap positive TaskInfo) :
  Bind sc taskInfo hostname h = (None, sc', h') →
  ∃ job task node node' c,
    findJobAndTask sc taskInfo h = inr (job, task)
    ∧ sc_Nodes sc !! hostname = Some node
    ∧ sc_Nodes sc' = <[hostname := node']> (sc_Nodes sc)
    ∧ ni_Tasks node' = <[PodKey (ti_Pod (h !!! task)) := c]> (ni_Tasks node)
    ∧ (c ∉ dom h) ∧ c ≠ task
    ∧ h' !!! task = set_NodeName (set_Status (h !!! task) Binding) (ni_Name node)
    ∧ h' !!! c = h' !!! task
    ∧ (∀ p, p ≠ task → p ≠ c → h' !! p = h !! p)
    ∧ sc_spawned sc' = sc_spawned sc ++ [GoBind (ti_Pod (h !!! task)) hostname task]
    ∧ sc_errTasks sc' = sc_errTasks sc
    ∧ sc_recorded sc' = sc_recorded sc
    ∧ sc_Queues sc' = sc_Queues sc.
Proof.
  unfold Bind.
  destruct (findJobAndTask sc taskInfo h) as [e|[job task]] eqn:Ef; [done|].
  destruct (sc_Nodes sc !! hostname) as [node|] eqn:En; [|done].
  unfold UpdateTaskStatus.
  destruct (validateStatusUpdate (ti_Status (h !!! task)) Binding); [|done].
  set (t := h !!! task).
  rewrite AddTask_unfold. cbv zeta. rewrite lookup_total_insert_eq. simpl.
  destruct (on_other_node _ _).
  { by destruct (validateStatusUpdate Binding _). }
  destruct (ni_Tasks node !! _) eqn:Hkey.
  { by destruct (validateStatusUpdate Binding _). }
  destruct (fits _ _ _).
  2: { by destruct (validateStatusUpdate Binding _). }
  destruct (fresh_after_insert (<[task := set_Status t Binding]> h) task
              (set_NodeName (set_Status t Binding) (ni_Name node))) as [Hct Hch].
  intros [= <- <-]. simpl.
  eexists job, task, node, _, _. split; [done|]. split; [done|].
  split; [done|]. split; [done|].
  split. { intros Hin. by apply Hch, dom_insert_subseteq. }
  split; [exact Hct|].
  split. { rewrite lookup_total_insert_ne by done. by rewrite lookup_total_insert_eq. }
  split. { rewrite lookup_total_insert_eq, lookup_total_insert_ne by done.
           by rewrite lookup_total_insert_eq. }
  split. { intros p Hp Hpc. by rewrite !lookup_insert_ne. }
  split; [|done].
  by rewrite lookup_total_insert_ne, lookup_total_insert_eq by done.
Qed.

(** An error from [Bind] means that nothing was bound: no node of the
    cache is changed, no goroutine is launched and no event recorded, and
    every task object reads as before, with one exception: when [AddTask]
    failed and the status could not be set back, the cache's task is left
    Binding and is queued for resync. *)
Theorem Bind_error_effects (sc sc' : SchedulerCache) (taskInfo : ptr)
    (hostname : string) (h h' : gmap positive TaskInfo) (e : error) :
  Bind sc taskInfo hostname h = (Some e, sc', h') →
  sc_Nodes sc' = sc_Nodes sc
  ∧ sc_spawned sc' = sc_spawned sc
  ∧ sc_recorded sc' = sc_recorded sc
  ∧ ((sc_errTasks sc' = sc_errTasks sc ∧ ∀ p, h' !!! p = h !!! p)
     ∨ ∃ job task,
         findJobAndTask sc taskInfo h = inr (job, task)
         ∧ sc_errTasks sc' = sc_errTasks sc ++ [task]
         ∧ h' = <[task := set_Status (h !!! task) Binding]> h).
Proof.
  unfold Bind.
  destruct (findJobAndTask sc taskInfo h) as [e0|[job task]] eqn:Ef.
  { intros [= _ <- <-]. split_and!; try done. by left. }
  destruct (sc_Nodes sc !! hostname) as [node|] eqn:En.
  2: { intros [= _ <- <-]. split_and!; try done. by left. }
  unfold UpdateTaskStatus.
  destruct (validateStatusUpdate (ti_Status (h !!! task)) Binding).
  2: { intros [= _ <- <-]. split_and!; try done. by left. }
  destruct (AddTask node task _) as [[[e1|] node'] h1] eqn:EA; [|done].
  apply AddTask_error_unchanged in EA as [-> ->].
  rewrite lookup_total_insert_eq. simpl.
  destruct (validateStatusUpdate Binding _).
  - intros [= _ <- <-]. simpl. split_and!; try done. left. split; [done|].
    intros p. rewrite set_Status_back, insert_insert_eq.
    destruct (decide (p = task)) as [->|Hp].
    + by rewrite lookup_total_insert_eq.
    + by rewrite lookup_total_insert_ne.
  - intros [= _ <- <-]. simpl. split_and!; try done. right. by exists job, task.
Qed.

Lemma UpdateTask_unfold (ni : NodeInfo) (ti : ptr) (h : gmap positive TaskInfo) :
  UpdateTask ni ti h =
    let t := h !!! ti in
    let key := PodKey (ti_Pod t) in
    match ni_Tasks ni !! key with
    | None => Ret (Some (mkError "failed to find task on host"), ni, h)
    | Some c =>
        let ni1 := left ni (ti_Status (h !!! c)) (ti_Resreq (h !!! c)) in
        if on_other_node ni t || negb (fits ni1 (ti_Status t) (ti_Resreq t))
        then Fatal "Failed to add Task to Node during task update"
        else
          let h1 := <[ti := set_NodeName t (ni_Name ni)]> h in
          let c2 := fresh (dom h1) in
          Ret (None,
               set_Tasks (entered ni1 (ti_Status t) (ti_Resreq t))
                 (<[key := c2]> (ni_Tasks ni)),
               <[c2 := set_NodeName t (ni_Name ni)]> h1)
    end.
Proof.
  cbv zeta. unfold UpdateTask. rewrite RemoveTask_unfold. cbv zeta.
  destruct (ni_Tasks ni !! _) as [c|] eqn:Hkey; [|done].
  rewrite AddTask_unfold. cbv zeta. simpl.
  set (t := h !!! ti). set (s0 := ti_Status (h !!! c)). set (r0 := ti_Resreq (h !!! c)).
  destruct (left_Name ni s0 r0) as (Hname & Hnode & Htasks).
  assert (Hoth : on_other_node (set_Tasks (left ni s0 r0)
                                  (delete (PodKey (ti_Pod t)) (ni_Tasks ni))) t
                 = on_other_node ni t).
  { unfold on_other_node. simpl. by rewrite Hname. }
  assert (Hfit : fits (set_Tasks (left ni s0 r0)
                         (delete (PodKey (ti_Pod t)) (ni_Tasks ni)))
                   (ti_Status t) (ti_Resreq t)
                 = fits (left ni s0 r0) (ti_Status t) (ti_Resreq t)).
  { by unfold fits. }
  rewrite Hoth, Hfit, lookup_delete_eq.
  destruct (on_other_node ni t); simpl; [done|].
  destruct (fits _ _ _); simpl; [|done].
  by rewrite entered_set_Tasks, insert_delete_eq, Hname.
Qed.

(** [Evict] of the cache is not all or nothing.  When it returns, either
    nothing was launched (it then returns an error, no node is changed and
    no event is recorded), or the eviction of the pod was launched, the
    cache's task is Releasing and its node holds a new copy of it; and in
    this second case it still returns an error when the job has a PodGroup
    that is not a shadow one and the event cannot be recorded (the
    conversion fails, or the version is neither v1alpha1 nor v1alpha2):
    nil is returned exactly when the PodGroup is a shadow one or the event
    was recorded. *)
Theorem cache_Evict_effects (sc sc' : SchedulerCache) (taskInfo : ptr)
    (reason : string) (h h' : gmap positive TaskInfo) (r : option error) :
  cache_Evict sc taskInfo reason h = Ret (r, sc', h') →
  (is_Some r ∧ sc_spawned sc' = sc_spawned sc ∧ sc_Nodes sc' = sc_Nodes sc
   ∧ sc_recorded sc' = sc_recorded sc)
  ∨ ∃ job task,
      findJobAndTask sc taskInfo h = inr (job, task)
      ∧ sc_spawned sc' = sc_spawned sc ++ [GoEvict (ti_Pod (h !!! task)) task]
      ∧ ti_Status (h' !!! task) = Releasing
      ∧ (∃ node' c, sc_Nodes sc' !! ti_NodeName (h !!! task) = Some node'
                    ∧ ni_Tasks node' !! PodKey (ti_Pod (h !!! task)) = Some c
                    ∧ (c ∉ dom h) ∧ h' !!! c = h' !!! task)
      ∧ (r = None ↔
         shadowPodGroup (ji_PodGroup job) = true
         ∨ sc_recorded sc' = sc_recorded sc ++ ["Evict"]).
Proof.
  unfold cache_Evict.
  destruct (findJobAndTask sc taskInfo h) as [e0|[job task]] eqn:Ef.
  { intros [= <- <- <-]. left. split; [by eexists|done]. }
  destruct (sc_Nodes sc !! _) as [node|] eqn:En.
  2: { intros [= <- <- <-]. left. split; [by eexists|done]. }
  unfold UpdateTaskStatus at 1.
  destruct (validateStatusUpdate (ti_Status (h !!! task)) Releasing).
  2: { intros [= <- <- <-]. left. split; [by eexists|done]. }
  set (t := h !!! task) in *.
  set (h1 := <[task := set_Status t Releasing]> h).
  rewrite UpdateTask_unfold. cbv zeta.
  assert (Hh1 : h1 !!! task = set_Status t Releasing) by apply lookup_total_insert_eq.
  rewrite !Hh1. simpl.
  destruct (ni_Tasks node !! PodKey (ti_Pod t)) as [c0|] eqn:Hkey.
  2: { unfold UpdateTaskStatus.
       destruct (validateStatusUpdate _ _);
         intros [= <- <- <-]; left; (split; [by eexists|done]). }
  destruct (on_other_node _ _ || negb _); [done|].
  set (tn := set_NodeName (set_Status t Releasing) (ni_Name node)).
  destruct (fresh_after_insert h1 task tn) as [Hct Hch].
  set (c2 := fresh (dom (<[task := tn]> h1))) in *.
  assert (Hc2h : c2 ∉ dom h).
  { intros Hin. by apply Hch, dom_insert_subseteq. }
  set (h2 := <[c2 := tn]> (<[task := tn]> h1)).
  assert (Ht2 : h2 !!! task = tn).
  { unfold h2. rewrite lookup_total_insert_ne by done.
    by rewrite lookup_total_insert_eq. }
  assert (Hc2 : h2 !!! c2 = tn) by apply lookup_total_insert_eq.
  fold tn c2 h2. rewrite Ht2. simpl.
  intros Hret. right. exists job, task. split; [done|].
  assert (Hrec : ∀ l : list string, l ≠ l ++ ["Evict"]).
  { intros l Heq. apply (f_equal length) in Heq.
    rewrite length_app in Heq. simpl in Heq. lia. }
  assert (Hcopy : ∀ node2 : NodeInfo,
            ni_Tasks node2 = <[PodKey (ti_Pod t) := c2]> (ni_Tasks node) →
            ∃ node' c,
              <[ti_NodeName t := node2]> (sc_Nodes sc) !! ti_NodeName t = Some node'
              ∧ ni_Tasks node' !! PodKey (ti_Pod t) = Some c
              ∧ (c ∉ dom h) ∧ h2 !!! c = tn).
  { intros node2 Htasks. exists node2, c2. rewrite lookup_insert_eq.
    split; [done|]. by rewrite Htasks, lookup_insert_eq, Hc2. }
  destruct (shadowPodGroup (ji_PodGroup job)) eqn:Hshadow; simpl in Hret.
  - injection Hret as <- <- <-. simpl. rewrite Ht2. fold t.
    split; [done|]. split; [done|]. split; [by apply Hcopy|].
    split; [by left|done].
  - destruct (ji_PodGroup job) as [pg|]; [|done].
    destruct (pg_Version pg);
      [destruct (ConvertPodGroupInfoToV1Alpha pg)
      |destruct (ConvertPodGroupInfoToV2Alpha pg)|];
      injection Hret as <- <- <-; simpl; rewrite Ht2; fold t;
      (split; [done|]); (split; [done|]); (split; [by apply Hcopy|]);
      (split; [|intros [?|?]]); try done; try (by right);
      exfalso; by eapply Hrec.
Qed.

End cache_effects.

Lemma Bind_success_witness :
  ∃ sc' h' node',
    @Bind exact_env roomy_cache 1%positive "n1" sample_heap = (None, sc', h')
    ∧ sc_Nodes sc' = <["n1" := node']> (sc_Nodes roomy_cache)
    ∧ ti_Status (h' !!! 1%positive) = Binding
    ∧ sc_spawned sc' = [GoBind (mkPod "ns" "a" "uA") "n1" 1%positive].
Proof.
  set (r := @Bind exact_env roomy_cache 1%positive "n1" sample_heap).
  assert (E : r = (None, r.1.2, r.2)) by (by vm_compute).
  destruct (@Bind_success exact_env _ _ _ _ _ _ E)
    as (job & task & node & node' & c & Hf & _ & Hn' & _ & _ & _ & Ht & _ & _
        & Hsp & _).
  assert (task = 1%positive) as ->.
  { vm_compute in Hf. by injection Hf as _ <-. }
  exists r.1.2, r.2, node'. split; [exact E|]. split; [exact Hn'|].
  split; [by rewrite Ht|]. rewrite Hsp. by vm_compute.
Defined.

Lemma Bind_error_effects_witness :
  ∃ sc' h',
    @Bind exact_env busy_cache 1%positive "n1" busy_heap
    = (Some (mkError "Selected node NotReady"), sc', h')
    ∧ sc_Nodes sc' = sc_Nodes busy_cache
    ∧ sc_spawned sc' = [].
Proof.
  set (r := @Bind exact_env busy_cache 1%positive "n1" busy_heap).
  assert (E : r = (Some (mkError "Selected node NotReady"), r.1.2, r.2))
    by (by vm_compute).
  destruct (@Bind_error_effects exact_env _ _ _ _ _ _ _ E) as (Hn & Hsp & _).
  exists r.1.2, r.2. split; [exact E|]. split; [exact Hn|exact Hsp].
Defined.

Lemma cache_Evict_effects_witness :
  ∃ sc' h',
    @cache_Evict exact_env odd_cache 2%positive "preempt" sample_heap
    = Ret (Some (mkError "Invalid PodGroup Version"), sc', h')
    ∧ sc_spawned sc' = [GoEvict (mkPod "ns" "b" "uB") 2%positive]
    ∧ ti_Status (h' !!! 2%positive) = Releasing.
Proof.
  set (r := @cache_Evict exact_env odd_cache 2%positive "preempt" sample_heap).
  set (res := match r with
              | Ret x => x
              | Fatal _ => (None, odd_cache, sample_heap)
              end).
  assert (E : r = Ret (Some (mkError "Invalid PodGroup Version"), res.1.2, res.2))
    by (by vm_compute).
  exists res.1.2, res.2. split; [exact E|].
  destruct (@cache_Evict_effects exact_env _ _ _ _ _ _ _ E)
    as [(_ & Hsp & _)|(job & task & Hf & Hsp & Hst & _)].
  - exfalso. vm_compute in Hsp. discriminate Hsp.
  - assert (task = 2%positive) as ->.
    { vm_compute in Hf. by injection Hf as _ <-. }
    split; [rewrite Hsp; by vm_compute|exact Hst].
Defined.

(** ** Commit goes through the whole journal *)

Section commit_loop_facts.
Context `{!Env}.

Lemma evict_frame (w w' : World) (p : ptr) (reason : string) (e : option error) :
  evict w p reason = Ret (e, w') →
  operations w' = operations w
  ∧ ∃ es, trace w' = trace w ++ CallEvict p reason :: es.
Proof.
  unfold evict.
  destruct (cache_Evict _ _ _ _) as [[[[err|] sc] h]|]; [| |done].
  - set (w0 := set_heap (set_cache (emit w [CallEvict p reason]) sc) h).
    pose proof (Discard_op_frame w0 (match unevict w0 p reason with
                                     | Ret (_, w1) => w1
                                     | Fatal _ => w0
                                     end) (mkOperation "evict" p reason)) as Hf.
    unfold Discard_op in Hf. simpl in Hf.
    destruct (unevict w0 p reason) as [[e1 w1]|]; [|done].
    destruct (Hf eq_refl) as (Ho & _ & _ & Ht).
    intros [= _ <-]. split; [done|]. rewrite Ht. simpl.
    rewrite <- app_assoc. by eexists.
  - intros [= _ <-]. split; [done|]. by exists [].
Qed.

Lemma allocate_frame (w w' : World) (p : ptr) (hostname : string) (e : option error) :
  allocate w p hostname = (e, w') →
  operations w' = operations w
  ∧ ∃ es, trace w' = trace w ++ CallBindVolumes p :: es.
Proof.
  unfold allocate. simpl.
  destruct (BindVolumes _ _).
  { intros [= _ <-]. split; [done|]. by exists []. }
  destruct (Bind _ _ _ _) as [[[err|] sc] h1].
  { intros [= _ <-]. split; [done|]. simpl. rewrite <- app_assoc. by eexists. }
  set (w0 := set_heap (set_cache _ sc) h1).
  pose proof (session_UpdateTaskStatus_frame w0 p Binding) as Hf. cbv zeta in Hf.
  destruct Hf as (Ho & Ht & _).
  assert (Hres : operations (session_UpdateTaskStatus w0 p Binding).2 = operations w
                 ∧ ∃ es, trace (session_UpdateTaskStatus w0 p Binding).2
                         = trace w ++ CallBindVolumes p :: es).
  { rewrite Ho, Ht. split; [done|]. simpl. rewrite <- app_assoc. by eexists. }
  destruct (session_UpdateTaskStatus w0 p Binding) as [[[err|]|] w2];
    by intros [= _ <-].
Qed.

Lemma Commit_op_frame (w w' : World) (op : operation) :
  Commit_op w op = Ret w' →
  operations w' = operations w
  ∧ ∃ es, trace w' = trace w ++ es ∧ attempted op es.
Proof.
  unfold Commit_op, attempted. repeat case_bool_decide.
  - destruct (evict w (op_task op) (op_arg op)) as [[e w1]|] eqn:E1; [|done].
    apply evict_frame in E1 as (Ho & es & Ht). intros [= <-].
    split; [done|]. eexists. split; [done|]. split; [|congruence].
    intros _. by left.
  - intros [= <-]. split; [done|]. exists []. rewrite app_nil_r.
    split; [done|]. split; congruence.
  - destruct (allocate w (op_task op) (op_arg op)) as [e w1] eqn:E1.
    apply allocate_frame in E1 as (Ho & es & Ht). simpl. intros [= <-].
    split; [done|]. eexists. split; [done|]. split; [done|].
    intros _. by left.
  - intros [= <-]. split; [done|]. exists []. rewrite app_nil_r.
    split; [done|]. split; congruence.
Qed.

Lemma Commit_loop_frame (ops : list operation) (w w' : World) :
  run_ops Commit_op ops w = Ret w' →
  operations w' = operations w
  ∧ ∃ es, trace w' = trace w ++ es ∧ ∀ op, op ∈ ops → attempted op es.
Proof.
  revert w. induction ops as [|op ops IH]; intros w; simpl.
  - intros [= <-]. split; [done|]. exists []. rewrite app_nil_r.
    split; [done|]. intros op Hop. by apply elem_of_nil in Hop.
  - destruct (Commit_op w op) as [w1|] eqn:E1; [|done].
    apply Commit_op_frame in E1 as (Ho & es1 & Ht1 & Hat1).
    intros Hrest. apply IH in Hrest as (Ho' & es2 & Ht2 & Hat2).
    split; [congruence|]. exists (es1 ++ es2).
    split; [by rewrite Ht2, Ht1, <- app_assoc|].
    intros op' [->|Hin]%elem_of_cons.
    + destruct Hat1 as [He Ha]. split; intros Hn; apply elem_of_app; left; auto.
    + destruct (Hat2 op' Hin) as [He Ha].
      split; intros Hn; apply elem_of_app; right; auto.
Qed.

Lemma evict_calls (w w' : World) (p : ptr) (reason : string) (e : option error) :
  evict w p reason = Ret (e, w') →
  operations w' = operations w
  ∧ ssn_eventHandlers (ssn w') = ssn_eventHandlers (ssn w)
  ∧ (trace w' = trace w ++ [CallEvict p reason]
     ∨ trace w' = trace w ++ CallEvict p reason
                    :: allocate_calls (ssn_eventHandlers (ssn w)) p).
Proof.
  unfold evict.
  destruct (cache_Evict _ _ _ _) as [[[[err|] sc] h]|]; [| |done].
  - set (w0 := set_heap (set_cache (emit w [CallEvict p reason]) sc) h).
    pose proof (Discard_op_frame w0 (match unevict w0 p reason with
                                     | Ret (_, w1) => w1
                                     | Fatal _ => w0
                                     end) (mkOperation "evict" p reason)) as Hf.
    unfold Discard_op, undo_calls in Hf. simpl in Hf.
    destruct (unevict w0 p reason) as [[e1 w1]|]; [|done].
    destruct (Hf eq_refl) as (Ho & He & _ & Ht).
    intros [= _ <-]. split; [done|]. split; [done|]. right. rewrite Ht. simpl.
    by rewrite <- app_assoc.
  - intros [= _ <-]. split; [done|]. split; [done|]. by left.
Qed.

Lemma allocate_calls_of (w w' : World) (p : ptr) (hostname : string) (e : option error) :
  allocate w p hostname = (e, w') →
  operations w' = operations w
  ∧ ssn_eventHandlers (ssn w') = ssn_eventHandlers (ssn w)
  ∧ (trace w' = trace w ++ [CallBindVolumes p]
     ∨ ∃ host, trace w' = trace w ++ [CallBindVolumes p; CallBind p host]).
Proof.
  unfold allocate. simpl.
  destruct (BindVolumes _ _).
  { intros [= _ <-]. split; [done|]. split; [done|]. by left. }
  destruct (Bind _ _ _ _) as [[[err|] sc] h1].
  { intros [= _ <-]. split; [done|]. split; [done|]. right. simpl.
    rewrite <- app_assoc. by eexists. }
  set (w0 := set_heap (set_cache _ sc) h1).
  pose proof (session_UpdateTaskStatus_frame w0 p Binding) as Hf. cbv zeta in Hf.
  destruct Hf as (Ho & Ht & _ & He & _).
  assert (Hres : operations (session_UpdateTaskStatus w0 p Binding).2 = operations w
                 ∧ ssn_eventHandlers (ssn (session_UpdateTaskStatus w0 p Binding).2)
                   = ssn_eventHandlers (ssn w)
                 ∧ (trace (session_UpdateTaskStatus w0 p Binding).2
                      = trace w ++ [CallBindVolumes p]
                    ∨ ∃ host, trace (session_UpdateTaskStatus w0 p Binding).2
                              = trace w ++ [CallBindVolumes p; CallBind p host])).
  { rewrite Ho, Ht, He. split; [done|]. split; [done|]. right. simpl.
    rewrite <- app_assoc. by eexists. }
  destruct (session_UpdateTaskStatus w0 p Binding) as [[[err|]|] w2];
    by intros [= _ <-].
Qed.

Lemma Commit_op_calls (w w' : World) (op : operation) :
  Commit_op w op = Ret w' →
  operations w' = operations w
  ∧ ssn_eventHandlers (ssn w') = ssn_eventHandlers (ssn w)
  ∧ ∃ es, trace w' = trace w ++ es
          ∧ commit_round (ssn_eventHandlers (ssn w)) op es.
Proof.
  unfold Commit_op, commit_round. repeat case_bool_decide.
  - destruct (evict w (op_task op) (op_arg op)) as [[e w1]|] eqn:E1; [|done].
    apply evict_calls in E1 as (Ho & He & Ht). intros [= <-].
    split; [done|]. split; [done|]. destruct Ht as [Ht|Ht]; eexists; split; eauto.
  - intros [= <-]. split; [done|]. split; [done|]. exists [].
    by rewrite app_nil_r.
  - destruct (allocate w (op_task op) (op_arg op)) as [e w1] eqn:E1.
    apply allocate_calls_of in E1 as (Ho & He & Ht). simpl. intros [= <-].
    split; [done|]. split; [done|].
    destruct Ht as [Ht|[host Ht]]; eexists; split; eauto.
  - intros [= <-]. split; [done|]. split; [done|]. exists [].
    by rewrite app_nil_r.
Qed.

Lemma Commit_loop_calls (ops : list operation) (w w' : World) :
  run_ops Commit_op ops w = Ret w' →
  operations w' = operations w
  ∧ ∃ ess, trace w' = trace w ++ concat ess
           ∧ Forall2 (commit_round (ssn_eventHandlers (ssn w))) ops ess.
Proof.
  revert w. induction ops as [|op ops IH]; intros w; simpl.
  - intros [= <-]. split; [done|]. exists []. simpl. by rewrite app_nil_r.
  - destruct (Commit_op w op) as [w1|] eqn:E1; [|done].
    apply Commit_op_calls in E1 as (Ho & He & es1 & Ht1 & Hr1).
    intros Hrest. apply IH in Hrest as (Ho' & ess & Ht2 & Hr2).
    split; [congruence|]. exists (es1 :: ess).
    split; [simpl; by rewrite Ht2, Ht1, <- app_assoc|].
    constructor; [done|]. by rewrite <- He.
Qed.

Lemma allocate_calls_no_request (ehs : list EventHandler) (p : ptr) :
  filter is_cache_request (allocate_calls ehs p) = [].
Proof.
  unfold allocate_calls. induction ehs as [|eh ehs IH]; simpl; [done|].
  destruct (AllocateFunc eh); simpl; [|done].
  rewrite filter_cons_False; [done|]. simpl. by intros [].
Qed.

Lemma commit_round_requests (ehs : list EventHandler) (op : operation)
    (es : list Effect) :
  commit_round ehs op es →
  filter is_cache_request es = option_list (cache_request op).
Proof.
  unfold commit_round, cache_request. repeat case_bool_decide; try congruence.
  - intros [->| ->]; [done|]. rewrite filter_cons_True by done.
    by rewrite allocate_calls_no_request.
  - by intros ->.
  - by intros [->|[host ->]].
  - by intros ->.
Qed.

Lemma commit_rounds_requests (ehs : list EventHandler) (ops : list operation)
    (ess : list (list Effect)) :
  Forall2 (commit_round ehs) ops ess →
  filter is_cache_request (concat ess) = omap cache_request ops.
Proof.
  induction 1 as [|op es ops ess Hr _ IH]; [done|].
  simpl. rewrite filter_app, IH, (commit_round_requests _ _ _ Hr).
  by destruct (cache_request op).
Qed.

Lemma Commit_refines (ops : list operation) (w : World) :
  run_ops Commit_op ops w = commit_in_order ops w.
Proof.
  revert w. induction ops as [|op ops IH]; intros w; simpl; [done|].
  unfold Commit_op, pipeline. repeat case_bool_decide; try congruence.
  - destruct (evict _ _ _) as [[e w1]|]; [apply IH|done].
  - apply IH.
  - apply IH.
  - apply IH.
Qed.

(** C6. [Commit] goes through the journal in insertion order, one round
    per record, and is the loop the specification describes
    ([commit_in_order]).  When it returns, the journal is as it was and the
    calls it made are, record after record in the order of the journal, the
    calls of that record's round: none for a pipeline record; for an
    allocate record [BindVolumes], then (if that succeeded) [Bind]; for an
    evict record the cache's [Evict], then (if that failed) the callbacks of
    the rollback.  A journal of pipeline records only is committed without
    any effect; a journal of one allocate record is committed as that
    record's [allocate].  The round of a pipeline record leaves the world as
    it is: no call into the cache, no callback, no status and no vector of a
    node changed; the journal is committed as if the record were not in it.
    The round of an allocate record calls [BindVolumes], then (if that
    succeeded) [Bind] for the task's node, and when it ends without error
    the task is Binding. *)
Theorem Commit_pipeline_is_skipped (w : World) :
  Commit w = commit_in_order (operations w) w
  ∧ (∀ w', Commit w = Ret w' →
       operations w' = operations w
       ∧ ∃ ess, trace w' = trace w ++ concat ess
                ∧ Forall2 (commit_round (ssn_eventHandlers (ssn w)))
                    (operations w) ess)
  ∧ ((∀ op, op ∈ operations w → op_name op = "pipeline") → Commit w = Ret w)
  ∧ (∀ task hostname,
       operations w = [mkOperation "allocate" task hostname] →
       let r := allocate w task hostname in
       Commit w = Ret r.2
       ∧ trace r.2 =
           trace w ++ CallBindVolumes task ::
             match BindVolumes task (heap w) with
             | Some _ => []
             | None => [CallBind task (ti_NodeName (heap w !!! task))]
             end
       ∧ (r.1 = None → ti_Status (heap r.2 !!! task) = Binding))
  ∧ Commit w = run_ops Commit_op (operations w) w
  ∧ (∀ ops1 ops2 w0,
       run_ops Commit_op (ops1 ++ ops2) w0 =
         match run_ops Commit_op ops1 w0 with
         | Fatal msg => Fatal msg
         | Ret w1 => run_ops Commit_op ops2 w1
         end)
  ∧ (∀ op, op_name op = "pipeline" → Commit_op w op = Ret w)
  ∧ (∀ op ops1 ops2 w0,
       op_name op = "pipeline" →
       run_ops Commit_op (ops1 ++ op :: ops2) w0
       = run_ops Commit_op (ops1 ++ ops2) w0)
  ∧ (∀ op, op_name op = "allocate" →
       let task := op_task op in
       let r := allocate w task (op_arg op) in
       Commit_op w op = Ret r.2
       ∧ trace r.2 =
           trace w ++ CallBindVolumes task ::
             match BindVolumes task (heap w) with
             | Some _ => []
             | None => [CallBind task (ti_NodeName (heap w !!! task))]
             end
       ∧ (r.1 = None → ti_Status (heap r.2 !!! task) = Binding)).
Proof.
  assert (Hskip : ∀ w0 op, op_name op = "pipeline" → Commit_op w0 op = Ret w0).
  { intros w0 op Hop. unfold Commit_op. by rewrite Hop. }
  assert (Halloc : ∀ op, op_name op = "allocate" →
       let task := op_task op in
       let r := allocate w task (op_arg op) in
       Commit_op w op = Ret r.2
       ∧ trace r.2 =
           trace w ++ CallBindVolumes task ::
             match BindVolumes task (heap w) with
             | Some _ => []
             | None => [CallBind task (ti_NodeName (heap w !!! task))]
             end
       ∧ (r.1 = None → ti_Status (heap r.2 !!! task) = Binding)).
  { intros op Hop. cbv zeta. split; [unfold Commit_op; by rewrite Hop|].
      unfold allocate. simpl.
      destruct (BindVolumes _ _) as [e|]; simpl.
      { split; [done|done]. }
      destruct (Bind _ _ _ _) as [[[e|] sc] h1]; simpl.
      { split; [|done]. by rewrite <- app_assoc. }
      destruct (session_UpdateTaskStatus _ _ _) as [[[e|]|] w2] eqn:E; simpl.
      + split; [|done].
        pose proof (session_UpdateTaskStatus_trace
                      (set_heap (set_cache
                         (emit (emit w [CallBindVolumes (op_task op)])
                            [CallBind (op_task op)
                               (ti_NodeName (heap w !!! op_task op))]) sc) h1)
                      (op_task op) Binding) as Ht.
        rewrite E in Ht. simpl in Ht. rewrite Ht. by rewrite <- app_assoc.
      + apply session_UpdateTaskStatus_ok in E as (Hs & Ht & _).
        split; [|done]. rewrite Ht. simpl. by rewrite <- app_assoc.
      + split; [|done].
        pose proof (session_UpdateTaskStatus_trace
                      (set_heap (set_cache
                         (emit (emit w [CallBindVolumes (op_task op)])
                            [CallBind (op_task op)
                               (ti_NodeName (heap w !!! op_task op))]) sc) h1)
                      (op_task op) Binding) as Ht.
        rewrite E in Ht. simpl in Ht. rewrite Ht. by rewrite <- app_assoc. }
  split; [apply Commit_refines|].
  split; [intros w'; apply Commit_loop_calls|].
  split.
  { unfold Commit. generalize (operations w) as ops.
    induction ops as [|op ops IH]; intros Hall; simpl; [done|].
    rewrite Hskip by (apply Hall; by left).
    apply IH. intros op' Hin. apply Hall. by right. }
  split.
  { intros task hostname Hops. cbv zeta.
    destruct (Halloc (mkOperation "allocate" task hostname) eq_refl)
      as (Hc & Ht & Hs). simpl in Hc, Ht, Hs.
    split; [|by split]. unfold Commit. rewrite Hops. unfold run_ops.
    by rewrite Hc. }
  split; [done|]. split; [intros; apply run_ops_app|].
  split; [by apply Hskip|]. split; [|exact Halloc].
  intros op ops1 ops2 w0 Hop. rewrite !run_ops_app.
  destruct (run_ops Commit_op ops1 w0) as [w1|]; [|done].
  simpl. by rewrite Hskip.
Qed.

(** [Commit] does not stop at a record that fails, and takes the records
    in the order of the journal.  When it returns, the calls that open a
    round ([Evict] of the cache for an evict record, [BindVolumes] for an
    allocate record) are, in order, exactly those of the records of the
    journal from the first to the last: every record has been attempted,
    once, after the records before it and whatever errors they met; the
    errors are only logged.  The journal is left as it was. *)
Theorem Commit_attempts_every_record (w w' : World) :
  Commit w = Ret w' →
  operations w' = operations w
  ∧ ∃ es, trace w' = trace w ++ es
          ∧ filter is_cache_request es = omap cache_request (operations w)
          ∧ ∀ op, op ∈ operations w → attempted op es.
Proof.
  unfold Commit. intros Hc.
  destruct (Commit_loop_calls _ _ _ Hc) as (Ho & ess & Ht & Hr).
  destruct (Commit_loop_frame _ _ _ Hc) as (_ & es & Ht' & Hat).
  split; [done|]. exists es. split; [done|]. split; [|done].
  assert (es = concat ess) as ->.
  { apply (app_inv_head (trace w)). by rewrite <- Ht, <- Ht'. }
  by eapply commit_rounds_requests.
Qed.

End commit_loop_facts.

Lemma Commit_pipeline_is_skipped_witness :
  ∃ w' ess,
    @Commit exact_env trip_world2 = Ret w'
    ∧ trace w' = trace trip_world2 ++ concat ess
    ∧ Forall2 (commit_round [mkEventHandler (Some "drf") (Some "drf")])
        trip_ops ess.
Proof.
  set (r := @Commit exact_env trip_world2).
  assert (E : ∃ w', r = Ret w').
  { unfold r. vm_compute. by eexists. }
  destruct E as [w' E].
  destruct (@Commit_pipeline_is_skipped exact_env trip_world2)
    as (_ & Hcalls & _).
  destruct (Hcalls w' E) as (_ & ess & Ht & Hr).
  exists w', ess. split; [exact E|]. split; [exact Ht|].
  assert (Hops : operations trip_world2 = trip_ops) by (by vm_compute).
  assert (Hehs : ssn_eventHandlers (ssn trip_world2)
                 = [mkEventHandler (Some "drf") (Some "drf")]) by (by vm_compute).
  rewrite Hops, Hehs in Hr. exact Hr.
Defined.

Lemma Commit_attempts_every_record_witness :
  ∃ w' es,
    @Commit exact_env trip_world2 = Ret w'
    ∧ trace w' = trace trip_world2 ++ es
    ∧ filter is_cache_request es
      = [CallBindVolumes 1%positive; CallEvict 2%positive "preempt"].
Proof.
  set (r := @Commit exact_env trip_world2).
  assert (E : ∃ w', r = Ret w').
  { unfold r. vm_compute. by eexists. }
  destruct E as [w' E].
  destruct (@Commit_attempts_every_record exact_env trip_world2 w' E)
    as (_ & es & Ht & Hf & _).
  exists w', es. split; [exact E|]. split; [exact Ht|].
  rewrite Hf. by vm_compute.
Defined.

(** ** Snapshot is not a pure read, and shares no task of a node *)

Section snapshot_effects.
Context `{!Env}.

Lemma prioritized_without_PodGroup (classes : gmap string PriorityClass) (dflt : Z)
    (j : JobInfo) :
  ji_PodGroup j = None → prioritized classes dflt j = j.
Proof.
  intros Hpg. unfold prioritized, snapshot_priority. rewrite Hpg. by destruct j.
Qed.

Lemma Snapshot_job_round_cache (queues : gmap string QueueInfo)
    (acc : gmap string JobInfo * SchedulerCache * gmap positive TaskInfo)
    (k : string) (j : JobInfo) :
  let sc := acc.1.2 in
  let sc' := (Snapshot_job_round queues acc (k, j)).1.2 in
  sc_Nodes sc' = sc_Nodes sc ∧ sc_Queues sc' = sc_Queues sc
  ∧ sc_PriorityClasses sc' = sc_PriorityClasses sc
  ∧ sc_defaultPriority sc' = sc_defaultPriority sc
  ∧ sc_errTasks sc' = sc_errTasks sc ∧ sc_spawned sc' = sc_spawned sc
  ∧ sc_recorded sc' = sc_recorded sc
  ∧ sc_Jobs sc' =
      if taken queues j
      then <[k := prioritized (sc_PriorityClasses sc) (sc_defaultPriority sc) j]>
             (sc_Jobs sc)
      else sc_Jobs sc.
Proof.
  destruct acc as [[jobs sc] h]. cbv zeta.
  unfold Snapshot_job_round, taken, has_scheduling_spec. simpl.
  destruct (bool_decide (ji_PodGroup j = None ∧ ji_PDB j = None)) eqn:Espec;
    simpl; [done|].
  destruct (queues !! ji_Queue j) as [q|] eqn:Eq.
  - rewrite bool_decide_eq_true_2 by (by eexists).
    set (value := match ji_PodGroup j with
                  | Some pg => _
                  | None => j
                  end).
    assert (Hv : value = prioritized (sc_PriorityClasses sc) (sc_defaultPriority sc) j).
    { unfold value. destruct (ji_PodGroup j) as [pg|] eqn:Hpg.
      - unfold prioritized, snapshot_priority. rewrite Hpg.
        by destruct (sc_PriorityClasses sc !! _).
      - by rewrite prioritized_without_PodGroup. }
    destruct (JobInfo_Clone value h) as [cl h'] eqn:EC. simpl.
    by rewrite Hv.
  - rewrite bool_decide_eq_false_2; [done|].
    intros [? ?]. congruence.
Qed.

Lemma Snapshot_jobs_loop_cache (queues : gmap string QueueInfo)
    (l : list (string * JobInfo))
    (acc : gmap string JobInfo * SchedulerCache * gmap positive TaskInfo) :
  NoDup l.*1 →
  (∀ k j, (k, j) ∈ l → sc_Jobs acc.1.2 !! k = Some j) →
  let sc := acc.1.2 in
  let sc' := (foldl (Snapshot_job_round queues) acc l).1.2 in
  sc_Nodes sc' = sc_Nodes sc ∧ sc_Queues sc' = sc_Queues sc
  ∧ sc_PriorityClasses sc' = sc_PriorityClasses sc
  ∧ sc_defaultPriority sc' = sc_defaultPriority sc
  ∧ sc_errTasks sc' = sc_errTasks sc ∧ sc_spawned sc' = sc_spawned sc
  ∧ sc_recorded sc' = sc_recorded sc
  ∧ ∀ k, sc_Jobs sc' !! k =
         match (list_to_map l : gmap string JobInfo) !! k with
         | Some j => Some (job_after_snapshot queues (sc_PriorityClasses sc)
                             (sc_defaultPriority sc) j)
         | None => sc_Jobs sc !! k
         end.
Proof.
  revert acc. induction l as [|[k j] l IH]; intros acc Hnd Hin; cbv zeta; csimpl.
  - split_and!; done || (intros k; by rewrite lookup_empty).
  - csimpl in Hnd. apply NoDup_cons in Hnd as [Hk Hnd].
    destruct (Snapshot_job_round_cache queues acc k j)
      as (R1 & R2 & R3 & R4 & R5 & R6 & R7 & RJ).
    set (acc' := Snapshot_job_round queues acc (k, j)) in *.
    assert (Hne : ∀ k', k' ≠ k → sc_Jobs acc'.1.2 !! k' = sc_Jobs acc.1.2 !! k').
    { intros k' Hk'. rewrite RJ. destruct (taken queues j); [|done].
      by rewrite lookup_insert_ne. }
    destruct (IH acc' Hnd) as (I1 & I2 & I3 & I4 & I5 & I6 & I7 & IJ).
    { intros k' j' Hin'. rewrite Hne.
      - apply Hin. by right.
      - intros ->. apply Hk. apply list_elem_of_fmap. by exists (k, j'). }
    split_and!; try congruence.
    intros k0. rewrite IJ, R3, R4.
    destruct (decide (k0 = k)) as [->|Hk0].
    + rewrite lookup_insert_eq.
      rewrite (not_elem_of_list_to_map_1 l k) by done.
      rewrite RJ. unfold job_after_snapshot.
      destruct (taken queues j); [by rewrite lookup_insert_eq|].
      apply Hin. by left.
    + rewrite (lookup_insert_ne _ k k0) by done.
      destruct (list_to_map l !! k0); [done|]. by apply Hne.
Qed.

(** [Snapshot] is not a pure read of the cache: for every job that it
    takes (a job with a PodGroup or a PDB whose queue is in the snapshot)
    and that has a PodGroup, the priority it resolves is written to the
    cache's own job.  Nothing else of the cache is changed: the other jobs,
    the nodes, the queues, the priority classes and the queues of pending
    work are as before. *)
Theorem Snapshot_writes_priorities (sc : SchedulerCache) (h : gmap positive TaskInfo) :
  let ci := (Snapshot sc h).1.1 in
  let sc' := (Snapshot sc h).1.2 in
  sc_Jobs sc'
  = job_after_snapshot (ci_Queues ci) (sc_PriorityClasses sc) (sc_defaultPriority sc)
      <$> sc_Jobs sc
  ∧ sc_Nodes sc' = sc_Nodes sc ∧ sc_Queues sc' = sc_Queues sc
  ∧ sc_PriorityClasses sc' = sc_PriorityClasses sc
  ∧ sc_defaultPriority sc' = sc_defaultPriority sc
  ∧ sc_errTasks sc' = sc_errTasks sc ∧ sc_spawned sc' = sc_spawned sc
  ∧ sc_recorded sc' = sc_recorded sc.
Proof.
  cbv zeta. unfold Snapshot.
  destruct (Snapshot_nodes sc h) as [nodes h1] eqn:EN.
  pose proof (Snapshot_jobs_loop_cache (Snapshot_queues sc) (map_to_list (sc_Jobs sc))
                (∅, sc, h1) (NoDup_fst_map_to_list _)) as Hloop.
  cbv zeta in Hloop. fold (Snapshot_jobs sc (Snapshot_queues sc) h1) in Hloop.
  destruct (Snapshot_jobs sc (Snapshot_queues sc) h1) as [[jobs sc'] h2] eqn:EJ.
  simpl in *.
  destruct Hloop as (R1 & R2 & R3 & R4 & R5 & R6 & R7 & RJ).
  { intros k j Hin. by apply elem_of_map_to_list. }
  split_and!; try done.
  apply map_eq. intros k. rewrite RJ, list_to_map_to_list, lookup_fmap.
  by destruct (sc_Jobs sc !! k).
Qed.

Lemma Clone_round_fresh (h : gmap positive TaskInfo)
    (acc : NodeInfo * gmap positive TaskInfo) (p : ptr) :
  clone_is_fresh h acc →
  clone_is_fresh h (let '(_, res, h') := AddTask acc.1 p acc.2 in (res, h')).
Proof.
  intros Hinv. destruct acc as [ni ha]. simpl.
  rewrite AddTask_unfold. cbv zeta.
  destruct (on_other_node _ _); [done|].
  destruct (ni_Tasks ni !! _) eqn:Hkey; [done|].
  destruct (fits _ _ _); [|done].
  destruct Hinv as (Hacc & Hdom & Htasks). simpl in *.
  set (t := ha !!! p) in *.
  destruct (fresh_after_insert ha p (set_NodeName t (ni_Name ni))) as [Hcp Hch].
  set (c := fresh (dom (<[p := set_NodeName t (ni_Name ni)]> ha))) in *.
  split; [by apply (entered_accounted ni)|]. split; simpl.
  - intros q Hq. by apply dom_insert_subseteq, dom_insert_subseteq, Hdom.
  - intros key c'. rewrite lookup_insert. case_decide as Hk.
    + intros [= <-]. intros Hin. by apply Hch, Hdom.
    + apply Htasks.
Qed.

Lemma Clone_fresh (n : NodeInfo) (h : gmap positive TaskInfo) :
  clone_is_fresh h (NodeInfo_Clone n h).
Proof.
  unfold NodeInfo_Clone.
  assert (Hgen : ∀ l acc, clone_is_fresh h acc →
            clone_is_fresh h
              (foldl (λ (acc : NodeInfo * gmap positive TaskInfo) p,
                        let '(_, res, h') := AddTask acc.1 p acc.2 in (res, h'))
                     acc l)).
  { induction l as [|p l IH]; intros acc Hacc; simpl; [done|].
    apply IH. by apply Clone_round_fresh. }
  apply Hgen. split; [apply NewNodeInfo_accounted|]. split; [done|].
  intros key c. unfold NewNodeInfo, setNodeState. simpl.
  destruct (ni_Node n); simpl; [destruct (LessEqual _ _); simpl|];
    by rewrite lookup_empty.
Qed.

Lemma Snapshot_node_round_fresh (h : gmap positive TaskInfo)
    (acc : gmap string NodeInfo * gmap positive TaskInfo) (value : NodeInfo) :
  snapshot_nodes_fresh h acc →
  snapshot_nodes_fresh h (Snapshot_node_round acc value).
Proof.
  intros [Hdom Hnodes]. unfold Snapshot_node_round.
  destruct (NodeInfo_Ready value); simpl; [|done].
  pose proof (Clone_fresh value acc.2) as (Hacc & Hgrow & Hfresh).
  destruct (NodeInfo_Clone value acc.2) as [cl hh]. simpl in *.
  split; simpl.
  - intros q Hq. by apply Hgrow, Hdom.
  - intros name n. rewrite lookup_insert. case_decide as Hk.
    + intros [= <-]. split; [done|]. intros key c Hc Hin.
      by apply (Hfresh key c Hc), Hdom.
    + apply Hnodes.
Qed.

(** The nodes of a snapshot share no task object with the cache: every
    task that a node of the snapshot holds is an object made during the
    call, so that what a session does to the tasks of its nodes cannot
    reach the cache.  And every node of the snapshot has balanced accounts
    (Idle + Used = Allocatable), whatever the accounts of the cache's node
    were. *)
Theorem Snapshot_nodes_are_fresh (sc : SchedulerCache) (h : gmap positive TaskInfo)
    (name : string) (n : NodeInfo) :
  ci_Nodes (Snapshot sc h).1.1 !! name = Some n →
  accounted n
  ∧ ∀ key c, ni_Tasks n !! key = Some c → c ∉ dom h.
Proof.
  unfold Snapshot.
  assert (Hgen : ∀ l acc, snapshot_nodes_fresh h acc →
                          snapshot_nodes_fresh h (foldl Snapshot_node_round acc l)).
  { induction l as [|v l IH]; intros acc Hacc; simpl; [done|].
    apply IH. by apply Snapshot_node_round_fresh. }
  pose proof (Hgen (map_to_list (sc_Nodes sc)).*2 (∅, h)) as Hnodes.
  fold (Snapshot_nodes sc h) in Hnodes.
  destruct (Snapshot_nodes sc h) as [nodes h1] eqn:EN.
  destruct Hnodes as [Hdom Hnodes].
  { split; [done|]. intros name' n'. simpl. by rewrite lookup_empty. }
  destruct (Snapshot_jobs sc (Snapshot_queues sc) h1) as [[jobs sc'] h2] eqn:EJ.
  simpl in *. intros Hn. by apply (Hnodes name n).
Qed.

End snapshot_effects.

Example Snapshot_writes_priorities_example :
  ji_Priority <$> sc_Jobs (@Snapshot exact_env snap_cache ∅).1.2
  = <["ja" := 1000%Z]> (<["jb" := 7%Z]> {[ "jc" := 0%Z ]}).
Proof. by vm_compute. Qed.

Lemma Snapshot_nodes_are_fresh_witness :
  ∃ n c,
    ci_Nodes (@Snapshot exact_env roomy_cache sample_heap).1.1 !! "n1" = Some n
    ∧ ni_Tasks n !! "ns/b" = Some c
    ∧ (c ∉ dom sample_heap)
    ∧ accounted n.
Proof.
  set (ci := (@Snapshot exact_env roomy_cache sample_heap).1.1).
  set (n := default sample_node_info (ci_Nodes ci !! "n1")).
  set (c := default 1%positive (ni_Tasks n !! "ns/b")).
  assert (En : ci_Nodes ci !! "n1" = Some n) by (by vm_compute).
  assert (Ec : ni_Tasks n !! "ns/b" = Some c) by (by vm_compute).
  destruct (@Snapshot_nodes_are_fresh exact_env roomy_cache sample_heap "n1" n En)
    as [Hacc Hfresh].
  exists n, c. split; [exact En|]. split; [exact Ec|].
  split; [exact (Hfresh _ _ Ec)|exact Hacc].
Defined.
